(** * SQL-to-Prisma converter: the schema parser and the model generator

    A shallow embedding of [src/services/sql-parser.ts] (class [SQLParser])
    and [src/services/prisma-generator.ts] (class [PrismaGenerator]) with
    the data model of [src/types/index.ts].

    Modelling conventions.
    - A JavaScript string is a [string]; a character is an [ascii].  The
      codes 0..127 are the ASCII code units.  The codes 128..255 stand for
      code units outside ASCII: they are not white space, not word
      characters, and the case conversions leave them alone (the case
      mappings and the white space of JavaScript outside ASCII are not
      modelled).
    - The regular expressions of the source are values of [Regex.regex],
      run by a backtracking matcher that follows the ECMAScript priorities
      (leftmost start, left alternative first, greedy or lazy loops, no
      empty loop iteration).
    - [undefined] and [null] are [None].
    - An exception is the outcome [Throw]; [console.error] appends to an
      explicit console that is threaded through the parser. *)

From Stdlib Require Import String Ascii List Arith Lia Bool NArith ZArith.
From stdpp Require Import base option list strings gmap.

Import ListNotations.
Local Open Scope list_scope.

(** ** JavaScript string primitives *)

Module JS.

Definition code (c : ascii) : nat := nat_of_ascii c.

(** The double quote and the line feed, by their codes. *)
Definition dquote : ascii := ascii_of_nat 34.
Definition newline : ascii := ascii_of_nat 10.
Definition dq : string := String dquote EmptyString.
Definition nl : string := String newline EmptyString.

Definition between (lo hi : nat) (c : ascii) : bool :=
  (lo <=? code c) && (code c <=? hi).

Definition isUpper : ascii -> bool := between 65 90.
Definition isLower : ascii -> bool := between 97 122.
Definition isDigit : ascii -> bool := between 48 57.

(** [\w] *)
Definition isWord (c : ascii) : bool :=
  isUpper c || isLower c || isDigit c || (code c =? 95).

(** [\s], and the characters removed by [trim]: space, TAB, LF, VT, FF, CR. *)
Definition isSpace (c : ascii) : bool :=
  (code c =? 32) || between 9 13 c.

(** Line terminators: LF and CR. *)
Definition isLineTerminator (c : ascii) : bool :=
  (code c =? 10) || (code c =? 13).

Definition upperChar (c : ascii) : ascii :=
  if isLower c then ascii_of_nat (code c - 32) else c.

Definition lowerChar (c : ascii) : ascii :=
  if isUpper c then ascii_of_nat (code c + 32) else c.

Fixpoint mapChars (f : ascii -> ascii) (s : string) : string :=
  match s with
  | EmptyString => EmptyString
  | String c s' => String (f c) (mapChars f s')
  end.

Definition toUpperCase : string -> string := mapChars upperChar.
Definition toLowerCase : string -> string := mapChars lowerChar.

Definition len : string -> nat := String.length.

(** [s.slice(i)] for [0 <= i]. *)
Fixpoint sliceFrom (i : nat) (s : string) : string :=
  match i, s with
  | 0, _ => s
  | S i', String _ s' => sliceFrom i' s'
  | S _, EmptyString => EmptyString
  end.

(** [s.slice(0, n)] for [0 <= n]. *)
Fixpoint take (n : nat) (s : string) : string :=
  match n, s with
  | S n', String c s' => String c (take n' s')
  | _, _ => EmptyString
  end.

(** [s.slice(i, j)] for [0 <= i] and [0 <= j]. *)
Definition slice (i j : nat) (s : string) : string :=
  take (j - i) (sliceFrom i s).

(** [s.slice(0, -1)] *)
Definition dropLast (s : string) : string := take (len s - 1) s.

(** [s.slice(1, -1)] *)
Definition stripEnds (s : string) : string := slice 1 (len s - 1) s.

(** [s.charAt(0)]: the first character as a string, or the empty string. *)
Definition charAt0 (s : string) : string := take 1 s.

Fixpoint startsWith (p s : string) : bool :=
  match p, s with
  | EmptyString, _ => true
  | String a p', String b s' => if Ascii.eqb a b then startsWith p' s' else false
  | String _ _, EmptyString => false
  end.

Definition endsWith (p s : string) : bool :=
  (len p <=? len s) && String.eqb (sliceFrom (len s - len p) s) p.

(** [s.indexOf(p, from)], counted from the start of [s]; [None] is -1. *)
Fixpoint indexOfAt (p : string) (pos : nat) (s : string) : option nat :=
  if startsWith p s then Some pos
  else match s with
       | EmptyString => None
       | String _ s' => indexOfAt p (S pos) s'
       end.

Definition indexOf (p s : string) : option nat := indexOfAt p 0 s.

Definition indexOfFrom (p : string) (from : nat) (s : string) : option nat :=
  if from <=? len s then indexOfAt p from (sliceFrom from s) else None.

Definition includes (p s : string) : bool :=
  match indexOf p s with Some _ => true | None => false end.

Fixpoint trimStart (s : string) : string :=
  match s with
  | String c s' => if isSpace c then trimStart s' else s
  | EmptyString => EmptyString
  end.

(** Drops the trailing white space: a character is kept when something
    that is not white space follows it, or when it is not white space. *)
Fixpoint trimEnd (s : string) : string :=
  match s with
  | EmptyString => EmptyString
  | String c s' =>
      match trimEnd s' with
      | EmptyString => if isSpace c then EmptyString else String c EmptyString
      | t => String c t
      end
  end.

Definition trim (s : string) : string := trimEnd (trimStart s).

(** [s.split(sep)] for a separator of one character. *)
Fixpoint splitChar (sep : ascii) (cur : string) (s : string) : list string :=
  match s with
  | EmptyString => [cur]
  | String c s' =>
      if Ascii.eqb c sep then cur :: splitChar sep EmptyString s'
      else splitChar sep (cur +:+ String c EmptyString) s'
  end.

Definition split (sep : ascii) (s : string) : list string :=
  splitChar sep EmptyString s.

(** [xs.join(sep)] *)
Fixpoint join (sep : string) (xs : list string) : string :=
  match xs with
  | [] => EmptyString
  | [x] => x
  | x :: rest => x +:+ sep +:+ join sep rest
  end.

Fixpoint spaces (n : nat) : string :=
  match n with
  | 0 => EmptyString
  | S n' => String " " (spaces n')
  end.

(** [s.padEnd(n)] *)
Definition padEnd (n : nat) (s : string) : string := s +:+ spaces (n - len s).

(** A string is truthy when it is not empty. *)
Definition truthy (s : string) : bool :=
  match s with EmptyString => false | _ => true end.

(** [a || b] on two possibly undefined strings. *)
Definition orElse (a b : option string) : option string :=
  match a with
  | Some x => if truthy x then a else b
  | None => b
  end.

(** [v] for [m[i] || m[j]] where the groups [i] and [j] are the two
    sides of an alternative: one of them takes part in every match, and
    [v] is defined (lemmas [tableName_defined], [enumName_defined] and
    [alterNames_defined] below). *)
Definition defined (v : option string) : string := default EmptyString v.

(** [parseInt(s)] for a string of decimal digits (the rounding to a
    double above 2^53 is not modelled). *)
Definition parseInt (s : string) : N :=
  (fix go (acc : N) (s : string) : N :=
     match s with
     | String c s' =>
         if isDigit c then go (acc * 10 + N.of_nat (code c - 48))%N s' else acc
     | EmptyString => acc
     end) 0%N s.

(** A template literal: the pieces put together. *)
Definition concat (xs : list string) : string := join EmptyString xs.

(** [Math.max(...ns)] over lengths, as [padEnd] reads it: the
    [-Infinity] of the empty list is the length [0]. *)
Definition maxOf (ns : list nat) : nat := foldr Nat.max 0 ns.

End JS.

(** ** Regular expressions

    The subset of ECMAScript regular expressions the source uses, with a
    backtracking matcher in continuation-passing style.  The flag [i] is
    resolved when a pattern is written down ([ichr], [istr] compare modulo
    ASCII case); the flag [m] is the assertion [EolM] in place of [Eol].
    No pattern of the source has a capture group inside a loop, so the
    reset of captures at each iteration has nothing to act on. *)

Module Regex.

Inductive regex : Type :=
| Eps                              (* the empty pattern *)
| Cls (p : ascii -> bool)          (* one character of a class *)
| Cat (r1 r2 : regex)              (* r1 r2 *)
| Alt (r1 r2 : regex)              (* r1 | r2 *)
| Star (r : regex)                 (* r*, greedy *)
| LazyStar (r : regex)             (* r*?, lazy *)
| Grp (i : nat) (r : regex)        (* capture group number i *)
| Bol                              (* ^ without the flag m *)
| Eol                              (* $ without the flag m *)
| EolM.                            (* $ with the flag m *)

(** Matcher state: the index reached, the text that remains from there,
    and the captures set so far (the most recent binding first). *)
Record mstate : Type := MState {
  m_pos : nat;
  m_rest : string;
  m_caps : list (nat * string)
}.

(** [a // b] runs [b] only when [a] fails. *)
Notation "a // b" := (match a with Some x => Some x | None => b end)
  (at level 70, only parsing).

Fixpoint run (r : regex) (k : mstate -> option mstate) (st : mstate)
  : option mstate :=
  match r with
  | Eps => k st
  | Cls p =>
      match m_rest st with
      | String c s' =>
          if p c then k (MState (S (m_pos st)) s' (m_caps st)) else None
      | EmptyString => None
      end
  | Cat r1 r2 => run r1 (run r2 k) st
  | Alt r1 r2 => run r1 k st // run r2 k st
  | Star r1 =>
      (fix loop (fuel : nat) (st : mstate) : option mstate :=
         match fuel with
         | 0 => k st
         | S fuel' =>
             run r1 (fun st' => if m_pos st <? m_pos st'
                                 then loop fuel' st' else None) st
             // k st
         end) (String.length (m_rest st)) st
  | LazyStar r1 =>
      (fix loop (fuel : nat) (st : mstate) : option mstate :=
         match fuel with
         | 0 => k st
         | S fuel' =>
             k st
             // run r1 (fun st' => if m_pos st <? m_pos st'
                                    then loop fuel' st' else None) st
         end) (String.length (m_rest st)) st
  | Grp i r1 =>
      run r1 (fun st' =>
                k (MState (m_pos st') (m_rest st')
                     ((i, JS.take (m_pos st' - m_pos st) (m_rest st))
                        :: m_caps st'))) st
  | Bol => if m_pos st =? 0 then k st else None
  | Eol => match m_rest st with EmptyString => k st | _ => None end
  | EolM =>
      match m_rest st with
      | EmptyString => k st
      | String c _ => if JS.isLineTerminator c then k st else None
      end
  end.

(** The match at index [pos] of a text whose remainder is [s]. *)
Definition matchAt (r : regex) (pos : nat) (s : string) : option mstate :=
  run r Some (MState pos s []).

(** The result of [RegExp.prototype.exec]: index, matched text, groups. *)
Record result : Type := Result {
  r_index : nat;
  r_text : string;
  r_caps : list (nat * string)
}.

Fixpoint searchFrom (r : regex) (pos : nat) (s : string) : option result :=
  match matchAt r pos s with
  | Some st => Some (Result pos (JS.take (m_pos st - pos) s) (m_caps st))
  | None =>
      match s with
      | String _ s' => searchFrom r (S pos) s'
      | EmptyString => None
      end
  end.

(** [s.match(r)] for a pattern without the flag [g]. *)
Definition exec (r : regex) (s : string) : option result := searchFrom r 0 s.

(** [r.test(s)] *)
Definition test (r : regex) (s : string) : bool :=
  match exec r s with Some _ => true | None => false end.

(** [m[i]]: [None] when group [i] took no part in the match. *)
Fixpoint lookup (i : nat) (caps : list (nat * string)) : option string :=
  match caps with
  | [] => None
  | (j, v) :: rest => if i =? j then Some v else lookup i rest
  end.

Definition group (i : nat) (m : result) : option string :=
  lookup i (r_caps m).

(** [s.replace(r, rep)] with the flag [g].  [skip] counts the characters
    of the current match that are still to be dropped. *)
Fixpoint replaceGo (r : regex) (rep : string) (skip pos : nat) (s : string)
  : string :=
  match skip with
  | S skip' =>
      match s with
      | String _ s' => replaceGo r rep skip' (S pos) s'
      | EmptyString => EmptyString
      end
  | 0 =>
      match matchAt r pos s with
      | None =>
          match s with
          | String c s' => String c (replaceGo r rep 0 (S pos) s')
          | EmptyString => EmptyString
          end
      | Some st =>
          match m_pos st - pos with
          | 0 =>
              rep +:+ match s with
                      | String c s' => String c (replaceGo r rep 0 (S pos) s')
                      | EmptyString => EmptyString
                      end
          | S l =>
              rep +:+ match s with
                      | String _ s' => replaceGo r rep l (S pos) s'
                      | EmptyString => EmptyString
                      end
          end
      end
  end.

Definition replaceAll (r : regex) (rep : string) (s : string) : string :=
  replaceGo r rep 0 0 s.

(** [s.replace(r, rep)] without the flag [g]: the first match only. *)
Definition replaceFirst (r : regex) (rep : string) (s : string) : string :=
  match exec r s with
  | None => s
  | Some m =>
      JS.take (r_index m) s +:+ rep
        +:+ JS.sliceFrom (r_index m + JS.len (r_text m)) s
  end.

(** [s.split(r)] for a pattern without groups: [cur] is the piece being
    collected; a match that is empty and starts the piece is passed. *)
Fixpoint splitGo (r : regex) (skip pos : nat) (cur : string) (s : string)
  : list string :=
  match s with
  | EmptyString => [cur]
  | String c s' =>
      match skip with
      | S skip' => splitGo r skip' (S pos) cur s'
      | 0 =>
          match matchAt r pos s with
          | None => splitGo r 0 (S pos) (cur +:+ String c EmptyString) s'
          | Some st =>
              match m_pos st - pos with
              | 0 =>
                  if JS.truthy cur
                  then cur :: splitGo r 0 (S pos) (String c EmptyString) s'
                  else splitGo r 0 (S pos) (String c EmptyString) s'
              | S l => cur :: splitGo r l (S pos) EmptyString s'
              end
          end
      end
  end.

Definition split (r : regex) (s : string) : list string :=
  match s with
  | EmptyString =>
      match matchAt r 0 s with Some _ => [] | None => [s] end
  | _ => splitGo r 0 0 EmptyString s
  end.

(** *** Writing patterns *)

Definition chr (c : ascii) : regex := Cls (Ascii.eqb c).
Definition ichr (c : ascii) : regex :=
  Cls (fun x => Ascii.eqb (JS.upperChar x) (JS.upperChar c)).
Definition notChr (c : ascii) : regex := Cls (fun x => negb (Ascii.eqb c x)).

Fixpoint str (s : string) : regex :=
  match s with
  | EmptyString => Eps
  | String c EmptyString => chr c
  | String c s' => Cat (chr c) (str s')
  end.

Fixpoint istr (s : string) : regex :=
  match s with
  | EmptyString => Eps
  | String c EmptyString => ichr c
  | String c s' => Cat (ichr c) (istr s')
  end.

Fixpoint seq (rs : list regex) : regex :=
  match rs with
  | [] => Eps
  | [r] => r
  | r :: rest => Cat r (seq rest)
  end.

Definition plus (r : regex) : regex := Cat r (Star r).   (* r+ *)
Definition opt (r : regex) : regex := Alt r Eps.         (* r? *)

Definition any : regex := Cls (fun _ => true).                       (* [\s\S] *)
Definition dot : regex := Cls (fun c => negb (JS.isLineTerminator c)). (* . *)
Definition space : regex := Cls JS.isSpace.                          (* \s *)
Definition word : regex := Cls JS.isWord.                            (* \w *)
Definition digit : regex := Cls JS.isDigit.                          (* \d *)
Definition ws0 : regex := Star space.                                (* \s* *)
Definition ws1 : regex := plus space.                                (* \s+ *)

End Regex.

(** ** Data model ([src/types/index.ts]) *)

Inductive ConstraintType : Type :=
| PRIMARY_KEY | FOREIGN_KEY | UNIQUE | CHECK.

#[global] Instance ConstraintType_eq_dec : EqDecision ConstraintType.
Proof. solve_decision. Defined.

Record SQLColumn : Type := mkColumn {
  col_name : string;
  col_type : string;
  col_nullable : bool;
  col_defaultValue : option string;
  col_isPrimaryKey : bool;
  col_isUnique : bool;
  col_length : option N;
  col_isEnum : option bool
}.

Record SQLConstraint : Type := mkConstraint {
  con_type : ConstraintType;
  con_columns : list string;
  con_referencedTable : option string;
  con_referencedColumns : option (list string)
}.

Record SQLTable : Type := mkTable {
  tbl_name : string;
  tbl_columns : list SQLColumn;
  tbl_constraints : list SQLConstraint
}.

Record SQLEnum : Type := mkEnum {
  enum_name : string;
  enum_values : list string
}.

Record SQLParseResult : Type := mkParseResult {
  tables : list SQLTable;
  enums : list SQLEnum
}.

Record PrismaField : Type := mkField {
  field_name : string;
  field_type : string;
  field_attributes : list string;
  field_isOptional : bool;
  field_isArray : bool
}.

Record PrismaModel : Type := mkModel {
  model_name : string;
  model_fields : list PrismaField;
  model_attributes : list string
}.

Record PrismaEnum : Type := mkPrismaEnum {
  penum_name : string;
  penum_values : list string
}.

#[global] Instance SQLConstraint_eq_dec : EqDecision SQLConstraint.
Proof. solve_decision. Defined.

(** ** Exceptions and the console

    A computation takes the console (the lines written so far by
    [console.error]) and gives an outcome and the console after it. *)

Inductive outcome (A : Type) : Type :=
| Ret (a : A)
| Throw (e : string).
Arguments Ret {A} a.
Arguments Throw {A} e.

#[global] Instance outcome_ret : MRet outcome := @Ret.
#[global] Instance outcome_bind : MBind outcome := fun A B f m =>
  match m with
  | Ret a => f a
  | Throw e => Throw e
  end.

Definition console : Type := list string.

Definition M (A : Type) : Type := console -> outcome A * console.

Definition ret {A} (a : A) : M A := fun w => (Ret a, w).

Definition throw {A} (e : string) : M A := fun w => (Throw e, w).

Definition bind {A B} (m : M A) (f : A -> M B) : M B :=
  fun w =>
    match m w with
    | (Ret a, w') => f a w'
    | (Throw e, w') => (Throw e, w')
    end.

(** [try { m } catch (error) { h error }] *)
Definition tryCatch {A} (m : M A) (h : string -> M A) : M A :=
  fun w =>
    match m w with
    | (Ret a, w') => (Ret a, w')
    | (Throw e, w') => h e w'
    end.

(** [console.error(msg, error)] *)
Definition console_error (msg e : string) : M unit :=
  fun w => (Ret tt, w ++ [msg +:+ " " +:+ e]).

#[global] Instance M_ret : MRet M := @ret.
#[global] Instance M_bind : MBind M := fun A B f m => bind m f.

(** A method call on a value that may be [undefined]: [v.method(...)]
    throws a [TypeError] when [v] is [undefined]. *)
Definition TypeError (what : string) : string :=
  "TypeError: Cannot read properties of undefined (reading '" +:+ what +:+ "')".

Definition deref {A} (what : string) (v : option A) : M A :=
  match v with
  | Some a => ret a
  | None => throw (TypeError what)
  end.

(** The same in code that does not use the console. *)
Definition deref' {A} (what : string) (v : option A) : outcome A :=
  match v with
  | Some a => Ret a
  | None => Throw (TypeError what)
  end.

(** A computation that does not use the console, run in one that does. *)
Definition liftM {A} (o : outcome A) : M A := fun w => (o, w).

(** ** The schema parser ([src/services/sql-parser.ts]) *)

Module SQLParser.
Import Regex.

(** Each pattern is preceded by its source text, in which Q stands for
    the double quote and a blank separates a star from a closing
    parenthesis that follows it. *)

Definition lparen : ascii := "("%char.
Definition rparen : ascii := ")"%char.
Definition comma : ascii := ","%char.

(** [(?:Q([^Q]+)Q|(\w+))]: an identifier, quoted (group [i]) or bare
    (group [j]). *)
Definition ident (i j : nat) : regex :=
  Alt (seq [chr JS.dquote; Grp i (plus (notChr JS.dquote)); chr JS.dquote])
      (Grp j (plus word)).

(** [\s*\(\s*([^)]+)\s*\)] with group [i]. *)
Definition parenList (i : nat) : regex :=
  seq [ws0; chr lparen; ws0; Grp i (plus (notChr rparen)); ws0; chr rparen].

(** [/--.*$/gm] *)
Definition lineCommentRe : regex := seq [str "--"; Star dot; EolM].
(** [/\/\*[\s\S]*?\*\//g] *)
Definition blockCommentRe : regex := seq [str "/*"; LazyStar any; str "*/"].
(** [/\s+/g] and [/\s+/] *)
Definition whitespaceRe : regex := ws1.
(** [/CREATE\s+TABLE\s+(?:Q([^Q]+)Q|(\w+))\s*\(/i] *)
Definition tableNameRe : regex :=
  seq [istr "CREATE"; ws1; istr "TABLE"; ws1; ident 1 2; ws0; chr lparen].
(** [/\(([\s\S]* )\)/] *)
Definition contentRe : regex := seq [chr lparen; Grp 1 (Star any); chr rparen].
(** [/^(Q([^Q]+)Q|\w+)\s+/] *)
Definition columnIdentifierRe : regex :=
  seq [Bol;
       Grp 1 (Alt (seq [chr JS.dquote; Grp 2 (plus (notChr JS.dquote));
                        chr JS.dquote])
                  (plus word));
       ws1].
(** [/(\w+)\((\d+)\)/] *)
Definition lengthRe : regex :=
  seq [Grp 1 (plus word); chr lparen; Grp 2 (plus digit); chr rparen].
(** [/DEFAULT\s+((?:\([^)]*(?:\([^)]*\)[^)]* )*\)(?:::\w+)?)|(?:[^,\s]+))/i] *)
Definition defaultRe : regex :=
  seq [istr "DEFAULT"; ws1;
       Grp 1 (Alt
         (seq [chr lparen; Star (notChr rparen);
               Star (seq [chr lparen; Star (notChr rparen); chr rparen;
                          Star (notChr rparen)]);
               chr rparen;
               opt (seq [str "::"; plus word])])
         (plus (Cls (fun c => negb (Ascii.eqb c comma || JS.isSpace c)))))].
(** [/REFERENCES\s+(?:Q([^Q]+)Q|(\w+))\s*\(\s*([^)]+)\s*\)/i] *)
Definition referencesRe : regex :=
  seq [istr "REFERENCES"; ws1; ident 1 2; parenList 3].
(** [/PRIMARY\s+KEY\s*\(\s*([^)]+)\s*\)/i] *)
Definition primaryKeyRe : regex :=
  seq [istr "PRIMARY"; ws1; istr "KEY"; parenList 1].
(** [/FOREIGN\s+KEY\s*\(\s*([^)]+)\s*\)\s*REFERENCES\s+(\w+)\s*\(\s*([^)]+)\s*\)/i] *)
Definition foreignKeyRe : regex :=
  seq [istr "FOREIGN"; ws1; istr "KEY"; parenList 1; ws0;
       istr "REFERENCES"; ws1; Grp 2 (plus word); parenList 3].
(** [/CREATE\s+TYPE\s+(?:Q([^Q]+)Q|(\w+))\s+AS\s+ENUM\s*\(\s*([^)]+)\s*\)/i] *)
Definition enumRe : regex :=
  seq [istr "CREATE"; ws1; istr "TYPE"; ws1; ident 1 2; ws1; istr "AS"; ws1;
       istr "ENUM"; parenList 3].
(** [/ALTER\s+TABLE\s+(?:Q([^Q]+)Q|(\w+))\s+ADD\s+
     (?:CONSTRAINT\s+(?:Q[^Q]+Q|[\w]+)\s+)?FOREIGN\s+KEY\s*\(\s*(?:Q([^Q]+)Q|(\w+))\s*\)
     \s+REFERENCES\s+(?:Q([^Q]+)Q|(\w+))\s*\(\s*(?:Q([^Q]+)Q|(\w+))\s*\)/i] *)
Definition alterRe : regex :=
  seq [istr "ALTER"; ws1; istr "TABLE"; ws1; ident 1 2; ws1; istr "ADD"; ws1;
       opt (seq [istr "CONSTRAINT"; ws1;
                 Alt (seq [chr JS.dquote; plus (notChr JS.dquote); chr JS.dquote])
                     (plus word);
                 ws1]);
       istr "FOREIGN"; ws1; istr "KEY"; ws0; chr lparen; ws0; ident 3 4; ws0;
       chr rparen; ws1; istr "REFERENCES"; ws1; ident 5 6; ws0; chr lparen;
       ws0; ident 7 8; ws0; chr rparen].

(** [splitByCommas]: [s] is what is left of [content] at the loop index. *)
Fixpoint splitByCommasGo (s current : string) (parenthesesDepth : Z)
         (parts : list string) : list string :=
  match s with
  | EmptyString =>
      if JS.truthy (JS.trim current) then parts ++ [JS.trim current] else parts
  | String char s' =>
      if Ascii.eqb char lparen then
        splitByCommasGo s' (current +:+ String char EmptyString)
          (parenthesesDepth + 1)%Z parts
      else if Ascii.eqb char rparen then
        splitByCommasGo s' (current +:+ String char EmptyString)
          (parenthesesDepth - 1)%Z parts
      else if Ascii.eqb char comma && (parenthesesDepth =? 0)%Z then
        splitByCommasGo s' EmptyString parenthesesDepth
          (parts ++ [JS.trim current])
      else
        splitByCommasGo s' (current +:+ String char EmptyString)
          parenthesesDepth parts
  end.

Definition splitByCommas (content : string) : list string :=
  splitByCommasGo content EmptyString 0%Z [].

Definition isConstraintDefinition (part : string) : bool :=
  let upper := JS.toUpperCase part in
  let startsWithColumnIdentifier := test columnIdentifierRe part in
  (JS.includes "PRIMARY KEY" upper
   || JS.includes "FOREIGN KEY" upper
   || JS.includes "UNIQUE" upper
   || JS.includes "CHECK" upper)
  && negb startsWithColumnIdentifier.

Definition parseIdentifier (identifier : string) : string :=
  if JS.startsWith JS.dq identifier && JS.endsWith JS.dq identifier
  then JS.stripEnds identifier
  else identifier.

(** The state of the table being built, as [parseCreateTable] passes it
    to [parseColumn]: the two arrays are shared, and [parseColumn] pushes
    on [constraints]. *)
Record tableCtx : Type := mkCtx {
  ctx_name : string;
  ctx_columns : list SQLColumn;
  ctx_constraints : list SQLConstraint
}.

(** [parseColumn] gives the column, or [null], and the constraints of
    the table after the call.  Nothing can throw once the constraint is
    pushed, so the handler sees the constraints as they were. *)
Definition parseColumn (columnDef : string) (table : tableCtx)
           (enums : list SQLEnum)
  : M (option SQLColumn * list SQLConstraint) :=
  tryCatch
    (let trimmed := JS.trim columnDef in
     let split_name : option (string * string) :=
       if JS.startsWith JS.dq trimmed then
         match JS.indexOfFrom JS.dq 1 trimmed with
         | None => None
         | Some endQuote =>
             Some (JS.slice 1 endQuote trimmed,
                   JS.trim (JS.sliceFrom (endQuote + 1) trimmed))
         end
       else
         match JS.indexOf " " trimmed with
         | None => None
         | Some spaceIndex =>
             Some (JS.take spaceIndex trimmed,
                   JS.trim (JS.sliceFrom (spaceIndex + 1) trimmed))
         end in
     match split_name with
     | None => mret (None, ctx_constraints table)
     | Some (name, remainingDef) =>
         match Regex.split whitespaceRe remainingDef with
         | [] => mret (None, ctx_constraints table)
         | type0 :: _ =>
             '(type1, length) ←
               match exec lengthRe type0 with
               | Some lengthMatch =>
                   t ← deref "toLowerCase" (group 1 lengthMatch);
                   mret (t, JS.parseInt <$> group 2 lengthMatch)
               | None => mret (type0, None)
               end;
             let isEnum :=
               existsb (fun enumDef =>
                          String.eqb (JS.toLowerCase (enum_name enumDef))
                                     (JS.toLowerCase type1)) enums in
             let upperDef := JS.toUpperCase columnDef in
             let isPrimaryKey := JS.includes "PRIMARY KEY" upperDef in
             let isUnique := JS.includes "UNIQUE" upperDef || isPrimaryKey in
             let nullable :=
               negb (JS.includes "NOT NULL" upperDef) && negb isPrimaryKey in
             let isIdentity :=
               JS.includes "GENERATED BY DEFAULT AS IDENTITY" upperDef
               || JS.includes "GENERATED ALWAYS AS IDENTITY" upperDef in
             let type :=
               if isIdentity && String.eqb (JS.toUpperCase type1) "INTEGER"
               then "SERIAL"
               else if isIdentity && String.eqb (JS.toUpperCase type1) "BIGINT"
               then "BIGSERIAL"
               else type1 in
             let defaultValue :=
               match exec defaultRe columnDef with
               | Some defaultMatch => group 1 defaultMatch
               | None => None
               end in
             constraints ←
               match exec referencesRe columnDef with
               | Some referencesMatch =>
                   let referencedTable :=
                     JS.orElse (group 1 referencesMatch)
                               (group 2 referencesMatch) in
                   cols ← deref "split" (group 3 referencesMatch);
                   let referencedColumns :=
                     map (fun col => parseIdentifier (JS.trim col))
                         (JS.split comma cols) in
                   mret (ctx_constraints table
                           ++ [mkConstraint FOREIGN_KEY [name] referencedTable
                                 (Some referencedColumns)])
               | None => mret (ctx_constraints table)
               end;
             mret (Some (mkColumn name
                           (if isEnum then type else JS.toUpperCase type)
                           nullable defaultValue isPrimaryKey isUnique length
                           (Some isEnum)),
                   constraints)
         end
     end)
    (fun error =>
       _ ← console_error "Error parsing column:" error;
       mret (None, ctx_constraints table)).

Definition parseConstraint (constraintDef : string)
  : M (option SQLConstraint) :=
  tryCatch
    (let upper := JS.toUpperCase constraintDef in
     let foreign : M (option SQLConstraint) :=
       if JS.includes "FOREIGN KEY" upper then
         match exec foreignKeyRe constraintDef with
         | Some fkMatch =>
             cols ← deref "split" (group 1 fkMatch);
             refs ← deref "split" (group 3 fkMatch);
             mret (Some (mkConstraint FOREIGN_KEY
                           (map JS.trim (JS.split comma cols))
                           (group 2 fkMatch)
                           (Some (map JS.trim (JS.split comma refs)))))
         | None => mret None
         end
       else mret None in
     if JS.includes "PRIMARY KEY" upper then
       match exec primaryKeyRe constraintDef with
       | Some columnsMatch =>
           cols ← deref "split" (group 1 columnsMatch);
           mret (Some (mkConstraint PRIMARY_KEY
                         (map JS.trim (JS.split comma cols)) None None))
       | None => foreign
       end
     else foreign)
    (fun error =>
       _ ← console_error "Error parsing constraint:" error;
       mret None).

(** The loop over the parts of a table body. *)
Fixpoint parseParts (tableName : string) (enums : list SQLEnum)
         (parts : list string) (columns : list SQLColumn)
         (constraints : list SQLConstraint)
  : M (list SQLColumn * list SQLConstraint) :=
  match parts with
  | [] => mret (columns, constraints)
  | part :: rest =>
      let trimmed := JS.trim part in
      if isConstraintDefinition trimmed then
        constraint ← parseConstraint trimmed;
        parseParts tableName enums rest columns
          (match constraint with
           | Some c => constraints ++ [c]
           | None => constraints
           end)
      else
        '(column, constraints') ←
          parseColumn trimmed (mkCtx tableName columns constraints) enums;
        parseParts tableName enums rest
          (match column with
           | Some c => columns ++ [c]
           | None => columns
           end)
          constraints'
  end.

Definition parseCreateTable (statement : string) (enums : list SQLEnum)
  : M (option SQLTable) :=
  tryCatch
    (match exec tableNameRe statement with
     | None => mret None
     | Some tableNameMatch =>
         let tableName :=
           JS.defined (JS.orElse (group 1 tableNameMatch)
                                 (group 2 tableNameMatch)) in
         match exec contentRe statement with
         | None => mret None
         | Some contentMatch =>
             content ← deref "length" (group 1 contentMatch);
             let parts := splitByCommas content in
             '(columns, constraints) ← parseParts tableName enums parts [] [];
             mret (Some (mkTable tableName columns constraints))
         end
     end)
    (fun error =>
       _ ← console_error "Error parsing CREATE TABLE statement:" error;
       mret None).

Definition parseCreateEnum (statement : string) : M (option SQLEnum) :=
  tryCatch
    (match exec enumRe statement with
     | None => mret None
     | Some enumMatch =>
         let enumName :=
           JS.defined (JS.orElse (group 1 enumMatch) (group 2 enumMatch)) in
         valuesString ← deref "split" (group 3 enumMatch);
         let values :=
           filter (fun value => 0 < JS.len value)
             (map (fun value =>
                     let trimmed := JS.trim value in
                     if (JS.startsWith "'" trimmed && JS.endsWith "'" trimmed)
                        || (JS.startsWith JS.dq trimmed
                            && JS.endsWith JS.dq trimmed)
                     then JS.stripEnds trimmed
                     else trimmed)
                  (JS.split comma valuesString)) in
         mret (Some (mkEnum enumName values))
     end)
    (fun error =>
       _ ← console_error "Error parsing enum:" error;
       mret None).

(** [foreignKeyTable.constraints.push(constraint)] on the first table
    named [name], the one [tables.find] gives. *)
Fixpoint pushConstraint (name : string) (constraint : SQLConstraint)
         (tables : list SQLTable) : list SQLTable :=
  match tables with
  | [] => []
  | t :: rest =>
      if String.eqb (tbl_name t) name
      then mkTable (tbl_name t) (tbl_columns t)
                   (tbl_constraints t ++ [constraint]) :: rest
      else t :: pushConstraint name constraint rest
  end.

(** The source function returns nothing and changes [tables] in place;
    here it gives the tables after the call. *)
Definition parseAlterTableForeignKey (statement : string)
           (tables : list SQLTable) : M (list SQLTable) :=
  tryCatch
    (match exec alterRe statement with
     | None => mret tables
     | Some fkMatch =>
         let alterTableName := JS.orElse (group 1 fkMatch) (group 2 fkMatch) in
         let foreignKeyColumn := JS.orElse (group 3 fkMatch) (group 4 fkMatch) in
         let referencedTableName :=
           JS.orElse (group 5 fkMatch) (group 6 fkMatch) in
         let referencedColumn := JS.orElse (group 7 fkMatch) (group 8 fkMatch) in
         match alterTableName with
         | Some name =>
             mret (pushConstraint name
                     (mkConstraint FOREIGN_KEY [JS.defined foreignKeyColumn]
                        referencedTableName
                        (Some [JS.defined referencedColumn]))
                     tables)
         | None => mret tables
         end
     end)
    (fun error =>
       _ ← console_error "Error parsing ALTER TABLE FOREIGN KEY:" error;
       mret tables).

(** The three loops of [parseSQL] over the statements. *)
Fixpoint enumPass (statements : list string) (enums : list SQLEnum)
  : M (list SQLEnum) :=
  match statements with
  | [] => mret enums
  | statement :: rest =>
      let trimmed := JS.trim statement in
      let upperTrimmed := JS.toUpperCase trimmed in
      if JS.startsWith "CREATE TYPE" upperTrimmed
         && JS.includes "AS ENUM" upperTrimmed
      then
        enumDef ← parseCreateEnum trimmed;
        enumPass rest (match enumDef with
                       | Some e => enums ++ [e]
                       | None => enums
                       end)
      else enumPass rest enums
  end.

Fixpoint tablePass (statements : list string) (enums : list SQLEnum)
         (tables : list SQLTable) : M (list SQLTable) :=
  match statements with
  | [] => mret tables
  | statement :: rest =>
      let trimmed := JS.trim statement in
      let upperTrimmed := JS.toUpperCase trimmed in
      if JS.startsWith "CREATE TABLE" upperTrimmed then
        table ← parseCreateTable trimmed enums;
        tablePass rest enums (match table with
                              | Some t => tables ++ [t]
                              | None => tables
                              end)
      else tablePass rest enums tables
  end.

Fixpoint alterPass (statements : list string) (tables : list SQLTable)
  : M (list SQLTable) :=
  match statements with
  | [] => mret tables
  | statement :: rest =>
      let trimmed := JS.trim statement in
      let upperTrimmed := JS.toUpperCase trimmed in
      if JS.startsWith "ALTER TABLE" upperTrimmed
         && (JS.includes "ADD FOREIGN KEY" upperTrimmed
             || JS.includes "ADD CONSTRAINT" upperTrimmed)
      then
        tables' ← parseAlterTableForeignKey trimmed tables;
        alterPass rest tables'
      else alterPass rest tables
  end.

Definition cleanSQL (sql : string) : string :=
  JS.trim
    (replaceAll whitespaceRe " "
       (replaceAll blockCommentRe ""
          (replaceAll lineCommentRe "" sql))).

Definition splitStatements (sql : string) : list string :=
  filter (fun stmt => JS.truthy (JS.trim stmt) = true)
         (JS.split ";" (cleanSQL sql)).

Definition parseSQL (sql : string) : M SQLParseResult :=
  let statements := splitStatements sql in
  enums ← enumPass statements [];
  tables ← tablePass statements enums [];
  tables' ← alterPass statements tables;
  mret (mkParseResult tables' enums).

End SQLParser.

(** ** The model generator ([src/services/prisma-generator.ts]) *)

Module PrismaGenerator.
Import Regex.

(** Q stands for the double quote in the comments below. *)

(** [/_id$/i] *)
Definition idSuffixRe : regex := seq [istr "_id"; Eol].
(** [/[aeiou]y$/] *)
Definition vowelYRe : regex :=
  seq [Cls (fun c => existsb (Ascii.eqb c) (list_ascii_of_string "aeiou"));
       chr "y"; Eol].
(** [/^\(|\)$/g] *)
Definition outerParenRe : regex :=
  Alt (seq [Bol; chr "("]) (seq [chr ")"; Eol]).

(** [!isNaN(Number(s))]: [s] is a numeric string literal of ECMAScript,
    white space around an optional number that is decimal (a sign,
    then [Infinity] or digits with a fraction and an exponent) or has a
    radix prefix. *)
Definition numberRe : regex :=
  let digits := plus digit in
  let exponent :=
    opt (seq [ichr "e"; opt (Cls (fun c => Ascii.eqb c "+" || Ascii.eqb c "-"));
              digits]) in
  let decimal :=
    seq [opt (Cls (fun c => Ascii.eqb c "+" || Ascii.eqb c "-"));
         Alt (str "Infinity")
           (Alt (seq [digits; chr "."; Star digit; exponent])
              (Alt (seq [chr "."; digits; exponent])
                 (seq [digits; exponent])))] in
  let radix :=
    Alt (seq [chr "0"; ichr "x";
              plus (Cls (fun c => JS.isDigit c || JS.between 65 70 c
                                  || JS.between 97 102 c))])
      (Alt (seq [chr "0"; ichr "o"; plus (Cls (JS.between 48 55))])
         (seq [chr "0"; ichr "b"; plus (Cls (JS.between 48 49))])) in
  seq [Bol; ws0; opt (Alt decimal radix); ws0; Eol].

Definition isNumeric (s : string) : bool := test numberRe s.

Definition toPascalCase (str : string) : string :=
  JS.concat
    (map (fun word =>
            JS.toUpperCase (JS.charAt0 word)
              +:+ JS.toLowerCase (JS.sliceFrom 1 word))
         (JS.split "_" str)).

Definition toCamelCase (str : string) : string :=
  let pascal := toPascalCase str in
  JS.toLowerCase (JS.charAt0 pascal) +:+ JS.sliceFrom 1 pascal.

Definition convertEnumsToPrismaEnums (enums : list SQLEnum)
  : list PrismaEnum :=
  map (fun enumDef =>
         mkPrismaEnum (toPascalCase (enum_name enumDef)) (enum_values enumDef))
      enums.

Definition formatEnum (enumDef : PrismaEnum) : string :=
  let values :=
    JS.join JS.nl (map (fun value => "  " +:+ value) (penum_values enumDef)) in
  JS.concat ["enum "; penum_name enumDef; " {"; JS.nl; values; JS.nl; "}"].

Definition isRelationField (field : PrismaField) : bool :=
  existsb (JS.includes "@relation") (field_attributes field).

Definition pluralize (word : string) : string :=
  let lower := JS.toLowerCase word in
  if JS.endsWith "s" lower then word
  else if JS.endsWith "sh" lower || JS.endsWith "ch" lower
          || JS.endsWith "x" lower || JS.endsWith "z" lower
  then word +:+ "es"
  else if JS.endsWith "y" lower && negb (test vowelYRe lower)
  then JS.dropLast word +:+ "ies"
  else word +:+ "s".

Definition extractForeignKeyContext (fkColumn : string) : string :=
  let cleaned := replaceFirst idSuffixRe "" fkColumn in
  let parts := filter (fun p => JS.truthy p = true) (JS.split "_" cleaned) in
  if 2 <=? length parts then
    JS.concat [nth (length parts - 2) parts ""; "_";
               nth (length parts - 1) parts ""]
  else
    match parts with
    | p :: _ => p
    | [] => cleaned
    end.

Definition extractRelationFieldName (fkColumn targetTable : string) : string :=
  if String.eqb (JS.toLowerCase fkColumn) "id" then toCamelCase targetTable
  else
    let columnBase := replaceFirst idSuffixRe "" fkColumn in
    if String.eqb (JS.toLowerCase columnBase) (JS.toLowerCase targetTable)
    then toCamelCase targetTable
    else toCamelCase columnBase.

Definition relationCounters : Type := gmap string nat.
Definition fieldCounters : Type := gmap string (gmap string nat).

(** [fkColumn] is [constraint.columns[0]], [undefined] on an empty
    array; the result comes with the counters after the call. *)
Definition generateUniqueRelationName (fromTable toTable : string)
           (fkColumn : option string) (relationCounter : gmap string nat)
  : outcome (string * gmap string nat) :=
  let baseName :=
    JS.concat [toPascalCase fromTable; "To"; toPascalCase toTable] in
  let count := default 0 (relationCounter !! baseName) in
  let relationCounter' := <[baseName := count + 1]> relationCounter in
  if 0 <? count then
    col ← deref' "replace" fkColumn;
    let fkContext := extractForeignKeyContext col in
    mret (JS.concat [baseName; "_"; toPascalCase fkContext], relationCounter')
  else mret (baseName, relationCounter').

Definition generateUniqueFieldName (sourceTable targetTable : string)
           (columns : list string) (_fieldNameCounters : fieldCounters)
           (isBackRelation : bool) : outcome string :=
  let fkColumn := head columns in
  if isBackRelation then mret (pluralize (toCamelCase sourceTable))
  else
    col ← deref' "toLowerCase" fkColumn;
    mret (extractRelationFieldName col targetTable).

Definition isRelationOptional (constraint : SQLConstraint) (table : SQLTable)
  : bool :=
  existsb (fun colName =>
             match find (fun col => String.eqb (col_name col) colName)
                        (tbl_columns table) with
             | Some column => col_nullable column
             | None => false
             end)
          (con_columns constraint).

Definition mapSQLTypeToPrismaType (sqlType : string) (enums : list PrismaEnum)
  : string :=
  let expectedEnumName := toPascalCase sqlType in
  match find (fun enumDef => String.eqb (penum_name enumDef) expectedEnumName)
             enums with
  | Some matchingEnum => penum_name matchingEnum
  | None =>
      let type := JS.toUpperCase sqlType in
      let oneOf (names : list string) := existsb (String.eqb type) names in
      if oneOf ["SERIAL"; "BIGSERIAL"; "INTEGER"; "INT"; "BIGINT"] then "Int"
      else if oneOf ["VARCHAR"; "TEXT"; "CHAR"] then "String"
      else if oneOf ["BOOLEAN"; "BOOL"] then "Boolean"
      else if oneOf ["TIMESTAMP"; "TIMESTAMPTZ"; "DATE"; "TIME"] then "DateTime"
      else if oneOf ["DECIMAL"; "NUMERIC"; "FLOAT"; "DOUBLE"; "REAL"] then "Float"
      else if oneOf ["UUID"] then "String"
      else if oneOf ["JSON"; "JSONB"] then "Json"
      else "String"
  end.

(** The attribute of a default value, for a column that is not the
    primary key. *)
Definition defaultAttribute (defaultValue : string) : string :=
  let upperDefault := JS.toUpperCase defaultValue in
  if String.eqb upperDefault "CURRENT_TIMESTAMP"
     || String.eqb upperDefault "NOW()"
     || String.eqb upperDefault "(NOW())"
  then "@default(now())"
  else if JS.includes "gen_random_uuid" defaultValue
  then JS.concat ["@default(dbgenerated("; JS.dq; "gen_random_uuid()"; JS.dq; "))"]
  else if String.eqb defaultValue "true" || String.eqb defaultValue "false"
  then JS.concat ["@default("; defaultValue; ")"]
  else if isNumeric defaultValue
  then JS.concat ["@default("; defaultValue; ")"]
  else if JS.includes "NOW()" upperDefault
          || JS.includes "CURRENT_TIMESTAMP" upperDefault
  then "@default(now())"
  else if JS.includes "::json" defaultValue
          || JS.includes "::jsonb" defaultValue
  then
    let cleanedValue := replaceAll outerParenRe "" defaultValue in
    JS.concat ["@default(dbgenerated("; JS.dq; cleanedValue; JS.dq; "))"]
  else JS.concat ["@default("; JS.dq; defaultValue; JS.dq; ")"].

Definition convertColumnToField (column : SQLColumn) (_table : SQLTable)
           (enums : list PrismaEnum) : PrismaField :=
  let name := toCamelCase (col_name column) in
  let type :=
    mapSQLTypeToPrismaType (col_type column)
      (if default false (col_isEnum column) then enums else []) in
  let idAttr :=
    if col_isPrimaryKey column then
      if String.eqb (col_type column) "SERIAL"
         || String.eqb (col_type column) "BIGSERIAL"
      then ["@id @default(autoincrement())"]
      else if String.eqb (col_type column) "UUID"
              && match col_defaultValue column with
                 | Some d => JS.includes "gen_random_uuid" d
                 | None => false
                 end
      then [JS.concat ["@id @default(dbgenerated("; JS.dq;
                       "gen_random_uuid()"; JS.dq; "))"]]
      else ["@id"]
    else [] in
  let uniqueAttr :=
    if col_isUnique column && negb (col_isPrimaryKey column)
    then ["@unique"] else [] in
  let defaultAttr :=
    match col_defaultValue column with
    | Some d =>
        if JS.truthy d && negb (col_isPrimaryKey column)
        then [defaultAttribute d] else []
    | None => []
    end in
  let updatedAttr :=
    if JS.includes "TIMESTAMP" (col_type column)
       && JS.includes "updated" (JS.toLowerCase (col_name column))
    then ["@updatedAt"] else [] in
  let mapAttr :=
    if String.eqb (col_name column) name then []
    else [JS.concat ["@map("; JS.dq; col_name column; JS.dq; ")"]] in
  let uuidAttr :=
    if String.eqb (col_type column) "UUID" then ["@db.Uuid"] else [] in
  let jsonAttr :=
    if String.eqb (col_type column) "JSONB" then ["@db.JsonB"]
    else if String.eqb (col_type column) "JSON" then ["@db.Json"]
    else [] in
  mkField name type
    (idAttr ++ uniqueAttr ++ defaultAttr ++ updatedAttr ++ mapAttr
       ++ uuidAttr ++ jsonAttr)
    (col_nullable column && negb (col_isPrimaryKey column))
    false.

Definition createBasicModel (table : SQLTable) (enums : list PrismaEnum)
  : PrismaModel :=
  let modelName := toPascalCase (tbl_name table) in
  let fields :=
    map (fun column => convertColumnToField column table enums)
        (tbl_columns table) in
  let attributes :=
    if String.eqb (tbl_name table) (JS.toLowerCase modelName) then []
    else [JS.concat ["@@map("; JS.dq; tbl_name table; JS.dq; ")"]] in
  mkModel modelName fields attributes.

(** A possibly undefined string is truthy when defined and not empty. *)
Definition truthyOpt (v : option string) : bool :=
  match v with Some x => JS.truthy x | None => false end.

Definition createRelationField (constraint : SQLConstraint) (table : SQLTable)
           (relationName : string) (fieldNameCounters : fieldCounters)
  : outcome (option PrismaField) :=
  match con_referencedTable constraint, con_referencedColumns constraint with
  | Some referencedTable, Some referencedColumns =>
      if negb (JS.truthy referencedTable)
         || (length (con_columns constraint) =? 0)
      then mret None
      else
        let referencedModelName := toPascalCase referencedTable in
        fieldName ← generateUniqueFieldName (tbl_name table) referencedTable
                      (con_columns constraint) fieldNameCounters false;
        let foreignKeyFields := map toCamelCase (con_columns constraint) in
        let referencedFields := map toCamelCase referencedColumns in
        mret (Some (mkField fieldName referencedModelName
                      [JS.concat ["@relation("; JS.dq; relationName; JS.dq;
                                  ", fields: ["; JS.join ", " foreignKeyFields;
                                  "], references: [";
                                  JS.join ", " referencedFields; "])"]]
                      (isRelationOptional constraint table)
                      false))
  | _, _ => mret None
  end.

Definition createBackRelationField (constraint : SQLConstraint)
           (table : SQLTable) (relationName : string)
           (fieldNameCounters : fieldCounters) : option PrismaField :=
  match con_columns constraint with
  | [] => None
  | fkColumn :: _ =>
      if negb (truthyOpt (con_referencedTable constraint)) then None
      else
        let sourceModelName := toPascalCase (tbl_name table) in
        let fkCountToSameTarget :=
          length
            (filter (fun c =>
                       con_type c = FOREIGN_KEY
                       /\ con_referencedTable c = con_referencedTable constraint)
                    (tbl_constraints table)) in
        let baseBackName := pluralize (toCamelCase (tbl_name table)) in
        let needsContext := 1 <? fkCountToSameTarget in
        let fkContext := extractForeignKeyContext fkColumn in
        let fieldName :=
          if needsContext then baseBackName +:+ toPascalCase fkContext
          else baseBackName in
        Some (mkField fieldName sourceModelName
                [JS.concat ["@relation("; JS.dq; relationName; JS.dq; ")"]]
                false true)
  end.

(** [models.find(m => m.name === name)] *)
Definition findModel (name : string) (models : list PrismaModel)
  : option PrismaModel :=
  find (fun m => String.eqb (model_name m) name) models.

(** [model.fields.push(field)] for the model [models.find] gives: the
    first one named [name].  [None] when there is none.  Names never
    change, so the model found before the loop over the constraints is
    the one found here. *)
Fixpoint pushField (name : string) (field : PrismaField)
         (models : list PrismaModel) : option (list PrismaModel) :=
  match models with
  | [] => None
  | m :: rest =>
      if String.eqb (model_name m) name
      then Some (mkModel (model_name m) (model_fields m ++ [field])
                   (model_attributes m) :: rest)
      else (fun rest' => m :: rest') <$> pushField name field rest
  end.

(** The state of the second pass. *)
Record genState : Type := mkGen {
  gen_models : list PrismaModel;
  gen_relationCounter : gmap string nat
}.

(** The body of the loop over the constraints of [table]. *)
Definition addRelation (fieldNameCounters : fieldCounters) (table : SQLTable)
           (constraint : SQLConstraint) (st : genState) : outcome genState :=
  match con_referencedTable constraint with
  | Some referencedTable =>
      if bool_decide (con_type constraint = FOREIGN_KEY)
         && JS.truthy referencedTable
      then
        '(relationName, relationCounter) ←
          generateUniqueRelationName (tbl_name table) referencedTable
            (head (con_columns constraint)) (gen_relationCounter st);
        relationField ←
          createRelationField constraint table relationName fieldNameCounters;
        models1 ←
          match relationField with
          | Some field =>
              deref' "fields"
                (pushField (toPascalCase (tbl_name table)) field
                   (gen_models st))
          | None => mret (gen_models st)
          end;
        let models2 :=
          match createBackRelationField constraint table relationName
                  fieldNameCounters with
          | Some backRelationField =>
              default models1
                (pushField (toPascalCase referencedTable) backRelationField
                   models1)
          | None => models1
          end in
        mret (mkGen models2 relationCounter)
      else mret st
  | None => mret st
  end.

Fixpoint addRelations (fieldNameCounters : fieldCounters) (table : SQLTable)
         (constraints : list SQLConstraint) (st : genState)
  : outcome genState :=
  match constraints with
  | [] => mret st
  | constraint :: rest =>
      st' ← addRelation fieldNameCounters table constraint st;
      addRelations fieldNameCounters table rest st'
  end.

Fixpoint secondPass (fieldNameCounters : fieldCounters)
         (tables : list SQLTable) (st : genState) : outcome genState :=
  match tables with
  | [] => mret st
  | table :: rest =>
      st' ← addRelations fieldNameCounters table (tbl_constraints table) st;
      secondPass fieldNameCounters rest st'
  end.

Definition convertTablesToModels (tables : list SQLTable)
           (enums : list PrismaEnum) : outcome (list PrismaModel) :=
  let relationCounter : gmap string nat := ∅ in
  let fieldNameCounters : fieldCounters := ∅ in
  let models := map (fun table => createBasicModel table enums) tables in
  st ← secondPass fieldNameCounters tables (mkGen models relationCounter);
  mret (gen_models st).

Definition typeText (field : PrismaField) : string :=
  JS.concat [field_type field;
             if field_isOptional field then "?" else "";
             if field_isArray field then "[]" else ""].

Definition formatField (maxFieldLength maxTypeLength : nat)
           (field : PrismaField) : string :=
  let fieldName := JS.padEnd maxFieldLength (field_name field) in
  let fieldType := JS.padEnd maxTypeLength (typeText field) in
  let attributes := JS.join " " (field_attributes field) in
  JS.concat ["  "; fieldName; " "; fieldType;
             if JS.truthy attributes then " " +:+ attributes else "";
             JS.nl].

Definition formatModel (model : PrismaModel) : string :=
  let maxFieldLength :=
    JS.maxOf (map (fun field => JS.len (field_name field)) (model_fields model)) in
  let maxTypeLength :=
    JS.maxOf (map JS.len (map typeText (model_fields model))) in
  let scalarFields :=
    filter (fun field => isRelationField field = false) (model_fields model) in
  let relationFields :=
    filter (fun field => isRelationField field = true) (model_fields model) in
  JS.concat
    [JS.concat ["model "; model_name model; " {"; JS.nl];
     JS.concat (map (formatField maxFieldLength maxTypeLength) scalarFields);
     if 0 <? length relationFields then
       JS.concat [JS.nl; "  // Relations"; JS.nl;
                  JS.concat (map (formatField maxFieldLength maxTypeLength)
                                 relationFields)]
     else "";
     if 0 <? length (model_attributes model) then
       JS.concat [JS.nl;
                  JS.concat (map (fun attribute =>
                                    JS.concat ["  "; attribute; JS.nl])
                                 (model_attributes model))]
     else "";
     "}"].

Definition header : string :=
  JS.concat
    ["// Generated Prisma schema"; JS.nl;
     "generator client {"; JS.nl;
     "  provider = "; JS.dq; "prisma-client-js"; JS.dq; JS.nl;
     "}"; JS.nl;
     JS.nl;
     "datasource db {"; JS.nl;
     "  provider = "; JS.dq; "postgresql"; JS.dq; JS.nl;
     "  url      = env("; JS.dq; "DATABASE_URL"; JS.dq; ")"; JS.nl;
     "}"; JS.nl;
     JS.nl].

Definition generatePrismaSchema (parseResult : SQLParseResult)
  : outcome string :=
  let enums := convertEnumsToPrismaEnums (enums parseResult) in
  models ← convertTablesToModels (tables parseResult) enums;
  let enumsString :=
    if 0 <? length enums
    then JS.join (JS.nl +:+ JS.nl) (map formatEnum enums) +:+ JS.nl +:+ JS.nl
    else "" in
  let modelsString := JS.join (JS.nl +:+ JS.nl) (map formatModel models) in
  mret (JS.concat [header; enumsString; modelsString]).

End PrismaGenerator.

(** ** The pipeline: [generatePrismaSchema(parseSQL(sql))] *)

Definition convert (sql : string) : M string :=
  parseResult ← SQLParser.parseSQL sql;
  liftM (PrismaGenerator.generatePrismaSchema parseResult).

(** The models that [generatePrismaSchema] formats. *)
Definition modelsOf (parseResult : SQLParseResult) : outcome (list PrismaModel) :=
  PrismaGenerator.convertTablesToModels (tables parseResult)
    (PrismaGenerator.convertEnumsToPrismaEnums (enums parseResult)).

(** ** The converter page ([src/pages/converter.tsx])

    The state of the page that [convertSQLToPrisma] sets, with the
    toasts shown so far, and the helper that names the model a table is
    looked up under. *)

Module Converter.
Import Regex.

Inductive ConversionStatus : Type := ready | converting | error.

Record Toast : Type := mkToast {
  toast_title : string;
  toast_description : string;
  toast_variant : string
}.

Record page : Type := mkPage {
  prismaOutput : string;
  conversionStatus : ConversionStatus;
  tablesConverted : nat;
  toasts : list Toast
}.

Definition setPrismaOutput (v : string) (p : page) : page :=
  mkPage v (conversionStatus p) (tablesConverted p) (toasts p).
Definition setConversionStatus (v : ConversionStatus) (p : page) : page :=
  mkPage (prismaOutput p) v (tablesConverted p) (toasts p).
Definition setTablesConverted (v : nat) (p : page) : page :=
  mkPage (prismaOutput p) (conversionStatus p) v (toasts p).
Definition toast (t : Toast) (p : page) : page :=
  mkPage (prismaOutput p) (conversionStatus p) (tablesConverted p)
         (toasts p ++ [t]).

Definition noDefinitions : Toast :=
  mkToast "Conversion Error"
    "No valid table definitions or enums found in SQL" "destructive".

Definition conversionFailed : Toast :=
  mkToast "Conversion Error"
    "An error occurred during conversion. Please check your SQL syntax."
    "destructive".

(** [(s.match(r) || []).length] for a pattern [^r] with the flags [g] and
    [m]: a match starts at the start of the text or after a line
    terminator, and the search goes on where the match ends (one
    character further when the match is empty).  [skip] counts the
    characters of the current match that are still to be passed. *)
Fixpoint countGo (r : regex) (skip pos : nat) (lineStart : bool) (s : string)
  : nat :=
  match skip with
  | S skip' =>
      match s with
      | String c s' => countGo r skip' (S pos) (JS.isLineTerminator c) s'
      | EmptyString => 0
      end
  | 0 =>
      match (if lineStart then matchAt r pos s else None) with
      | None =>
          match s with
          | String c s' => countGo r 0 (S pos) (JS.isLineTerminator c) s'
          | EmptyString => 0
          end
      | Some st =>
          S match s with
            | String c s' =>
                countGo r (m_pos st - pos - 1) (S pos) (JS.isLineTerminator c) s'
            | EmptyString => 0
            end
      end
  end.

Definition countLines (r : regex) (s : string) : nat := countGo r 0 0 true s.

(** [/^model\s+\w+/gm] and [/^enum\s+\w+/gm], without the [^]. *)
Definition modelLineRe : regex := seq [str "model"; ws1; plus word].
Definition enumLineRe : regex := seq [str "enum"; ws1; plus word].

(** The handler of the [try] block. *)
Definition conversionError (e : string) (p : page) (w : console)
  : page * console :=
  (toast conversionFailed (setConversionStatus error p),
   snd (console_error "Conversion error:" e w)).

Definition convertSQLToPrisma (sql : string) (p : page) (w : console)
  : page * console :=
  if negb (JS.truthy (JS.trim sql)) then
    (setConversionStatus ready (setTablesConverted 0 (setPrismaOutput "" p)), w)
  else
    let p1 := setConversionStatus converting p in
    match SQLParser.parseSQL sql w with
    | (Throw e, w1) => conversionError e p1 w1
    | (Ret parseResult, w1) =>
        if (length (tables parseResult) =? 0)
           && (length (enums parseResult) =? 0)
        then (toast noDefinitions (setConversionStatus error p1), w1)
        else
          match PrismaGenerator.generatePrismaSchema parseResult with
          | Throw e => conversionError e p1 w1
          | Ret prismaSchema =>
              let p2 := setConversionStatus ready
                          (setPrismaOutput prismaSchema p1) in
              let modelCount := countLines modelLineRe prismaSchema in
              let enumCount := countLines enumLineRe prismaSchema in
              (setTablesConverted (modelCount + enumCount) p2, w1)
          end
    end.

(** Q stands for the double quote: [/[Q`']/g] *)
Definition quoteRe : regex :=
  Cls (fun c => Ascii.eqb c JS.dquote || Ascii.eqb c "`" || Ascii.eqb c "'").

(** [/(_status|_type|_state|_category|_level|_role|_kind)$/i] *)
Definition enumSuffixRe : regex :=
  seq [Grp 1 (Alt (istr "_status")
               (Alt (istr "_type")
                 (Alt (istr "_state")
                   (Alt (istr "_category")
                     (Alt (istr "_level")
                       (Alt (istr "_role") (istr "_kind")))))));
       Eol].

(** [/^(status|type|state|category|level|role|kind)/i] *)
Definition enumPrefixRe : regex :=
  seq [Bol;
       Grp 1 (Alt (istr "status")
               (Alt (istr "type")
                 (Alt (istr "state")
                   (Alt (istr "category")
                     (Alt (istr "level")
                       (Alt (istr "role") (istr "kind")))))))].

Definition isLikelyEnum (cleanName : string) : bool :=
  test enumSuffixRe cleanName || test enumPrefixRe cleanName.

Definition sqlToPrismaName (sqlName : string) : string :=
  let cleanName := replaceAll quoteRe "" sqlName in
  let result :=
    JS.concat
      (map (fun word =>
              JS.toUpperCase (JS.charAt0 word)
                +:+ JS.toLowerCase (JS.sliceFrom 1 word))
           (JS.split "_" cleanName)) in
  if negb (isLikelyEnum cleanName) then
    if JS.endsWith "ies" result
    then JS.take (JS.len result - 3) result +:+ "y"
    else if JS.endsWith "es" result && negb (JS.endsWith "ses" result)
    then JS.take (JS.len result - 2) result
    else if JS.endsWith "s" result && negb (JS.endsWith "ss" result)
    then JS.take (JS.len result - 1) result
    else result
  else result.

End Converter.

(** ** Definitions of the statements *)

(** [writes m o l]: whatever the console, [m] has the outcome [o] and
    appends the lines [l].  Every function of the parser is of this kind:
    the console is written, never read. *)

Definition writes {A} (m : M A) (o : outcome A) (l : list string) : Prop :=
  forall w, m w = (o, w ++ l).

(** The outcome does not depend on the console. *)
Definition oblivious {A} (m : M A) : Prop := exists o l, writes m o l.

(** Moreover the computation returns. *)
Definition safe {A} (m : M A) : Prop := exists a l, writes m (Ret a) l.

(** The value of a computation that gives an object or [null], on the
    empty console; [None] also when it throws. *)
Definition valueOf {A} (m : M (option A)) : option A :=
  match fst (m []) with
  | Ret o => o
  | Throw _ => None
  end.

(** The table that the second loop of [parseSQL] pushes for a statement. *)
Definition tableOf (enums : list SQLEnum) (statement : string) : option SQLTable :=
  let trimmed := JS.trim statement in
  if JS.startsWith "CREATE TABLE" (JS.toUpperCase trimmed)
  then valueOf (SQLParser.parseCreateTable trimmed enums)
  else None.

(** The enum that the first loop of [parseSQL] pushes for a statement. *)
Definition enumOf (statement : string) : option SQLEnum :=
  let trimmed := JS.trim statement in
  let upperTrimmed := JS.toUpperCase trimmed in
  if JS.startsWith "CREATE TYPE" upperTrimmed
     && JS.includes "AS ENUM" upperTrimmed
  then valueOf (SQLParser.parseCreateEnum trimmed)
  else None.

(** [t'] is [t] with constraints pushed on it. *)
Definition extends (t t' : SQLTable) : Prop :=
  tbl_name t' = tbl_name t
  /\ tbl_columns t' = tbl_columns t
  /\ tbl_constraints t `prefix_of` tbl_constraints t'.

(** The input of the malformed statement scenario: the first statement
    lacks its closing parenthesis. *)
Definition brokenThenGood : string :=
  "CREATE TABLE broken (id INTEGER; CREATE TABLE users (id SERIAL PRIMARY KEY);".

Definition usersPosts : string :=
  "CREATE TABLE users (id SERIAL PRIMARY KEY); CREATE TABLE posts (id SERIAL PRIMARY KEY);".

Definition threeReviewers : string :=
  "CREATE TABLE users (id SERIAL PRIMARY KEY); CREATE TABLE reviews (id SERIAL PRIMARY KEY, first_review_user_id INTEGER REFERENCES users(id), second_review_user_id INTEGER REFERENCES users(id), third_review_user_id INTEGER REFERENCES users(id));".

Definition scenario : string :=
  "CREATE TABLE users (id SERIAL PRIMARY KEY, email VARCHAR(255) UNIQUE NOT NULL); CREATE TABLE posts (id SERIAL PRIMARY KEY, author_id INTEGER REFERENCES users(id));".

Definition capitalReference : string :=
  "CREATE TABLE posts (id SERIAL PRIMARY KEY, author_id INTEGER REFERENCES Users(id)); CREATE TABLE users (id SERIAL PRIMARY KEY);".

Definition foreignKeyClause : string :=
  "FOREIGN KEY (user_id) REFERENCES users(id)".

Definition tableLevelForeignKey : string :=
  "CREATE TABLE posts (id SERIAL PRIMARY KEY, user_id INTEGER, FOREIGN KEY (user_id) REFERENCES users(id));".

(** [binds i r]: the pattern [r] has a capture group number [i]. *)
Fixpoint binds (i : nat) (r : Regex.regex) : bool :=
  match r with
  | Regex.Grp j r1 => (i =? j) || binds i r1
  | Regex.Cat r1 r2 | Regex.Alt r1 r2 => binds i r1 || binds i r2
  | Regex.Star r1 | Regex.LazyStar r1 => binds i r1
  | _ => false
  end.

(** The continuation [k] leaves group [i] as it is. *)
Definition preserves (i : nat) (k : Regex.mstate -> option Regex.mstate) : Prop :=
  forall st st',
    k st = Some st' ->
    Regex.lookup i (Regex.m_caps st') = Regex.lookup i (Regex.m_caps st).

(** Every match of [r] from a state without the groups [i] and [j] ends
    with one of them defined and not empty: [m[i] || m[j]] is a string
    that is not empty. *)
Definition captures (i j : nat) (r : Regex.regex) : Prop :=
  forall k st st',
    preserves i k -> preserves j k ->
    Regex.lookup i (Regex.m_caps st) = None ->
    Regex.lookup j (Regex.m_caps st) = None ->
    Regex.run r k st = Some st' ->
    exists v,
      v <> ""
      /\ JS.orElse (Regex.lookup i (Regex.m_caps st'))
                   (Regex.lookup j (Regex.m_caps st')) = Some v.

(** What the second pass leaves alone in a model. *)
Definition shape (m : PrismaModel) : string * list string :=
  (model_name m, model_attributes m).

(** The name-mapping attribute of the table named [name]. *)
Definition tableMapAttribute (name : string) : string :=
  JS.concat ["@@map("; JS.dq; name; JS.dq; ")"].

(** The forward field that [createRelationField] builds. *)
Definition forwardField (constraint : SQLConstraint) (table : SQLTable)
           (relationName referencedTable fkColumn : string)
           (referencedColumns : list string) : PrismaField :=
  mkField (PrismaGenerator.extractRelationFieldName fkColumn referencedTable)
    (PrismaGenerator.toPascalCase referencedTable)
    [JS.concat ["@relation("; JS.dq; relationName; JS.dq; ", fields: [";
                JS.join ", " (map PrismaGenerator.toCamelCase
                                  (con_columns constraint));
                "], references: [";
                JS.join ", " (map PrismaGenerator.toCamelCase referencedColumns);
                "])"]]
    (PrismaGenerator.isRelationOptional constraint table)
    false.

(** The exceptions of the second pass that do not come from the lookup
    of a model: a constraint without columns whose first column is
    read. *)
Definition fromColumns (e : string) : Prop :=
  e = TypeError "replace" \/ e = TypeError "toLowerCase".

(** Every match of [r] ends with the group [i] defined and not empty. *)
Definition captures1 (i : nat) (r : Regex.regex) : Prop :=
  forall k st st',
    preserves i k ->
    Regex.run r k st = Some st' ->
    exists v, v <> "" /\ Regex.lookup i (Regex.m_caps st') = Some v.

(** A constraint as the generator expects it: it has a column, and a
    FOREIGN KEY has a referenced table, not empty, and referenced
    columns. *)
Definition complete (c : SQLConstraint) : Prop :=
  con_columns c <> []
  /\ (con_type c = FOREIGN_KEY ->
      (exists r, con_referencedTable c = Some r /\ r <> "")
      /\ exists refs, con_referencedColumns c = Some refs).

(** Every constraint of the table is complete. *)
Definition tableComplete (t : SQLTable) : Prop :=
  Forall complete (tbl_constraints t).

(** Whenever [m] returns, its value satisfies [P]. *)
Definition yields {A} (m : M A) (P : A -> Prop) : Prop :=
  forall w a w', m w = (Ret a, w') -> P a.

(** [c] occurs in [s]. *)
Fixpoint hasChar (c : ascii) (s : string) : bool :=
  match s with
  | EmptyString => false
  | String a s' => Ascii.eqb c a || hasChar c s'
  end.

(** The callback of [toPascalCase] on one word. *)
Definition capitalize (word : string) : string :=
  JS.toUpperCase (JS.charAt0 word) +:+ JS.toLowerCase (JS.sliceFrom 1 word).

(** The two forms of a constraint that the parser builds: a PRIMARY KEY
    with its columns and nothing else, and a FOREIGN KEY with its
    columns, a referenced table that is not empty, and referenced
    columns. *)
Definition parsedConstraint (c : SQLConstraint) : Prop :=
  con_columns c <> []
  /\ match con_type c with
     | PRIMARY_KEY =>
         con_referencedTable c = None /\ con_referencedColumns c = None
     | FOREIGN_KEY =>
         (exists r, con_referencedTable c = Some r /\ r <> "")
         /\ exists refs, con_referencedColumns c = Some refs /\ refs <> []
     | UNIQUE | CHECK => False
     end.

(** The flags of a column that the parser builds: a primary key is
    unique and not nullable, [isEnum] is set, and the type is in upper
    case unless it names an enum. *)
Definition parsedColumn (c : SQLColumn) : Prop :=
  (col_isPrimaryKey c = true -> col_isUnique c = true /\ col_nullable c = false)
  /\ exists isEnum,
       col_isEnum c = Some isEnum
       /\ (isEnum = false -> JS.toUpperCase (col_type c) = col_type c).

Definition parsedTable (t : SQLTable) : Prop :=
  tbl_name t <> ""
  /\ Forall parsedColumn (tbl_columns t)
  /\ Forall parsedConstraint (tbl_constraints t).

Definition parsedEnum (e : SQLEnum) : Prop :=
  enum_name e <> "" /\ Forall (fun value => value <> "") (enum_values e).

(** A field as the second pass pushes it: [isRelationField] recognizes
    it, and its name has no underscore. *)
Definition pushedField (f : PrismaField) : Prop :=
  PrismaGenerator.isRelationField f = true
  /\ hasChar "_" (field_name f) = false.

(** [m'] is [m] with such fields pushed on it. *)
Definition appended (m m' : PrismaModel) : Prop :=
  model_name m' = model_name m
  /\ model_attributes m' = model_attributes m
  /\ exists relations,
      model_fields m' = model_fields m ++ relations
      /\ Forall pushedField relations.

(** Every character of [s] satisfies [p]. *)
Fixpoint allChars (p : ascii -> bool) (s : string) : bool :=
  match s with
  | EmptyString => true
  | String c s' => p c && allChars p s'
  end.

(** Every code unit of [s] is in ASCII, where the case conversions and
    the white space of the model are those of JavaScript. *)
Definition isASCII (s : string) : bool :=
  allChars (fun c => JS.code c <? 128) s.

(** The pieces without the last one when it is empty: the loop of
    [splitByCommas] pushes every piece that a comma ends, and the last
    piece only when it is not blank. *)
Fixpoint withoutEmptyLast (pieces : list string) : list string :=
  match pieces with
  | [] => []
  | [piece] => if JS.truthy piece then [piece] else []
  | piece :: rest => piece :: withoutEmptyLast rest
  end.

(** Every white-space character of [s] is a blank, and no white space
    follows it. *)
Fixpoint singleBlanks (s : string) : bool :=
  match s with
  | EmptyString => true
  | String c s' =>
      (if JS.isSpace c
       then Ascii.eqb c " "
            && match s' with
               | String d _ => negb (JS.isSpace d)
               | EmptyString => true
               end
       else true)
      && singleBlanks s'
  end.

(** The first character is not white space. *)
Definition solidHead (s : string) : Prop :=
  match s with String c _ => JS.isSpace c = false | EmptyString => True end.

(** ** The embedding on the examples of the documentation *)

Example pluralize_examples :
  map PrismaGenerator.pluralize ["category"; "box"; "post"; "day"; "posts"; "bush"]
  = ["categories"; "boxes"; "posts"; "days"; "posts"; "bushes"].
Proof. vm_compute. reflexivity. Qed.

Example toPascalCase_examples :
  map PrismaGenerator.toPascalCase ["users"; "user_accounts"; "ORDER_items"; "_users"]
  = ["Users"; "UserAccounts"; "OrderItems"; "Users"].
Proof. vm_compute. reflexivity. Qed.

Example extractForeignKeyContext_examples :
  map PrismaGenerator.extractForeignKeyContext
      ["author_id"; "created_by"; "ticket_assigned_to_id"; "id"]
  = ["author"; "created_by"; "assigned_to"; "id"].
Proof. vm_compute. reflexivity. Qed.

Example splitByCommas_example :
  SQLParser.splitByCommas "id SERIAL, price NUMERIC(10, 2), FOREIGN KEY (a, b) REFERENCES t(x, y)"
  = ["id SERIAL"; "price NUMERIC(10, 2)"; "FOREIGN KEY (a, b) REFERENCES t(x, y)"].
Proof. vm_compute. reflexivity. Qed.

Example created_at_example :
  exists column constraints,
    fst (SQLParser.parseColumn "created_at TIMESTAMP DEFAULT CURRENT_TIMESTAMP"
           (SQLParser.mkCtx "t" [] []) [] [])
    = Ret (Some column, constraints)
    /\ PrismaGenerator.convertColumnToField column (mkTable "t" [] []) []
       = mkField "createdAt" "DateTime"
           ["@default(now())";
            JS.concat ["@map("; JS.dq; "created_at"; JS.dq; ")"]]
           true false.
Proof. eexists _, _. split; vm_compute; reflexivity. Qed.

Example enum_example :
  exists parseResult accounts,
    fst (SQLParser.parseSQL
           "CREATE TYPE status AS ENUM ('ACTIVE','INACTIVE'); CREATE TABLE accounts (id SERIAL PRIMARY KEY, status STATUS);"
           [])
    = Ret parseResult
    /\ enums parseResult = [mkEnum "status" ["ACTIVE"; "INACTIVE"]]
    /\ modelsOf parseResult = Ret [accounts]
    /\ map (fun f => (field_name f, field_type f)) (model_fields accounts)
       = [("id", "Int"); ("status", "Status")].
Proof.
  eexists _, _. split; [vm_compute; reflexivity|].
  split; [reflexivity|]. split; [vm_compute; reflexivity|]. reflexivity.
Qed.

(** * Properties *)

(** ** Capture groups

    A successful run of a pattern ends in a call of its continuation,
    further on in the text, with the groups that the pattern does not
    have unchanged. *)

Module CaptureFacts.
Import Regex.

Lemma run_through r :
  forall k st st',
    run r k st = Some st' ->
    exists st1,
      k st1 = Some st'
      /\ m_pos st <= m_pos st1
      /\ (forall i, binds i r = false ->
                    lookup i (m_caps st1) = lookup i (m_caps st)).
Proof.
  induction r as [|p|r1 IH1 r2 IH2|r1 IH1 r2 IH2|r1 IH1|r1 IH1|j r1 IH1| | |];
    intros k st st' H; cbn [run] in H.
  - exists st. auto.
  - destruct (m_rest st) as [|c s'] eqn:E; [discriminate|].
    destruct (p c); [|discriminate].
    eexists. split; [exact H|]. cbn. split; [lia|auto].
  - apply IH1 in H as (st1 & H & Hp & Hc).
    apply IH2 in H as (st2 & H & Hp' & Hc').
    exists st2. split; [exact H|]. split; [lia|].
    intros i Hb. cbn [binds] in Hb. apply orb_false_iff in Hb as [Hb1 Hb2].
    rewrite Hc', Hc; auto.
  - destruct (run r1 k st) as [x|] eqn:E.
    + inversion H; subst. apply IH1 in E as (st1 & E & Hp & Hc).
      exists st1. split; [exact E|]. split; [exact Hp|].
      intros i Hb. cbn [binds] in Hb. apply orb_false_iff in Hb as [Hb1 Hb2]. auto.
    + apply IH2 in H as (st1 & E' & Hp & Hc).
      exists st1. split; [exact E'|]. split; [exact Hp|].
      intros i Hb. cbn [binds] in Hb. apply orb_false_iff in Hb as [Hb1 Hb2]. auto.
  - revert H. generalize (String.length (m_rest st)). intros fuel.
    revert st. induction fuel as [|fuel IHf]; intros st H.
    + exists st. auto.
    + match type of H with
      | match ?a with _ => _ end = _ => destruct a as [x|] eqn:E
      end.
      * inversion H; subst. apply IH1 in E as (st1 & E & Hp & Hc).
        destruct (m_pos st <? m_pos st1); [|discriminate].
        apply IHf in E as (st2 & E & Hp' & Hc').
        exists st2. split; [exact E|]. split; [lia|].
        intros i Hb. cbn [binds] in Hb. rewrite Hc', Hc; auto.
      * exists st. auto.
  - revert H. generalize (String.length (m_rest st)). intros fuel.
    revert st. induction fuel as [|fuel IHf]; intros st H.
    + exists st. auto.
    + destruct (k st) as [x|] eqn:Ek.
      * inversion H; subst. exists st. auto.
      * apply IH1 in H as (st1 & E & Hp & Hc).
        destruct (m_pos st <? m_pos st1); [|discriminate].
        apply IHf in E as (st2 & E & Hp' & Hc').
        exists st2. split; [exact E|]. split; [lia|].
        intros i Hb. cbn [binds] in Hb. rewrite Hc', Hc; auto.
  - apply IH1 in H as (st1 & H & Hp & Hc).
    eexists. split; [exact H|]. cbn [m_pos m_caps]. split; [exact Hp|].
    intros i Hb. cbn [binds] in Hb. apply orb_false_iff in Hb as [Hb1 Hb2].
    cbn [lookup]. rewrite Hb1. auto.
  - destruct (m_pos st =? 0); [|discriminate]. exists st. auto.
  - destruct (m_rest st); [|discriminate]. exists st. auto.
  - destruct (m_rest st) as [|c s'].
    + exists st. auto.
    + destruct (JS.isLineTerminator c); [|discriminate]. exists st. auto.
Qed.

Lemma run_preserves i r k :
  binds i r = false -> preserves i k -> preserves i (run r k).
Proof.
  intros Hb Hk st st' H.
  apply run_through in H as (st1 & H & _ & Hc).
  rewrite (Hk _ _ H). auto.
Qed.

Lemma preserves_Some i : preserves i Some.
Proof. intros st st' H. by inversion H. Qed.

Lemma take_pos_nonempty n c s : 0 < n -> JS.take n (String c s) <> "".
Proof. destruct n; [lia|]. discriminate. Qed.

(** A group around [[...]+] is set to a string that is not empty. *)
Lemma run_Grp_plus i p k st st' :
  preserves i k ->
  run (Grp i (plus (Cls p))) k st = Some st' ->
  exists v, v <> "" /\ lookup i (m_caps st') = Some v.
Proof.
  intros Hk H. unfold plus in H. cbn [run] in H.
  destruct (m_rest st) as [|c s'] eqn:E; [discriminate|].
  destruct (p c); [|discriminate].
  revert H.
  generalize (String.length
                (m_rest {| m_pos := S (m_pos st); m_rest := s'; m_caps := m_caps st |})).
  intros fuel H.
  assert (exists s1,
             k (MState (m_pos s1) (m_rest s1)
                  ((i, JS.take (m_pos s1 - m_pos st) (String c s')) :: m_caps s1))
             = Some st'
             /\ S (m_pos st) <= m_pos s1) as (s1 & Hs1 & Hp).
  { set (st0 := {| m_pos := S (m_pos st); m_rest := s'; m_caps := m_caps st |}) in *.
    assert (S (m_pos st) <= m_pos st0) as Hp0 by (cbn; lia).
    clearbody st0. revert st0 Hp0 H.
    induction fuel as [|fuel IHf]; intros st0 Hp0 H.
    - exists st0. split; [exact H | exact Hp0].
    - cbn [run] in H.
      destruct (m_rest st0) as [|c0 s0] eqn:E0.
      + exists st0. rewrite E0. split; [exact H | exact Hp0].
      + destruct (p c0).
        * cbn [m_pos] in H.
          replace (m_pos st0 <? S (m_pos st0)) with true in H
            by (symmetry; apply Nat.ltb_lt; lia).
          match type of H with
          | match ?a with _ => _ end = _ => destruct a as [x|] eqn:Ea
          end.
          -- inversion H; subst. apply IHf in Ea; [exact Ea | cbn; lia].
          -- exists st0. rewrite E0. split; [exact H | exact Hp0].
        * exists st0. rewrite E0. split; [exact H | exact Hp0]. }
  exists (JS.take (m_pos s1 - m_pos st) (String c s')).
  split; [apply take_pos_nonempty; lia|].
  rewrite (Hk _ _ Hs1). cbn [m_caps lookup]. by rewrite Nat.eqb_refl.
Qed.

Lemma orElse_nonempty v b : v <> "" -> JS.orElse (Some v) b = Some v.
Proof. destruct v; [contradiction | reflexivity]. Qed.

Lemma run_Cat r1 r2 k st : run (Cat r1 r2) k st = run r1 (run r2 k) st.
Proof. reflexivity. Qed.

Lemma run_Alt r1 r2 k st :
  run (Alt r1 r2) k st
  = match run r1 k st with Some x => Some x | None => run r2 k st end.
Proof. reflexivity. Qed.

Lemma captures_ident i j : i <> j -> captures i j (SQLParser.ident i j).
Proof.
  intros Hij k st st' Hki Hkj Hi Hj H.
  unfold SQLParser.ident in H. cbn [seq] in H. rewrite run_Alt in H.
  destruct (run (Cat (chr JS.dquote)
                   (Cat (Grp i (plus (notChr JS.dquote))) (chr JS.dquote)))
              k st) as [x|] eqn:Ea.
  - inversion H; subst. clear H. rewrite run_Cat in Ea.
    apply run_through in Ea as (st1 & Ea & _ & _). rewrite run_Cat in Ea.
    destruct (run_Grp_plus i (fun x => negb (Ascii.eqb JS.dquote x))
                (run (chr JS.dquote) k) st1 st') as (v & Hv & Hl).
    + apply run_preserves; [reflexivity | exact Hki].
    + exact Ea.
    + exists v. split; [exact Hv|]. rewrite Hl. by apply orElse_nonempty.
  - destruct (run_Grp_plus j JS.isWord k st st' Hkj H) as (v & Hv & Hl).
    exists v. split; [exact Hv|].
    assert (lookup i (m_caps st') = None) as ->.
    { rewrite <- Hi.
      apply (run_preserves i (Grp j (plus word)) k); [|exact Hki|exact H].
      cbn [binds plus word]. apply Nat.eqb_neq in Hij. by rewrite Hij. }
    cbn [JS.orElse]. exact Hl.
Qed.

Lemma captures_Cat_l i j r1 r2 :
  captures i j r1 -> binds i r2 = false -> binds j r2 = false ->
  captures i j (Cat r1 r2).
Proof.
  intros Hc Hb1 Hb2 k st st' Hki Hkj Hi Hj H. cbn [run] in H.
  apply (Hc (run r2 k) st st'); auto using run_preserves.
Qed.

Lemma captures_Cat_r i j r1 r2 :
  binds i r1 = false -> binds j r1 = false -> captures i j r2 ->
  captures i j (Cat r1 r2).
Proof.
  intros Hb1 Hb2 Hc k st st' Hki Hkj Hi Hj H. cbn [run] in H.
  apply run_through in H as (st1 & H & _ & Hl).
  apply (Hc k st1 st'); auto.
  - by rewrite Hl.
  - by rewrite Hl.
Qed.

Lemma exec_captures i j r s m :
  captures i j r -> exec r s = Some m ->
  exists v, v <> "" /\ JS.orElse (group i m) (group j m) = Some v.
Proof.
  intros Hc. unfold exec. generalize 0 as pos. revert m.
  induction s as [|c s IH]; intros m pos H; cbn [searchFrom] in H.
  - destruct (matchAt r pos "") as [st|] eqn:E; [|discriminate].
    inversion H; subst. unfold group. cbn [r_caps].
    apply (Hc Some (MState pos "" []) st); auto using preserves_Some.
  - destruct (matchAt r pos (String c s)) as [st|] eqn:E.
    + inversion H; subst. unfold group. cbn [r_caps].
      apply (Hc Some (MState pos (String c s) []) st); auto using preserves_Some.
    + by eapply IH.
Qed.

Ltac solve_captures :=
  repeat first
    [ apply captures_ident; discriminate
    | apply captures_Cat_r; [reflexivity | reflexivity |]
    | apply captures_Cat_l; [| reflexivity | reflexivity] ].

Lemma tableNameRe_captures : captures 1 2 SQLParser.tableNameRe.
Proof. unfold SQLParser.tableNameRe. cbn [seq]. solve_captures. Qed.

Lemma enumRe_captures : captures 1 2 SQLParser.enumRe.
Proof. unfold SQLParser.enumRe. cbn [seq]. solve_captures. Qed.

Lemma alterRe_captures :
  captures 1 2 SQLParser.alterRe /\ captures 3 4 SQLParser.alterRe
  /\ captures 5 6 SQLParser.alterRe /\ captures 7 8 SQLParser.alterRe.
Proof. unfold SQLParser.alterRe. cbn [seq]. repeat split; solve_captures. Qed.

Lemma captures1_Grp_plus i p : captures1 i (Grp i (plus (Cls p))).
Proof. intros k st st' Hk H. by eapply run_Grp_plus. Qed.

Lemma captures1_Cat_l i r1 r2 :
  captures1 i r1 -> binds i r2 = false -> captures1 i (Cat r1 r2).
Proof.
  intros Hc Hb k st st' Hk H. rewrite run_Cat in H.
  apply (Hc (run r2 k) st st'); auto using run_preserves.
Qed.

Lemma captures1_Cat_r i r1 r2 : captures1 i r2 -> captures1 i (Cat r1 r2).
Proof.
  intros Hc k st st' Hk H. rewrite run_Cat in H.
  apply run_through in H as (st1 & H & _ & _).
  by apply (Hc k st1 st').
Qed.

Lemma exec_captures1 i r s m :
  captures1 i r -> exec r s = Some m ->
  exists v, v <> "" /\ group i m = Some v.
Proof.
  intros Hc. unfold exec. generalize 0 as pos. revert m.
  induction s as [|c s IH]; intros m pos H; cbn [searchFrom] in H.
  - destruct (matchAt r pos "") as [st|] eqn:E; [|discriminate].
    inversion H; subst. unfold group. cbn [r_caps].
    apply (Hc Some (MState pos "" []) st); auto using preserves_Some.
  - destruct (matchAt r pos (String c s)) as [st|] eqn:E.
    + inversion H; subst. unfold group. cbn [r_caps].
      apply (Hc Some (MState pos (String c s) []) st); auto using preserves_Some.
    + by eapply IH.
Qed.

Lemma referencesRe_captures : captures 1 2 SQLParser.referencesRe.
Proof.
  unfold SQLParser.referencesRe, SQLParser.parenList. cbn [seq]. solve_captures.
Qed.

Lemma foreignKeyRe_captures : captures1 2 SQLParser.foreignKeyRe.
Proof.
  unfold SQLParser.foreignKeyRe, SQLParser.parenList. cbn [seq].
  do 7 apply captures1_Cat_r.
  apply captures1_Cat_l; [apply captures1_Grp_plus | reflexivity].
Qed.

(** The identifiers that the parser reads as [m[i] || m[j]] are defined
    and not empty, so [JS.defined] is never given [undefined]. *)
Lemma tableName_defined statement m :
  exec SQLParser.tableNameRe statement = Some m ->
  exists v, v <> "" /\ JS.orElse (group 1 m) (group 2 m) = Some v.
Proof. apply exec_captures, tableNameRe_captures. Qed.

Lemma enumName_defined statement m :
  exec SQLParser.enumRe statement = Some m ->
  exists v, v <> "" /\ JS.orElse (group 1 m) (group 2 m) = Some v.
Proof. apply exec_captures, enumRe_captures. Qed.

Lemma alterNames_defined statement m :
  exec SQLParser.alterRe statement = Some m ->
  (exists v, v <> "" /\ JS.orElse (group 1 m) (group 2 m) = Some v)
  /\ (exists v, v <> "" /\ JS.orElse (group 3 m) (group 4 m) = Some v)
  /\ (exists v, v <> "" /\ JS.orElse (group 5 m) (group 6 m) = Some v)
  /\ (exists v, v <> "" /\ JS.orElse (group 7 m) (group 8 m) = Some v).
Proof.
  intros H. destruct alterRe_captures as (H12 & H34 & H56 & H78).
  repeat split; eapply exec_captures; eassumption.
Qed.

End CaptureFacts.

(** ** Computations that only write to the console *)

Section Console.
Context {A : Type}.

Lemma safe_oblivious (m : M A) : safe m -> oblivious m.
Proof. intros (a & l & H). exists (Ret a), l. exact H. Qed.

Lemma oblivious_fst (m : M A) w1 w2 : oblivious m -> fst (m w1) = fst (m w2).
Proof. intros (o & l & H). rewrite (H w1), (H w2). reflexivity. Qed.

Lemma safe_mret (a : A) : safe (mret a).
Proof. exists a, []. intros w. cbv [mret M_ret ret]. by rewrite app_nil_r. Qed.

Lemma oblivious_mret (a : A) : oblivious (mret a).
Proof. apply safe_oblivious, safe_mret. Qed.

Lemma oblivious_throw e : oblivious (throw (A:=A) e).
Proof. exists (Throw e), []. intros w. cbv [throw]. by rewrite app_nil_r. Qed.

Lemma oblivious_deref what (v : option A) : oblivious (deref what v).
Proof. destruct v; [apply oblivious_mret | apply oblivious_throw]. Qed.

Lemma oblivious_liftM (o : outcome A) : oblivious (liftM o).
Proof. exists o, []. intros w. cbv [liftM]. by rewrite app_nil_r. Qed.

Lemma oblivious_tryCatch (m : M A) h :
  oblivious m -> (forall e, oblivious (h e)) -> oblivious (tryCatch m h).
Proof.
  intros (o & l & Hm) Hh. destruct o as [a|e].
  - exists (Ret a), l. intros w. unfold tryCatch. by rewrite Hm.
  - destruct (Hh e) as (o' & l' & He). exists o', (l ++ l').
    intros w. unfold tryCatch. by rewrite Hm, He, app_assoc.
Qed.

Lemma safe_tryCatch (m : M A) h :
  oblivious m -> (forall e, safe (h e)) -> safe (tryCatch m h).
Proof.
  intros (o & l & Hm) Hh. destruct o as [a|e].
  - exists a, l. intros w. unfold tryCatch. by rewrite Hm.
  - destruct (Hh e) as (a' & l' & He). exists a', (l ++ l').
    intros w. unfold tryCatch. by rewrite Hm, He, app_assoc.
Qed.
End Console.

Lemma oblivious_console_error msg e : oblivious (console_error msg e).
Proof. exists (Ret tt), [msg +:+ " " +:+ e]. intros w. reflexivity. Qed.

Lemma safe_console_error msg e : safe (console_error msg e).
Proof. exists tt, [msg +:+ " " +:+ e]. intros w. reflexivity. Qed.

Lemma oblivious_mbind {A B} (m : M A) (f : A -> M B) :
  oblivious m -> (forall a, oblivious (f a)) -> oblivious (mbind f m).
Proof.
  intros (o & l & Hm) Hf. destruct o as [a|e].
  - destruct (Hf a) as (o' & l' & Ha). exists o', (l ++ l').
    intros w. cbv [mbind M_bind bind]. by rewrite Hm, Ha, app_assoc.
  - exists (Throw e), l. intros w. cbv [mbind M_bind bind]. by rewrite Hm.
Qed.

Lemma safe_mbind {A B} (m : M A) (f : A -> M B) :
  safe m -> (forall a, safe (f a)) -> safe (mbind f m).
Proof.
  intros (a & l & Hm) Hf. destruct (Hf a) as (b & l' & Ha).
  exists b, (l ++ l'). intros w. cbv [mbind M_bind bind].
  by rewrite Hm, Ha, app_assoc.
Qed.

(** The value a safe computation returns. *)
Lemma safe_writes_mbind {A B} (m : M A) (f : A -> M B) a l b l' :
  writes m (Ret a) l -> writes (f a) (Ret b) l' ->
  writes (mbind f m) (Ret b) (l ++ l').
Proof.
  intros Hm Ha w. cbv [mbind M_bind bind]. by rewrite Hm, Ha, app_assoc.
Qed.

(** Goals [oblivious m] and [safe m], by the shape of [m]. *)
Ltac console_step :=
  match goal with
  | |- oblivious (mret _) => apply oblivious_mret
  | |- safe (mret _) => apply safe_mret
  | |- oblivious (throw _) => apply oblivious_throw
  | |- oblivious (deref _ _) => apply oblivious_deref
  | |- oblivious (liftM _) => apply oblivious_liftM
  | |- oblivious (console_error _ _) => apply oblivious_console_error
  | |- safe (console_error _ _) => apply safe_console_error
  | |- oblivious (mbind _ _) => apply oblivious_mbind; [|intros ?]
  | |- safe (mbind _ _) => apply safe_mbind; [|intros ?]
  | |- oblivious (tryCatch _ _) => apply oblivious_tryCatch; [|intros ?]
  | |- safe (tryCatch _ _) => apply safe_tryCatch; [|intros ?]
  | |- oblivious (match ?x with _ => _ end) => destruct x
  | |- safe (match ?x with _ => _ end) => destruct x
  | |- oblivious (let _ := _ in _) => cbv zeta
  | |- safe (let _ := _ in _) => cbv zeta
  | H : _ |- _ => apply H
  | H : forall x, safe _ |- oblivious _ => apply safe_oblivious, H
  end.

Ltac console := repeat console_step.

Module ParserFacts.
Import SQLParser.

Lemma parseColumn_safe columnDef table enums :
  safe (parseColumn columnDef table enums).
Proof. unfold parseColumn. console. Qed.

Lemma parseConstraint_safe constraintDef : safe (parseConstraint constraintDef).
Proof. unfold parseConstraint. console. Qed.

Lemma parseParts_oblivious tableName enums parts :
  forall columns constraints,
    oblivious (parseParts tableName enums parts columns constraints).
Proof.
  induction parts as [|part rest IH]; intros columns constraints;
    cbn [parseParts].
  - console.
  - destruct (isConstraintDefinition (JS.trim part)).
    + apply oblivious_mbind;
        [apply safe_oblivious, parseConstraint_safe | intros ?; apply IH].
    + apply oblivious_mbind;
        [apply safe_oblivious, parseColumn_safe | intros [? ?]; apply IH].
Qed.

Lemma parseCreateTable_safe statement enums :
  safe (parseCreateTable statement enums).
Proof.
  unfold parseCreateTable. apply safe_tryCatch; [|intros ?; console].
  destruct (Regex.exec tableNameRe statement); [|console].
  destruct (Regex.exec contentRe statement); [|console].
  apply oblivious_mbind; [console|intros content].
  apply oblivious_mbind; [apply parseParts_oblivious|intros [? ?]; console].
Qed.

Lemma parseCreateEnum_safe statement : safe (parseCreateEnum statement).
Proof. unfold parseCreateEnum. console. Qed.

Lemma parseAlterTableForeignKey_safe statement tables :
  safe (parseAlterTableForeignKey statement tables).
Proof. unfold parseAlterTableForeignKey. console. Qed.

End ParserFacts.

(** ** The parser returns, statement by statement *)

Module PassFacts.
Import SQLParser ParserFacts.

Lemma extends_refl t : extends t t.
Proof. repeat split; reflexivity. Qed.

Lemma extends_trans t1 t2 t3 : extends t1 t2 -> extends t2 t3 -> extends t1 t3.
Proof.
  intros (Hn & Hc & Hp) (Hn' & Hc' & Hp'). repeat split.
  - congruence.
  - congruence.
  - etrans; eassumption.
Qed.

Lemma Forall2_extends_refl ts : Forall2 extends ts ts.
Proof. induction ts; constructor; auto using extends_refl. Qed.

Lemma Forall2_extends_trans ts1 ts2 ts3 :
  Forall2 extends ts1 ts2 -> Forall2 extends ts2 ts3 -> Forall2 extends ts1 ts3.
Proof.
  intros H. revert ts3. induction H; intros ts3 H'; inversion H'; subst;
    constructor; eauto using extends_trans.
Qed.

Lemma pushConstraint_extends name c ts :
  Forall2 extends ts (pushConstraint name c ts).
Proof.
  induction ts as [|t rest IH]; simpl; [constructor|].
  destruct (String.eqb (tbl_name t) name).
  - constructor; [|apply Forall2_extends_refl].
    repeat split; simpl; try reflexivity. by eexists.
  - constructor; [apply extends_refl | exact IH].
Qed.

Lemma writes_mret {A} (a : A) : writes (mret a) (Ret a) [].
Proof. intros w. cbv [mret M_ret ret]. by rewrite app_nil_r. Qed.

Lemma writes_tryCatch_mret {A} (a : A) h : writes (tryCatch (mret a) h) (Ret a) [].
Proof. intros w. cbv [tryCatch mret M_ret ret]. by rewrite app_nil_r. Qed.

Lemma parseAlterTableForeignKey_extends statement ts :
  exists ts', writes (parseAlterTableForeignKey statement ts) (Ret ts') []
              /\ Forall2 extends ts ts'.
Proof.
  unfold parseAlterTableForeignKey.
  destruct (Regex.exec alterRe statement) as [m|].
  - cbv zeta.
    destruct (JS.orElse (Regex.group 1 m) (Regex.group 2 m)) as [name|].
    + eexists. split; [apply writes_tryCatch_mret|].
      apply pushConstraint_extends.
    + eexists. split; [apply writes_tryCatch_mret|].
      apply Forall2_extends_refl.
  - eexists. split; [apply writes_tryCatch_mret|].
    apply Forall2_extends_refl.
Qed.

Lemma alterPass_extends statements :
  forall ts, exists ts', writes (alterPass statements ts) (Ret ts') []
                         /\ Forall2 extends ts ts'.
Proof.
  induction statements as [|statement rest IH]; intros ts; cbn [alterPass].
  - exists ts. split; [apply writes_mret | apply Forall2_extends_refl].
  - destruct (_ && _).
    + destruct (parseAlterTableForeignKey_extends (JS.trim statement) ts)
        as (ts1 & Hw1 & He1).
      destruct (IH ts1) as (ts2 & Hw2 & He2).
      exists ts2. split; [|eauto using Forall2_extends_trans].
      apply (safe_writes_mbind _ _ ts1 [] ts2 []); assumption.
    + apply IH.
Qed.

Lemma valueOf_writes {A} (m : M (option A)) o l :
  writes m (Ret o) l -> valueOf m = o.
Proof. intros H. unfold valueOf. by rewrite H. Qed.

Lemma tablePass_writes enums statements :
  forall acc, exists l,
    writes (tablePass statements enums acc)
           (Ret (acc ++ omap (tableOf enums) statements)) l.
Proof.
  induction statements as [|statement rest IH]; intros acc;
    cbn [tablePass omap list_omap].
  - exists []. rewrite app_nil_r. apply writes_mret.
  - unfold tableOf at 1. cbv zeta.
    destruct (JS.startsWith _ _); [|apply IH].
    destruct (parseCreateTable_safe (JS.trim statement) enums) as (o & l & Hw).
    rewrite (valueOf_writes _ _ _ Hw).
    destruct o as [t|].
    + destruct (IH (acc ++ [t])) as (l' & Hw').
      exists (l ++ l'). rewrite <- app_assoc in Hw'.
      apply (safe_writes_mbind _ _ (Some t) l _ l'); assumption.
    + destruct (IH acc) as (l' & Hw').
      exists (l ++ l').
      apply (safe_writes_mbind _ _ None l _ l'); assumption.
Qed.

Lemma enumPass_writes statements :
  forall acc, exists l,
    writes (enumPass statements acc) (Ret (acc ++ omap enumOf statements)) l.
Proof.
  induction statements as [|statement rest IH]; intros acc;
    cbn [enumPass omap list_omap].
  - exists []. rewrite app_nil_r. apply writes_mret.
  - unfold enumOf at 1. cbv zeta.
    destruct (_ && _); [|apply IH].
    destruct (parseCreateEnum_safe (JS.trim statement)) as (o & l & Hw).
    rewrite (valueOf_writes _ _ _ Hw).
    destruct o as [e|].
    + destruct (IH (acc ++ [e])) as (l' & Hw').
      exists (l ++ l'). rewrite <- app_assoc in Hw'.
      apply (safe_writes_mbind _ _ (Some e) l _ l'); assumption.
    + destruct (IH acc) as (l' & Hw').
      exists (l ++ l').
      apply (safe_writes_mbind _ _ None l _ l'); assumption.
Qed.

(** [parseSQL] returns; its enums and its tables are, in order, those of
    the statements that have one, the tables with the constraints of the
    third loop. *)
Lemma parseSQL_writes sql :
  exists r l,
    writes (parseSQL sql) (Ret r) l
    /\ enums r = omap enumOf (splitStatements sql)
    /\ Forall2 extends (omap (tableOf (enums r)) (splitStatements sql)) (tables r).
Proof.
  unfold parseSQL. cbv zeta.
  destruct (enumPass_writes (splitStatements sql) []) as (l1 & H1).
  set (es := [] ++ omap enumOf (splitStatements sql)) in H1.
  destruct (tablePass_writes es (splitStatements sql) []) as (l2 & H2).
  destruct (alterPass_extends (splitStatements sql)
              ([] ++ omap (tableOf es) (splitStatements sql)))
    as (ts' & H3 & He).
  exists (mkParseResult ts' es), (l1 ++ l2 ++ [] ++ []).
  split; [|split; [reflexivity | exact He]].
  eapply safe_writes_mbind; [exact H1|].
  eapply safe_writes_mbind; [exact H2|].
  eapply safe_writes_mbind; [exact H3|].
  apply writes_mret.
Qed.

Lemma parseSQL_oblivious sql : oblivious (parseSQL sql).
Proof.
  destruct (parseSQL_writes sql) as (r & l & H & _). by exists (Ret r), l.
Qed.

End PassFacts.

(** ** Statements that give no entity *)

Module StatementFacts.
Import Regex SQLParser.

Lemma parseParts_safe tableName enums parts :
  forall columns constraints,
    safe (parseParts tableName enums parts columns constraints).
Proof.
  induction parts as [|part rest IH]; intros columns constraints;
    cbn [parseParts].
  - apply safe_mret.
  - destruct (isConstraintDefinition (JS.trim part)).
    + apply safe_mbind; [apply ParserFacts.parseConstraint_safe | intros ?; apply IH].
    + apply safe_mbind; [apply ParserFacts.parseColumn_safe | intros [? ?]; apply IH].
Qed.

Lemma run_Grp i r k st :
  run (Grp i r) k st
  = run r (fun st' =>
             k (MState (m_pos st') (m_rest st')
                  ((i, JS.take (m_pos st' - m_pos st) (m_rest st))
                     :: m_caps st'))) st.
Proof. reflexivity. Qed.

(** The group of [contentRe] is set by every match, possibly to the
    empty string. *)
Lemma content_defined statement m :
  exec contentRe statement = Some m -> is_Some (group 1 m).
Proof.
  assert (forall pos s st,
             matchAt contentRe pos s = Some st -> is_Some (lookup 1 (m_caps st)))
    as Hmatch.
  { intros pos s st H. unfold matchAt, contentRe in H. cbn [seq] in H.
    rewrite CaptureFacts.run_Cat in H.
    apply CaptureFacts.run_through in H as (st1 & H & _ & _).
    rewrite CaptureFacts.run_Cat, run_Grp in H.
    apply CaptureFacts.run_through in H as (st2 & H & _ & _).
    apply (CaptureFacts.run_preserves 1 (chr rparen) Some eq_refl
             (CaptureFacts.preserves_Some 1)) in H.
    rewrite H. cbn [m_caps lookup Nat.eqb]. by eexists. }
  unfold exec.
  assert (forall pos m,
             searchFrom contentRe pos statement = Some m -> is_Some (group 1 m))
    as Hsearch; [|apply Hsearch].
  clear m. induction statement as [|c s IH]; intros pos m H;
    cbn [searchFrom] in H.
  - destruct (matchAt contentRe pos "") as [st|] eqn:E; [|discriminate].
    inversion H; subst. unfold group. cbn [r_caps]. by eapply Hmatch.
  - destruct (matchAt contentRe pos (String c s)) as [st|] eqn:E.
    + inversion H; subst. unfold group. cbn [r_caps]. by eapply Hmatch.
    + by eapply IH.
Qed.

Lemma enumRe_values : captures1 3 enumRe.
Proof.
  unfold enumRe, parenList. cbn [seq].
  repeat first
    [ apply CaptureFacts.captures1_Cat_l;
        [apply CaptureFacts.captures1_Grp_plus | reflexivity]
    | apply CaptureFacts.captures1_Cat_r ].
Qed.

(** A CREATE TABLE statement gives no table exactly when the pattern of
    the head or the pattern of the body does not match. *)
Lemma parseCreateTable_null statement enums :
  valueOf (parseCreateTable statement enums) = None
  <-> exec tableNameRe statement = None \/ exec contentRe statement = None.
Proof.
  unfold valueOf, parseCreateTable, tryCatch.
  destruct (exec tableNameRe statement) as [tm|] eqn:Et.
  2: { cbn. split; [by left | reflexivity]. }
  cbv zeta.
  destruct (exec contentRe statement) as [cm|] eqn:Ec.
  2: { cbn. split; [by right | reflexivity]. }
  destruct (content_defined _ _ Ec) as [content ->].
  destruct (parseParts_safe
              (JS.defined (JS.orElse (group 1 tm) (group 2 tm))) enums
              (splitByCommas content) [] []) as ([columns constraints] & l & Hp).
  cbv [mbind M_bind bind deref ret]. rewrite (Hp []).
  cbn. split; [discriminate | intros [H|H]; discriminate H].
Qed.

(** A CREATE TYPE statement gives no enum exactly when the pattern does
    not match. *)
Lemma parseCreateEnum_null statement :
  valueOf (parseCreateEnum statement) = None <-> exec enumRe statement = None.
Proof.
  unfold valueOf, parseCreateEnum, tryCatch.
  destruct (exec enumRe statement) as [em|] eqn:Ee.
  2: { cbn. split; reflexivity. }
  cbv zeta.
  destruct (CaptureFacts.exec_captures1 3 _ _ _ enumRe_values Ee)
    as (values & _ & ->).
  cbn. split; discriminate.
Qed.

End StatementFacts.

(** C8, as stated, fails.  The first statement of the input below lacks
    the closing parenthesis of its body, and it gives a table all the
    same: the body is taken up to the last closing parenthesis of the
    statement, and the table [broken] has a column [name] of type
    [VARCHAR(10]. *)
Lemma C8_counterexample :
  SQLParser.splitStatements
    "CREATE TABLE broken (id INTEGER, name VARCHAR(10); CREATE TABLE users (id SERIAL PRIMARY KEY);"
  = ["CREATE TABLE broken (id INTEGER, name VARCHAR(10)";
     " CREATE TABLE users (id SERIAL PRIMARY KEY)"]
  /\ exists parseResult broken users,
      fst (SQLParser.parseSQL
             "CREATE TABLE broken (id INTEGER, name VARCHAR(10); CREATE TABLE users (id SERIAL PRIMARY KEY);"
             [])
      = Ret parseResult
      /\ tables parseResult = [broken; users]
      /\ tbl_name broken = "broken"
      /\ map (fun col => (col_name col, col_type col)) (tbl_columns broken)
         = [("id", "INTEGER"); ("name", "VARCHAR(10")]
      /\ tbl_name users = "users".
Proof.
  split; [vm_compute; reflexivity|].
  eexists _, _, _. split; [vm_compute; reflexivity|].
  repeat split.
Qed.

(** C8, amended.  Whatever the input and the console, [parseSQL] returns
    a result and throws nothing.  The enums of the result are, in order,
    those of the statements for which [parseCreateEnum] gives an enum,
    and the tables are, in order, those of the statements for which
    [parseCreateTable] gives a table (with the constraints that the ALTER
    TABLE loop pushed on them): a statement for which the parser gives
    [null] leaves no entity and the loop goes on.  [parseCreateTable]
    gives [null] exactly when the pattern of the head or the pattern of
    the parenthesized body matches nowhere in the statement, and
    [parseCreateEnum] exactly when the pattern of the enum matches
    nowhere; every other statement gives an entity, well formed or not.
    On [brokenThenGood] the first statement has no closing parenthesis,
    it gives no table, and the result is the table [users] alone. *)
Theorem C8_parseSQL_never_throws :
  (forall (sql : string) (w : console),
      exists r w',
        SQLParser.parseSQL sql w = (Ret r, w')
        /\ enums r = omap enumOf (SQLParser.splitStatements sql)
        /\ Forall2 extends
             (omap (tableOf (enums r)) (SQLParser.splitStatements sql))
             (tables r))
  /\ (forall (statement : string) (enums : list SQLEnum),
         valueOf (SQLParser.parseCreateTable statement enums) = None
         <-> Regex.exec SQLParser.tableNameRe statement = None
             \/ Regex.exec SQLParser.contentRe statement = None)
  /\ (forall statement : string,
         valueOf (SQLParser.parseCreateEnum statement) = None
         <-> Regex.exec SQLParser.enumRe statement = None)
  /\ (SQLParser.splitStatements brokenThenGood
      = ["CREATE TABLE broken (id INTEGER";
         " CREATE TABLE users (id SERIAL PRIMARY KEY)"]
      /\ tableOf [] "CREATE TABLE broken (id INTEGER" = None
      /\ forall w : console,
        fst (SQLParser.parseSQL brokenThenGood w)
        = Ret (mkParseResult
                 [mkTable "users"
                    [mkColumn "id" "SERIAL" false None true true None (Some false)]
                    []]
                 [])).
Proof.
  split; [|split; [|split]].
  - intros sql w.
    destruct (PassFacts.parseSQL_writes sql) as (r & l & H & Hen & He).
    exists r, (w ++ l). split; [apply H | split; [exact Hen | exact He]].
  - apply StatementFacts.parseCreateTable_null.
  - apply StatementFacts.parseCreateEnum_null.
  - split; [vm_compute; reflexivity|].
    split; [vm_compute; reflexivity|].
    intros w.
    rewrite (oblivious_fst _ w [] (PassFacts.parseSQL_oblivious _)).
    vm_compute. reflexivity.
Qed.

(** ** The second pass of the generator only pushes fields *)

Module GeneratorFacts.
Import PrismaGenerator.

Lemma shape_names ms ms' :
  map shape ms' = map shape ms -> map model_name ms' = map model_name ms.
Proof.
  intros H. apply (f_equal (map fst)) in H.
  by rewrite !map_map in H.
Qed.

Lemma pushField_shape name f ms ms' :
  pushField name f ms = Some ms' -> map shape ms' = map shape ms.
Proof.
  revert ms'. induction ms as [|m rest IH]; intros ms' H; cbn [pushField] in H.
  - discriminate.
  - destruct (String.eqb (model_name m) name).
    + inversion H; subst. reflexivity.
    + destruct (pushField name f rest) as [rest'|]; [|discriminate].
      inversion H; subst. cbn [map]. f_equal. by apply IH.
Qed.

Lemma pushField_is_Some name f ms :
  In name (map model_name ms) -> is_Some (pushField name f ms).
Proof.
  induction ms as [|m rest IH]; intros H; cbn [pushField]; [destruct H|].
  destruct (String.eqb_spec (model_name m) name) as [E|E]; [by eexists|].
  destruct H as [H|H]; [contradiction|].
  destruct (IH H) as [rest' ->]. by eexists.
Qed.

Lemma findModel_is_Some name ms :
  In name (map model_name ms) <-> is_Some (findModel name ms).
Proof.
  unfold findModel. induction ms as [|m rest IH]; cbn [find map In].
  - split; [intros [] | intros [? H]; discriminate].
  - destruct (String.eqb_spec (model_name m) name) as [E|E].
    + split; [by eexists | by left].
    + rewrite <- IH. split; [intros [H|H]; [contradiction|exact H] | by right].
Qed.

Lemma findModel_name name ms m :
  findModel name ms = Some m -> model_name m = name.
Proof.
  unfold findModel. intros H. apply find_some in H as [_ H].
  by apply String.eqb_eq.
Qed.

Lemma pushField_None name f ms :
  findModel name ms = None -> pushField name f ms = None.
Proof.
  unfold findModel. induction ms as [|m rest IH]; cbn [find pushField];
    [reflexivity|].
  destruct (String.eqb (model_name m) name); [discriminate|].
  intros H. by rewrite (IH H).
Qed.

(** [pushField] appends the field to the first model of that name and
    keeps every other model. *)
Lemma pushField_inv name f ms ms' :
  pushField name f ms = Some ms' ->
  exists before m after,
    ms = before ++ m :: after
    /\ ms' = before
             ++ mkModel (model_name m) (model_fields m ++ [f])
                  (model_attributes m) :: after
    /\ model_name m = name
    /\ Forall (fun m0 => model_name m0 <> name) before.
Proof.
  revert ms'. induction ms as [|m rest IH]; intros ms' H; cbn [pushField] in H.
  - discriminate.
  - destruct (String.eqb_spec (model_name m) name) as [E|E].
    + inversion H; subst. exists [], m, rest. repeat split. constructor.
    + destruct (pushField name f rest) as [rest'|]; [|discriminate].
      inversion H; subst.
      destruct (IH rest' eq_refl) as (b & m1 & a & -> & -> & Hn & Hb).
      exists (m :: b), m1, a. repeat split; auto.
Qed.

Ltac outcome_inv :=
  repeat match goal with
    | H : Ret _ = Ret _ |- _ => inversion H; subst; clear H
    | H : Throw _ = Ret _ |- _ => discriminate H
    | H : Ret _ = Throw _ |- _ => discriminate H
    | H : Throw _ = Throw _ |- _ => inversion H; subst; clear H
    | H : mret _ = Ret _ |- _ => inversion H; subst; clear H
    | H : mret _ = Throw _ |- _ => discriminate H
    end.

(** The models after one constraint: nothing, or the forward field
    pushed, then nothing or the back field pushed. *)
Lemma addRelation_Ret fnc t c st st' :
  addRelation fnc t c st = Ret st' ->
  exists ms1,
    (ms1 = gen_models st
     \/ exists f, pushField (toPascalCase (tbl_name t)) f (gen_models st)
                  = Some ms1)
    /\ (gen_models st' = ms1
        \/ exists r b, pushField (toPascalCase r) b ms1 = Some (gen_models st')).
Proof.
  unfold addRelation. intros H.
  destruct (con_referencedTable c) as [r|]; [|outcome_inv; eauto].
  destruct (_ && _); [|outcome_inv; eauto].
  destruct (generateUniqueRelationName _ _ _ _) as [[rn rc]|e];
    [|discriminate H].
  cbn [mbind outcome_bind] in H.
  destruct (createRelationField c t rn fnc) as [rf|e]; [|discriminate H].
  cbn [mbind outcome_bind] in H.
  assert (exists ms1,
             (ms1 = gen_models st
              \/ exists f, pushField (toPascalCase (tbl_name t)) f (gen_models st)
                           = Some ms1)
             /\ match rf with
                | Some field =>
                    deref' "fields"
                      (pushField (toPascalCase (tbl_name t)) field (gen_models st))
                | None => mret (gen_models st)
                end = Ret ms1) as (ms1 & Hms1 & E).
  { destruct rf as [field|].
    - destruct (pushField _ field _) as [ms1|] eqn:E; [|discriminate H].
      exists ms1. split; [right; eauto | reflexivity].
    - exists (gen_models st). split; [by left | reflexivity]. }
  rewrite E in H. cbn [mbind outcome_bind] in H.
  exists ms1. split; [exact Hms1|].
  inversion H; subst; clear H. cbn [gen_models].
  destruct (createBackRelationField c t rn fnc) as [b|]; [|by left].
  destruct (pushField (toPascalCase r) b ms1) as [ms2|] eqn:E2; cbn [default].
  - right. eauto.
  - by left.
Qed.

Lemma addRelation_shape fnc t c st st' :
  addRelation fnc t c st = Ret st' ->
  map shape (gen_models st') = map shape (gen_models st).
Proof.
  intros H. apply addRelation_Ret in H as (ms1 & H1 & H2).
  assert (map shape ms1 = map shape (gen_models st)) as E1.
  { destruct H1 as [->|(f & H1)]; [reflexivity | by eapply pushField_shape]. }
  destruct H2 as [->|(r & b & H2)]; [exact E1|].
  rewrite <- E1. by eapply pushField_shape.
Qed.

Lemma addRelations_shape fnc t cs :
  forall st st',
    addRelations fnc t cs st = Ret st' ->
    map shape (gen_models st') = map shape (gen_models st).
Proof.
  induction cs as [|c rest IH]; intros st st' H; cbn [addRelations] in H.
  - by outcome_inv.
  - destruct (addRelation fnc t c st) as [st1|e] eqn:E; [|discriminate H].
    cbn [mbind outcome_bind] in H.
    rewrite (IH _ _ H). by eapply addRelation_shape.
Qed.

Lemma secondPass_shape fnc ts :
  forall st st',
    secondPass fnc ts st = Ret st' ->
    map shape (gen_models st') = map shape (gen_models st).
Proof.
  induction ts as [|t rest IH]; intros st st' H; cbn [secondPass] in H.
  - by outcome_inv.
  - destruct (addRelations fnc t (tbl_constraints t) st) as [st1|e] eqn:E;
      [|discriminate H].
    cbn [mbind outcome_bind] in H.
    rewrite (IH _ _ H). by eapply addRelations_shape.
Qed.

Lemma convertTablesToModels_shape tables enums ms :
  convertTablesToModels tables enums = Ret ms ->
  map shape ms = map (fun t => shape (createBasicModel t enums)) tables.
Proof.
  unfold convertTablesToModels. cbv zeta. intros H.
  destruct (secondPass _ _ _) as [st|e] eqn:E; [|discriminate H].
  cbn [mbind outcome_bind] in H. outcome_inv.
  apply secondPass_shape in E. cbn [gen_models] in E.
  by rewrite E, map_map.
Qed.

End GeneratorFacts.

(** ** Model names and table-level attributes *)

Lemma generatePrismaSchema_modelsOf parseResult :
  PrismaGenerator.generatePrismaSchema parseResult
  = (models ← modelsOf parseResult;
     let enums := PrismaGenerator.convertEnumsToPrismaEnums (enums parseResult) in
     mret (JS.concat
             [PrismaGenerator.header;
              if 0 <? length enums
              then JS.join (JS.nl +:+ JS.nl) (map PrismaGenerator.formatEnum enums)
                     +:+ JS.nl +:+ JS.nl
              else "";
              JS.join (JS.nl +:+ JS.nl)
                (map PrismaGenerator.formatModel models)])).
Proof. reflexivity. Qed.

(** The generator names the models by the PascalCase form of the table
    names, in the order of the tables. *)
Lemma model_names_are_pascal_case
      (tables : list SQLTable) (enums : list PrismaEnum)
      (models : list PrismaModel) :
  PrismaGenerator.convertTablesToModels tables enums = Ret models ->
  map model_name models
  = map (fun t => PrismaGenerator.toPascalCase (tbl_name t)) tables.
Proof.
  intros H. apply GeneratorFacts.convertTablesToModels_shape in H.
  apply (f_equal (map fst)) in H. rewrite !map_map in H. exact H.
Qed.

(** C1, at the failing input.  The models generated for the tables
    [users] and [posts] of [usersPosts] are named by [toPascalCase] alone:
    [Users] and [Posts].  No model is named [User] or [Post]; the text
    generated has the blocks [model Users] and [model Posts]. *)
Theorem C1_models_named_Users_and_Posts :
  exists parseResult models text,
    fst (SQLParser.parseSQL usersPosts []) = Ret parseResult
    /\ map tbl_name (tables parseResult) = ["users"; "posts"]
    /\ modelsOf parseResult = Ret models
    /\ map model_name models
       = map PrismaGenerator.toPascalCase ["users"; "posts"]
    /\ map model_name models = ["Users"; "Posts"]
    /\ ~ In "User" (map model_name models)
    /\ ~ In "Post" (map model_name models)
    /\ fst (convert usersPosts []) = Ret text
    /\ JS.includes "model Users {" text = true
    /\ JS.includes "model Posts {" text = true
    /\ JS.includes "model User {" text = false
    /\ JS.includes "model Post {" text = false.
Proof.
  eexists _, _, _. split; [vm_compute; reflexivity|].
  split; [reflexivity|]. split; [vm_compute; reflexivity|].
  split; [reflexivity|]. split; [reflexivity|].
  split; [cbn; intros [H|[H|[]]]; discriminate H|].
  split; [cbn; intros [H|[H|[]]]; discriminate H|].
  split; [vm_compute; reflexivity|].
  repeat split; vm_compute; reflexivity.
Qed.

Lemma map_eq_Forall2 {A B C} (f : A -> C) (g : B -> C) l1 l2 :
  map f l1 = map g l2 -> Forall2 (fun a b => f a = g b) l1 l2.
Proof.
  revert l2. induction l1 as [|a l1 IH]; intros [|b l2] H;
    try discriminate H; constructor.
  - by inversion H.
  - apply IH. by inversion H.
Qed.

(** What [createBasicModel] does: the table name is compared with the
    model name in lower case, and the second pass keeps the attributes. *)
Lemma createBasicModel_map_attribute :
  forall (tables : list SQLTable) (enums : list PrismaEnum),
    (forall t,
        let m := PrismaGenerator.createBasicModel t enums in
        (In (tableMapAttribute (tbl_name t)) (model_attributes m)
         <-> tbl_name t <> JS.toLowerCase (model_name m))
        /\ Forall (eq (tableMapAttribute (tbl_name t))) (model_attributes m))
    /\ match PrismaGenerator.convertTablesToModels tables enums with
       | Ret models =>
           Forall2 (fun t m =>
                      model_attributes m
                      = model_attributes (PrismaGenerator.createBasicModel t enums))
                   tables models
       | Throw _ => True
       end.
Proof.
  intros tables enums. split.
  - intros t m. subst m. unfold PrismaGenerator.createBasicModel. cbv zeta.
    cbn [model_attributes model_name].
    destruct (String.eqb_spec (tbl_name t)
                (JS.toLowerCase (PrismaGenerator.toPascalCase (tbl_name t))))
      as [E|E].
    + split; [|constructor]. split; [intros []|intros H; contradiction].
    + split; [|repeat constructor]. split; [intros _; exact E|intros _; by left].
  - destruct (PrismaGenerator.convertTablesToModels tables enums) as [ms|e] eqn:H;
      [|exact I].
    apply GeneratorFacts.convertTablesToModels_shape in H.
    apply (f_equal (map snd)) in H. rewrite !map_map in H.
    symmetry in H. apply map_eq_Forall2 in H.
    eapply Forall2_impl; [exact H|]. intros t m E. by symmetry.
Qed.

(** C3, at the failing input.  The tables [users] and [posts] of
    [usersPosts] differ from the names [Users] and [Posts] of their
    models, and the models have no table-level attribute: the text
    generated has no name mapping at all.  The guard compares the table
    name with the model name in lower case, which is the table name
    again as long as the model name is not made singular. *)
Theorem C3_plural_tables_have_no_map_attribute :
  exists parseResult users posts usersModel postsModel text,
    fst (SQLParser.parseSQL usersPosts []) = Ret parseResult
    /\ tables parseResult = [users; posts]
    /\ tbl_name users = "users"
    /\ tbl_name posts = "posts"
    /\ modelsOf parseResult = Ret [usersModel; postsModel]
    /\ tbl_name users <> model_name usersModel
    /\ tbl_name users = JS.toLowerCase (model_name usersModel)
    /\ model_attributes usersModel = []
    /\ tbl_name posts <> model_name postsModel
    /\ tbl_name posts = JS.toLowerCase (model_name postsModel)
    /\ model_attributes postsModel = []
    /\ fst (convert usersPosts []) = Ret text
    /\ JS.includes "@@map" text = false.
Proof.
  eexists _, _, _, _, _, _. split; [vm_compute; reflexivity|].
  split; [reflexivity|]. split; [reflexivity|]. split; [reflexivity|].
  split; [vm_compute; reflexivity|].
  cbn [tbl_name model_name model_attributes].
  split; [discriminate|]. split; [reflexivity|]. split; [reflexivity|].
  split; [discriminate|]. split; [reflexivity|]. split; [reflexivity|].
  split; vm_compute; reflexivity.
Qed.

(** ** Scalar fields *)

(** C6.  The scalar fields of the model of a table are those of its
    columns, in order.  The scalar field of a column is optional if and
    only if the column is nullable and not a primary key, so the field of
    a primary key is never optional; and the attributes of a primary-key
    column of type SERIAL or BIGSERIAL start with the primary-key marker
    with the autoincrement default. *)
Theorem C6_scalar_field_optional_and_autoincrement
        (column : SQLColumn) (table : SQLTable) (enums : list PrismaEnum) :
  let field := PrismaGenerator.convertColumnToField column table enums in
  model_fields (PrismaGenerator.createBasicModel table enums)
  = map (fun c => PrismaGenerator.convertColumnToField c table enums)
        (tbl_columns table)
  /\ (field_isOptional field = true
      <-> col_nullable column = true /\ col_isPrimaryKey column = false)
  /\ (col_isPrimaryKey column = true -> field_isOptional field = false)
  /\ (col_isPrimaryKey column = true ->
      col_type column = "SERIAL" \/ col_type column = "BIGSERIAL" ->
      head (field_attributes field) = Some "@id @default(autoincrement())"
      /\ In "@id @default(autoincrement())" (field_attributes field)).
Proof.
  intros field. subst field. split; [reflexivity|].
  unfold PrismaGenerator.convertColumnToField.
  cbv zeta. cbn [field_isOptional field_attributes].
  split; [|split].
  - rewrite andb_true_iff, negb_true_iff. reflexivity.
  - intros ->. by rewrite andb_false_r.
  - intros -> Ht.
    assert (String.eqb (col_type column) "SERIAL"
            || String.eqb (col_type column) "BIGSERIAL" = true) as ->.
    { destruct Ht as [-> | ->]; reflexivity. }
    split; [reflexivity | by left].
Qed.

Lemma C6_scalar_field_witness :
  let column := mkColumn "id" "BIGSERIAL" true None true true None (Some false) in
  let field := PrismaGenerator.convertColumnToField column (mkTable "t" [column] []) [] in
  field_isOptional field = false
  /\ head (field_attributes field) = Some "@id @default(autoincrement())".
Proof.
  intros column field.
  destruct (C6_scalar_field_optional_and_autoincrement
              column (mkTable "t" [column] []) []) as (_ & _ & Hpk & Hserial).
  split.
  - apply Hpk. reflexivity.
  - apply Hserial; [reflexivity | right; reflexivity].
Defined.

(** ** The lookup of the source model *)

Module LookupFacts.
Import PrismaGenerator GeneratorFacts.

Lemma fromColumns_not_fields e : fromColumns e -> e <> TypeError "fields".
Proof. intros [-> | ->]; vm_compute; discriminate. Qed.

Lemma generateUniqueRelationName_Throw from to col rc e :
  generateUniqueRelationName from to col rc = Throw e -> e = TypeError "replace".
Proof.
  unfold generateUniqueRelationName. cbv zeta.
  destruct (0 <? _); [|discriminate].
  destruct col; cbn [deref' mbind outcome_bind]; [discriminate|].
  intros H. by inversion H.
Qed.

Lemma createRelationField_Throw c t rn fnc e :
  createRelationField c t rn fnc = Throw e -> e = TypeError "toLowerCase".
Proof.
  unfold createRelationField.
  destruct (con_referencedTable c); [|discriminate].
  destruct (con_referencedColumns c); [|discriminate].
  destruct (_ || _); [discriminate|].
  unfold generateUniqueFieldName. cbv zeta.
  destruct (head (con_columns c)); cbn [deref' mbind outcome_bind];
    [discriminate|].
  intros H. by inversion H.
Qed.

Lemma addRelation_Throw fnc t c st e :
  In (toPascalCase (tbl_name t)) (map model_name (gen_models st)) ->
  addRelation fnc t c st = Throw e -> fromColumns e.
Proof.
  intros Hin. unfold addRelation.
  destruct (con_referencedTable c) as [r|]; [|discriminate].
  destruct (_ && _); [|discriminate].
  destruct (generateUniqueRelationName _ _ _ _) as [[rn rc]|e0] eqn:E0.
  - cbn [mbind outcome_bind].
    destruct (createRelationField c t rn fnc) as [rf|e1] eqn:E1.
    + cbn [mbind outcome_bind]. destruct rf as [field|].
      * destruct (pushField_is_Some _ field _ Hin) as [ms1 ->].
        cbn [deref' mbind outcome_bind]. discriminate.
      * cbn [mbind outcome_bind]. discriminate.
    + cbn [mbind outcome_bind]. intros H. inversion H; subst.
      right. by eapply createRelationField_Throw.
  - cbn [mbind outcome_bind]. intros H. inversion H; subst.
    left. by eapply generateUniqueRelationName_Throw.
Qed.

Lemma addRelations_Throw fnc t cs :
  forall st e,
    In (toPascalCase (tbl_name t)) (map model_name (gen_models st)) ->
    addRelations fnc t cs st = Throw e -> fromColumns e.
Proof.
  induction cs as [|c rest IH]; intros st e Hin H; cbn [addRelations] in H.
  - discriminate H.
  - destruct (addRelation fnc t c st) as [st1|e1] eqn:E.
    + cbn [mbind outcome_bind] in H. apply (IH st1 e); [|exact H].
      apply addRelation_shape, shape_names in E. by rewrite E.
    + cbn [mbind outcome_bind] in H. inversion H; subst.
      by eapply addRelation_Throw.
Qed.

Lemma secondPass_Throw fnc ts :
  forall st e,
    Forall (fun t => In (toPascalCase (tbl_name t))
                        (map model_name (gen_models st))) ts ->
    secondPass fnc ts st = Throw e -> fromColumns e.
Proof.
  induction ts as [|t rest IH]; intros st e Hall H; cbn [secondPass] in H.
  - discriminate H.
  - inversion Hall as [|? ? Ht Hrest]; subst.
    destruct (addRelations fnc t (tbl_constraints t) st) as [st1|e1] eqn:E.
    + cbn [mbind outcome_bind] in H. apply (IH st1 e); [|exact H].
      apply addRelations_shape, shape_names in E. by rewrite E.
    + cbn [mbind outcome_bind] in H. inversion H; subst.
      by eapply addRelations_Throw.
Qed.

Lemma firstPass_names tables enums :
  Forall (fun t => In (toPascalCase (tbl_name t))
                      (map model_name
                         (map (fun table => createBasicModel table enums) tables)))
         tables.
Proof.
  apply Forall_forall. intros t Ht. rewrite map_map.
  apply in_map_iff. exists t. split; [reflexivity|].
  by apply list_elem_of_In.
Qed.

End LookupFacts.

(** C10.  After the first pass every table finds, by the PascalCase form
    of its name, a model of that name; the second pass keeps the names of
    the models, in order; and [convertTablesToModels] never throws the
    [TypeError] of a field pushed on an undefined model. *)
Theorem C10_source_model_lookup_succeeds
        (tables : list SQLTable) (enums : list PrismaEnum) :
  Forall (fun t =>
            exists m,
              PrismaGenerator.findModel
                (PrismaGenerator.toPascalCase (tbl_name t))
                (map (fun table => PrismaGenerator.createBasicModel table enums)
                     tables) = Some m
              /\ model_name m = PrismaGenerator.toPascalCase (tbl_name t))
         tables
  /\ (forall fnc ts st st',
         PrismaGenerator.secondPass fnc ts st = Ret st' ->
         map model_name (PrismaGenerator.gen_models st')
         = map model_name (PrismaGenerator.gen_models st))
  /\ PrismaGenerator.convertTablesToModels tables enums
     <> Throw (TypeError "fields").
Proof.
  split; [|split].
  - eapply Forall_impl; [apply (LookupFacts.firstPass_names tables enums)|].
    intros t Hin. cbn beta in Hin.
    apply GeneratorFacts.findModel_is_Some in Hin as [m Hm].
    exists m. split; [exact Hm | by eapply GeneratorFacts.findModel_name].
  - intros fnc ts st st' H.
    by apply GeneratorFacts.secondPass_shape, GeneratorFacts.shape_names in H.
  - unfold PrismaGenerator.convertTablesToModels. cbv zeta.
    destruct (PrismaGenerator.secondPass _ _ _) as [st|e] eqn:E;
      cbn [mbind outcome_bind]; [discriminate|].
    apply LookupFacts.secondPass_Throw in E;
      [|apply LookupFacts.firstPass_names].
    intros H. inversion H; subst.
    by apply LookupFacts.fromColumns_not_fields in E.
Qed.

Lemma C10_source_model_lookup_witness :
  let users := mkTable "users" [] [] in
  let posts :=
    mkTable "posts" []
      [mkConstraint FOREIGN_KEY ["author_id"] (Some "users") (Some ["id"])] in
  exists st',
    PrismaGenerator.secondPass ∅ [users; posts]
      (PrismaGenerator.mkGen
         (map (fun table => PrismaGenerator.createBasicModel table [])
              [users; posts]) ∅) = Ret st'
    /\ map model_name (PrismaGenerator.gen_models st') = ["Users"; "Posts"].
Proof.
  intros users posts.
  assert (exists st',
             PrismaGenerator.secondPass ∅ [users; posts]
               (PrismaGenerator.mkGen
                  (map (fun table => PrismaGenerator.createBasicModel table [])
                       [users; posts]) ∅) = Ret st') as [st' E].
  { vm_compute. eexists. reflexivity. }
  exists st'. split; [exact E|].
  destruct (C10_source_model_lookup_succeeds [users; posts] [])
    as (_ & Hnames & _).
  rewrite (Hnames _ _ _ _ E). vm_compute. reflexivity.
Defined.

(** ** A foreign key whose target has no model *)

Module UnresolvedFacts.
Import PrismaGenerator GeneratorFacts.

Lemma truthy_nonempty s : s <> "" -> JS.truthy s = true.
Proof. destruct s; [contradiction | reflexivity]. Qed.

Lemma generateUniqueRelationName_Some from to col rc :
  exists rn,
    generateUniqueRelationName from to (Some col) rc
    = Ret (rn, <[JS.concat [toPascalCase from; "To"; toPascalCase to]
                := default 0 (rc !! JS.concat [toPascalCase from; "To";
                                               toPascalCase to]) + 1]> rc).
Proof.
  unfold generateUniqueRelationName. cbv zeta.
  destruct (0 <? _); cbn [deref' mbind outcome_bind]; eexists; reflexivity.
Qed.

Lemma createRelationField_forward c t rn fnc r col cols refs :
  con_referencedTable c = Some r -> r <> "" ->
  con_columns c = col :: cols -> con_referencedColumns c = Some refs ->
  createRelationField c t rn fnc = Ret (Some (forwardField c t rn r col refs)).
Proof.
  intros Hr Hne Hc Hrefs. unfold createRelationField.
  rewrite Hr, Hrefs, (truthy_nonempty _ Hne).
  unfold generateUniqueFieldName, forwardField. rewrite Hc.
  reflexivity.
Qed.

Lemma createBackRelationField_is_Some c t rn fnc r col cols :
  con_referencedTable c = Some r -> r <> "" -> con_columns c = col :: cols ->
  is_Some (createBackRelationField c t rn fnc).
Proof.
  intros Hr Hne Hc. unfold createBackRelationField.
  rewrite Hc, Hr. cbn [truthyOpt]. rewrite (truthy_nonempty _ Hne).
  by eexists.
Qed.

Lemma findModel_None_names name ms ms' :
  map model_name ms' = map model_name ms ->
  findModel name ms = None -> findModel name ms' = None.
Proof.
  intros E H. destruct (findModel name ms') as [m|] eqn:E'; [|reflexivity].
  assert (is_Some (findModel name ms)) as [m0 Hm0].
  { apply findModel_is_Some. rewrite <- E. apply findModel_is_Some. by eexists. }
  congruence.
Qed.

(** In a run the models are named after the tables, and a name finds no
    model exactly when it is the PascalCase form of no table name. *)
Lemma findModel_None_tables name tables ms :
  map model_name ms = map (fun t => toPascalCase (tbl_name t)) tables ->
  findModel name ms = None
  <-> ~ In name (map (fun t => toPascalCase (tbl_name t)) tables).
Proof.
  intros E. rewrite <- E. split.
  - intros H Hin. apply findModel_is_Some in Hin as [m Hm]. congruence.
  - intros H. destruct (findModel name ms) as [m|] eqn:Em; [|reflexivity].
    exfalso. apply H. apply findModel_is_Some. by eexists.
Qed.

End UnresolvedFacts.

(** C7, as stated, fails.  In [capitalReference] the foreign key of
    [posts] references [Users], which is the name of no table of the parse
    result (the tables are [posts] and [users]); the back-relation field
    [posts] is pushed all the same, on the model of the table [users].  In
    the second schema the foreign key has no referenced columns, and no
    forward field is emitted. *)
Lemma C7_counterexample :
  (exists parseResult posts users c postsModel usersModel back,
      fst (SQLParser.parseSQL capitalReference []) = Ret parseResult
      /\ tables parseResult = [posts; users]
      /\ tbl_constraints posts = [c]
      /\ con_type c = FOREIGN_KEY
      /\ con_referencedTable c = Some "Users"
      /\ ~ In "Users" (map tbl_name (tables parseResult))
      /\ modelsOf parseResult = Ret [postsModel; usersModel]
      /\ model_name usersModel = PrismaGenerator.toPascalCase (tbl_name users)
      /\ last (model_fields usersModel) = Some back
      /\ field_name back = "posts"
      /\ field_type back = model_name postsModel
      /\ field_isArray back = true)
  /\ (let author_id :=
        mkColumn "author_id" "INTEGER" true None false false None (Some false) in
      let posts :=
        mkTable "posts" [author_id]
          [mkConstraint FOREIGN_KEY ["author_id"] (Some "users") None] in
      ~ In "users" (map tbl_name [posts])
      /\ exists postsModel,
          PrismaGenerator.convertTablesToModels [posts] [] = Ret [postsModel]
          /\ Forall (fun f => PrismaGenerator.isRelationField f = false)
                    (model_fields postsModel)).
Proof.
  split.
  - eexists _, _, _, _, _, _, _. split; [vm_compute; reflexivity|].
    split; [reflexivity|]. split; [reflexivity|]. split; [reflexivity|].
    split; [reflexivity|].
    split; [cbn; intros [H|[H|[]]]; discriminate H|].
    split; [vm_compute; reflexivity|]. repeat split.
  - intros author_id posts. split.
    + cbn. intros [H|[]]; discriminate H.
    + eexists. split; [vm_compute; reflexivity|].
      cbn [model_fields]. repeat constructor.
Qed.

(** C7, amended.  Take a FOREIGN KEY constraint with a non-empty column
    list, referenced columns, and a referenced table whose PascalCase form
    is the name of no model, on a table that has its model.  The loop body
    raises no error; it pushes the forward field on the source model and
    changes no other model: no back-relation field is pushed. *)
Theorem C7_unresolved_target_forward_only
        (fnc : PrismaGenerator.fieldCounters) (t : SQLTable) (c : SQLConstraint)
        (st : PrismaGenerator.genState) (r col : string)
        (cols refs : list string) :
  con_type c = FOREIGN_KEY ->
  con_referencedTable c = Some r -> r <> "" ->
  con_columns c = col :: cols ->
  con_referencedColumns c = Some refs ->
  PrismaGenerator.findModel (PrismaGenerator.toPascalCase r)
    (PrismaGenerator.gen_models st) = None ->
  is_Some (PrismaGenerator.findModel (PrismaGenerator.toPascalCase (tbl_name t))
             (PrismaGenerator.gen_models st)) ->
  exists rn rc' before m after,
    PrismaGenerator.generateUniqueRelationName (tbl_name t) r (Some col)
      (PrismaGenerator.gen_relationCounter st) = Ret (rn, rc')
    /\ PrismaGenerator.gen_models st = before ++ m :: after
    /\ model_name m = PrismaGenerator.toPascalCase (tbl_name t)
    /\ Forall (fun m0 => model_name m0
                         <> PrismaGenerator.toPascalCase (tbl_name t)) before
    /\ PrismaGenerator.addRelation fnc t c st
       = Ret (PrismaGenerator.mkGen
                (before
                   ++ mkModel (model_name m)
                        (model_fields m ++ [forwardField c t rn r col refs])
                        (model_attributes m) :: after)
                rc').
Proof.
  intros Htype Hr Hne Hc Hrefs Hnone Hsrc.
  destruct (UnresolvedFacts.generateUniqueRelationName_Some
              (tbl_name t) r col (PrismaGenerator.gen_relationCounter st))
    as (rn & Hrn).
  apply GeneratorFacts.findModel_is_Some in Hsrc.
  destruct (GeneratorFacts.pushField_is_Some _
              (forwardField c t rn r col refs) _ Hsrc) as [ms1 Hpush].
  destruct (GeneratorFacts.pushField_inv _ _ _ _ Hpush)
    as (before & m & after & Hms & Hms1 & Hname & Hbefore).
  exists rn. eexists. exists before, m, after.
  split; [exact Hrn|]. split; [exact Hms|]. split; [exact Hname|].
  split; [exact Hbefore|].
  unfold PrismaGenerator.addRelation.
  rewrite Hr, Htype, (UnresolvedFacts.truthy_nonempty _ Hne).
  rewrite bool_decide_eq_true_2 by reflexivity. cbn [andb].
  rewrite Hc. cbn [head]. rewrite Hrn. cbn [mbind outcome_bind].
  rewrite (UnresolvedFacts.createRelationField_forward c t rn fnc r col cols refs
             Hr Hne Hc Hrefs).
  cbn [mbind outcome_bind]. rewrite Hpush. cbn [deref' mbind outcome_bind].
  destruct (UnresolvedFacts.createBackRelationField_is_Some c t rn fnc r col cols
              Hr Hne Hc) as [b ->].
  rewrite (GeneratorFacts.pushField_None _ b ms1).
  - cbn [default]. rewrite Hms1. reflexivity.
  - eapply UnresolvedFacts.findModel_None_names; [|exact Hnone].
    apply GeneratorFacts.shape_names. by eapply GeneratorFacts.pushField_shape.
Qed.

Lemma C7_unresolved_target_witness :
  let author_id :=
    mkColumn "author_id" "INTEGER" true None false false None (Some false) in
  let c := mkConstraint FOREIGN_KEY ["author_id"] (Some "ghosts") (Some ["id"]) in
  let posts := mkTable "posts" [author_id] [c] in
  let tags := mkTable "tags" [] [] in
  let st :=
    PrismaGenerator.mkGen
      (map (fun table => PrismaGenerator.createBasicModel table []) [tags; posts])
      ∅ in
  exists rn rc' before m after,
    PrismaGenerator.generateUniqueRelationName "posts" "ghosts" (Some "author_id")
      ∅ = Ret (rn, rc')
    /\ PrismaGenerator.gen_models st = before ++ m :: after
    /\ model_name m = "Posts"
    /\ Forall (fun m0 => model_name m0 <> "Posts") before
    /\ PrismaGenerator.addRelation ∅ posts c st
       = Ret (PrismaGenerator.mkGen
                (before
                   ++ mkModel (model_name m)
                        (model_fields m
                           ++ [forwardField c posts rn "ghosts" "author_id" ["id"]])
                        (model_attributes m) :: after)
                rc').
Proof.
  intros author_id c posts tags st.
  apply (C7_unresolved_target_forward_only ∅ posts c st "ghosts" "author_id"
           [] ["id"]).
  - reflexivity.
  - reflexivity.
  - discriminate.
  - reflexivity.
  - reflexivity.
  - vm_compute. reflexivity.
  - vm_compute. by eexists.
Defined.

(** ** Two foreign keys to the same table *)

Module DisambiguationFacts.
Import PrismaGenerator.

Lemma append_left_inj base x y : base +:+ x = base +:+ y <-> x = y.
Proof. split; [apply (inj (String.app base)) | by intros ->]. Qed.

Lemma append_nonempty_neq s c t : s <> s +:+ String c t.
Proof.
  induction s as [|a s IH]; cbn; [discriminate|].
  intros H. injection H as H. by apply IH.
Qed.

Section Filter.
Context {A : Type} (P : A -> Prop) `{!forall x, Decision (P x)}.

Lemma filter_length_pos (l : list A) x :
  In x l -> P x -> 0 < length (filter P l).
Proof.
  induction l as [|a l IH]; intros Hin HP; [destruct Hin|].
  rewrite filter_cons. destruct Hin as [->|Hin].
  - rewrite decide_True by exact HP. cbn. lia.
  - destruct (decide (P a)); cbn; [lia | by apply IH].
Qed.

Lemma filter_length_two (l : list A) x y :
  In x l -> In y l -> x <> y -> P x -> P y -> 1 < length (filter P l).
Proof.
  induction l as [|a l IH]; intros Hx Hy Hne Px Py; [destruct Hx|].
  rewrite filter_cons. destruct Hx as [->|Hx], Hy as [->|Hy].
  - contradiction.
  - rewrite decide_True by exact Px. cbn.
    pose proof (filter_length_pos l y Hy Py). lia.
  - rewrite decide_True by exact Py. cbn.
    pose proof (filter_length_pos l x Hx Px). lia.
  - pose proof (IH Hx Hy Hne Px Py).
    destruct (decide (P a)); cbn; lia.
Qed.
End Filter.

(** The name of the back-relation field of a constraint that is one of
    several foreign keys of its table to the same target. *)
Lemma createBackRelationField_context c c' t rn fnc r col cols :
  In c (tbl_constraints t) -> In c' (tbl_constraints t) -> c <> c' ->
  con_type c = FOREIGN_KEY -> con_type c' = FOREIGN_KEY ->
  con_referencedTable c = Some r -> con_referencedTable c' = Some r ->
  r <> "" -> con_columns c = col :: cols ->
  exists b,
    createBackRelationField c t rn fnc = Some b
    /\ field_name b
       = pluralize (toCamelCase (tbl_name t))
           +:+ toPascalCase (extractForeignKeyContext col)
    /\ field_type b = toPascalCase (tbl_name t)
    /\ field_isArray b = true.
Proof.
  intros Hin Hin' Hne Ht Ht' Hr Hr' Hr0 Hc.
  unfold createBackRelationField. rewrite Hc, Hr. cbn [truthyOpt].
  rewrite (UnresolvedFacts.truthy_nonempty _ Hr0). cbn [negb]. cbv zeta.
  assert ((1 <? length
                  (filter (fun c0 => con_type c0 = FOREIGN_KEY
                                     /\ con_referencedTable c0 = Some r)
                          (tbl_constraints t))) = true) as ->.
  { apply Nat.ltb_lt.
    apply (filter_length_two _ _ c c'); auto. }
  eexists. repeat split.
Qed.

End DisambiguationFacts.

(** When the names are distinct.  For two distinct FOREIGN KEY
    constraints of a table that reference the same table, each with a
    first column: the name of
    each back-relation field is the plural camelCase table name followed
    by the PascalCase context of the first column, so the two names differ
    if and only if the two PascalCase contexts differ; and when nothing
    changes the counter of their base relation name between the two, the
    two relation names differ if and only if the counter was zero before
    the first or the two PascalCase contexts differ. *)
Lemma two_foreign_keys_same_target
        (t : SQLTable) (c1 c2 : SQLConstraint) (r col1 col2 : string)
        (cols1 cols2 : list string) (rn1 rn2 : string)
        (fnc : PrismaGenerator.fieldCounters) (rc : gmap string nat) :
  In c1 (tbl_constraints t) -> In c2 (tbl_constraints t) -> c1 <> c2 ->
  con_type c1 = FOREIGN_KEY -> con_type c2 = FOREIGN_KEY ->
  con_referencedTable c1 = Some r -> con_referencedTable c2 = Some r ->
  r <> "" ->
  con_columns c1 = col1 :: cols1 -> con_columns c2 = col2 :: cols2 ->
  let back := PrismaGenerator.pluralize (PrismaGenerator.toCamelCase (tbl_name t)) in
  let ctx1 :=
    PrismaGenerator.toPascalCase (PrismaGenerator.extractForeignKeyContext col1) in
  let ctx2 :=
    PrismaGenerator.toPascalCase (PrismaGenerator.extractForeignKeyContext col2) in
  let baseName :=
    JS.concat [PrismaGenerator.toPascalCase (tbl_name t); "To";
               PrismaGenerator.toPascalCase r] in
  (exists b1 b2,
      PrismaGenerator.createBackRelationField c1 t rn1 fnc = Some b1
      /\ PrismaGenerator.createBackRelationField c2 t rn2 fnc = Some b2
      /\ field_name b1 = back +:+ ctx1
      /\ field_name b2 = back +:+ ctx2
      /\ (field_name b1 <> field_name b2 <-> ctx1 <> ctx2))
  /\ (exists n1 rc1,
         PrismaGenerator.generateUniqueRelationName (tbl_name t) r (Some col1) rc
         = Ret (n1, rc1)
         /\ forall rc2 : gmap string nat,
           rc2 !! baseName = rc1 !! baseName ->
           exists n2 rc3,
             PrismaGenerator.generateUniqueRelationName (tbl_name t) r
               (Some col2) rc2 = Ret (n2, rc3)
             /\ (n1 <> n2 <-> default 0 (rc !! baseName) = 0 \/ ctx1 <> ctx2)).
Proof.
  intros Hin1 Hin2 Hne Ht1 Ht2 Hr1 Hr2 Hr0 Hc1 Hc2 back ctx1 ctx2 baseName.
  split.
  - destruct (DisambiguationFacts.createBackRelationField_context
                c1 c2 t rn1 fnc r col1 cols1) as (b1 & Hb1 & Hn1 & _); auto.
    destruct (DisambiguationFacts.createBackRelationField_context
                c2 c1 t rn2 fnc r col2 cols2) as (b2 & Hb2 & Hn2 & _); auto.
    exists b1, b2. repeat split; try assumption.
    + rewrite Hn1, Hn2. fold back ctx1 ctx2.
      intros H E. apply H. by rewrite E.
    + rewrite Hn1, Hn2. fold back ctx1 ctx2.
      intros H E. apply H. by apply DisambiguationFacts.append_left_inj in E.
  - unfold PrismaGenerator.generateUniqueRelationName. cbv zeta.
    fold baseName. fold ctx1.
    set (count := default 0 (rc !! baseName)).
    exists (if 0 <? count then JS.concat [baseName; "_"; ctx1] else baseName),
      (<[baseName := count + 1]> rc).
    split.
    { destruct (0 <? count); reflexivity. }
    intros rc2 Hrc2. rewrite Hrc2, lookup_insert_eq. cbn [default from_option id].
    replace (0 <? count + 1) with true by (symmetry; apply Nat.ltb_lt; lia).
    cbn [deref' mbind outcome_bind]. fold ctx2.
    eexists _, _. split; [reflexivity|].
    change (JS.concat [baseName; "_"; ctx1]) with (baseName +:+ "_" +:+ ctx1).
    change (JS.concat [baseName; "_"; ctx2]) with (baseName +:+ "_" +:+ ctx2).
    destruct (0 <? count) eqn:E.
    + apply Nat.ltb_lt in E. split.
      * intros H. right. intros Hctx. apply H. by rewrite Hctx.
      * intros [H|H] Heq; [lia|]. apply H.
        apply (proj1 (DisambiguationFacts.append_left_inj baseName _ _)) in Heq.
        exact (proj1 (DisambiguationFacts.append_left_inj "_" ctx1 ctx2) Heq).
    + apply Nat.ltb_ge in E. split.
      * intros _. left. lia.
      * intros _. apply DisambiguationFacts.append_nonempty_neq.
Qed.

Example two_foreign_keys_distinct_contexts :
  let c1 := mkConstraint FOREIGN_KEY ["author_id"] (Some "users") (Some ["id"]) in
  let c2 := mkConstraint FOREIGN_KEY ["editor_id"] (Some "users") (Some ["id"]) in
  let t := mkTable "posts" [] [c1; c2] in
  exists b1 b2,
    PrismaGenerator.createBackRelationField c1 t "PostsToUsers" ∅ = Some b1
    /\ PrismaGenerator.createBackRelationField c2 t "PostsToUsers_Editor" ∅
       = Some b2
    /\ field_name b1 = "postsAuthor"
    /\ field_name b2 = "postsEditor"
    /\ field_name b1 <> field_name b2.
Proof.
  intros c1 c2 t.
  destruct (two_foreign_keys_same_target
              t c1 c2 "users" "author_id" "editor_id" [] []
              "PostsToUsers" "PostsToUsers_Editor" ∅ ∅)
    as [(b1 & b2 & H1 & H2 & Hn1 & Hn2 & Hiff) _].
  - left. reflexivity.
  - right. left. reflexivity.
  - discriminate.
  - reflexivity.
  - reflexivity.
  - reflexivity.
  - reflexivity.
  - discriminate.
  - reflexivity.
  - reflexivity.
  - exists b1, b2. split; [exact H1|]. split; [exact H2|].
    split; [rewrite Hn1; vm_compute; reflexivity|].
    split; [rewrite Hn2; vm_compute; reflexivity|].
    apply Hiff. vm_compute. discriminate.
Qed.

(** C5, at the failing input.  The table [reviews] of [threeReviewers]
    holds the distinct FOREIGN KEY constraints [c1], [c2] and [c3] to
    [users], on the columns [first_review_user_id],
    [second_review_user_id] and [third_review_user_id]; the last two
    tokens of each are [review_user].  The three back-relation fields
    pushed on the model of [users] have the same name, and those of [c2]
    and [c3] have the same relation name. *)
Theorem C5_back_relation_names_collide :
  exists parseResult users reviews c1 c2 c3 usersModel reviewsModel id b1 b2 b3,
    fst (SQLParser.parseSQL threeReviewers []) = Ret parseResult
    /\ tables parseResult = [users; reviews]
    /\ tbl_constraints reviews = [c1; c2; c3]
    /\ (c1 <> c2 /\ c2 <> c3 /\ c1 <> c3)
    /\ Forall (fun c => con_type c = FOREIGN_KEY
                        /\ con_referencedTable c = Some "users") [c1; c2; c3]
    /\ map con_columns [c1; c2; c3]
       = [["first_review_user_id"]; ["second_review_user_id"];
          ["third_review_user_id"]]
    /\ modelsOf parseResult = Ret [usersModel; reviewsModel]
    /\ model_fields usersModel = [id; b1; b2; b3]
    /\ Forall (fun b => field_isArray b = true
                        /\ field_name b = "reviewsReviewUser") [b1; b2; b3]
    /\ field_attributes b1
       = [JS.concat ["@relation("; JS.dq; "ReviewsToUsers"; JS.dq; ")"]]
    /\ field_attributes b2
       = [JS.concat ["@relation("; JS.dq; "ReviewsToUsers_ReviewUser"; JS.dq; ")"]]
    /\ field_attributes b3 = field_attributes b2.
Proof.
  eexists _, _, _, _, _, _, _, _, _, _, _, _.
  split; [vm_compute; reflexivity|].
  split; [reflexivity|]. split; [reflexivity|].
  split; [repeat split; discriminate|].
  split; [repeat constructor|]. split; [reflexivity|].
  split; [vm_compute; reflexivity|].
  split; [reflexivity|].
  split; [repeat constructor|].
  repeat split.
Qed.

(** ** The scenario of the two tables [users] and [posts] *)

(** C4.  On [scenario], whatever the console, the parser gives the tables
    [users] and [posts], and the column [author_id] is nullable.  The
    model of [users] has the back-relation field [posts], an array of the
    model of [posts]; the model of [posts] has the forward relation field
    [author], not an array, of the type of the model of [users], optional
    as [author_id] is nullable. *)
Theorem C4_scenario_relation_fields :
  forall w : console,
  exists parseResult users posts author_id usersModel postsModel back forward,
    fst (SQLParser.parseSQL scenario w) = Ret parseResult
    /\ tables parseResult = [users; posts]
    /\ (tbl_name users = "users" /\ tbl_name posts = "posts")
    /\ find (fun col => String.eqb (col_name col) "author_id") (tbl_columns posts)
       = Some author_id
    /\ col_nullable author_id = true
    /\ modelsOf parseResult = Ret [usersModel; postsModel]
    /\ (model_name usersModel = PrismaGenerator.toPascalCase "users"
        /\ model_name postsModel = PrismaGenerator.toPascalCase "posts")
    /\ (In back (model_fields usersModel)
        /\ field_name back = "posts"
        /\ field_isArray back = true
        /\ PrismaGenerator.isRelationField back = true
        /\ field_type back = model_name postsModel)
    /\ (In forward (model_fields postsModel)
        /\ field_name forward = "author"
        /\ field_isArray forward = false
        /\ PrismaGenerator.isRelationField forward = true
        /\ field_type forward = model_name usersModel
        /\ field_isOptional forward = col_nullable author_id).
Proof.
  intros w. rewrite (oblivious_fst _ w [] (PassFacts.parseSQL_oblivious _)).
  eexists _, _, _, _, _, _, _, _.
  split; [vm_compute; reflexivity|].
  split; [reflexivity|]. split; [split; reflexivity|].
  split; [vm_compute; reflexivity|]. split; [reflexivity|].
  split; [vm_compute; reflexivity|]. split; [split; reflexivity|].
  split.
  - split; [right; right; left; reflexivity|]. repeat split.
  - split; [right; right; left; reflexivity|]. repeat split.
Qed.

(** ** A table-level FOREIGN KEY clause *)

(** Any clause that starts with the words FOREIGN KEY and a blank starts
    with an identifier and white space, and is not a constraint clause. *)
Lemma foreign_key_clause_is_not_a_constraint (rest : string) :
  SQLParser.isConstraintDefinition ("FOREIGN KEY " +:+ rest) = false.
Proof.
  unfold SQLParser.isConstraintDefinition. cbv zeta.
  replace (Regex.test SQLParser.columnIdentifierRe ("FOREIGN KEY " +:+ rest))
    with true by (vm_compute; reflexivity).
  apply andb_false_r.
Qed.

(** C2, at the failing input.  The clause [foreignKeyClause] is a
    top-level part of the body of [tableLevelForeignKey], and the
    dedicated matcher would give the constraint on [user_id]; but
    [isConstraintDefinition] is false on it, [parseColumn] takes it, and
    the table gets a column named [FOREIGN] of type [KEY] and a FOREIGN
    KEY constraint on the column [FOREIGN]. *)
Theorem C2_foreign_key_clause_parsed_as_column :
  last (SQLParser.splitByCommas
          "id SERIAL PRIMARY KEY, user_id INTEGER, FOREIGN KEY (user_id) REFERENCES users(id)")
  = Some foreignKeyClause
  /\ valueOf (SQLParser.parseConstraint foreignKeyClause)
     = Some (mkConstraint FOREIGN_KEY ["user_id"] (Some "users") (Some ["id"]))
  /\ SQLParser.isConstraintDefinition foreignKeyClause = false
  /\ exists parseResult t,
      fst (SQLParser.parseSQL tableLevelForeignKey []) = Ret parseResult
      /\ tables parseResult = [t]
      /\ map (fun col => (col_name col, col_type col)) (tbl_columns t)
         = [("id", "SERIAL"); ("user_id", "INTEGER"); ("FOREIGN", "KEY")]
      /\ tbl_constraints t
         = [mkConstraint FOREIGN_KEY ["FOREIGN"] (Some "users") (Some ["id"])].
Proof.
  split; [vm_compute; reflexivity|].
  split; [vm_compute; reflexivity|].
  split; [apply (foreign_key_clause_is_not_a_constraint "(user_id) REFERENCES users(id)")|].
  eexists _, _. split; [vm_compute; reflexivity|].
  repeat split.
Qed.

(** ** The pipeline returns, with the same text on every run *)

Module ColumnFacts.
Import SQLParser.

Lemma yields_mret {A} (a : A) (P : A -> Prop) : P a -> yields (mret a) P.
Proof. intros H w a' w' E. cbv [mret M_ret ret] in E. by inversion E; subst. Qed.

Lemma yields_True {A} (m : M A) : yields m (fun _ => True).
Proof. by intros w a w' _. Qed.

Lemma yields_mbind {A B} (m : M A) (f : A -> M B) (P : A -> Prop)
      (Q : B -> Prop) :
  yields m P -> (forall a, P a -> yields (f a) Q) -> yields (mbind f m) Q.
Proof.
  intros Hm Hf w b w' E. cbv [mbind M_bind bind] in E.
  destruct (m w) as [[a|e] w1] eqn:Em; [|discriminate].
  exact (Hf a (Hm _ _ _ Em) _ _ _ E).
Qed.

Lemma yields_tryCatch {A} (m : M A) h (P : A -> Prop) :
  yields m P -> (forall e, yields (h e) P) -> yields (tryCatch m h) P.
Proof.
  intros Hm Hh w a w' E. unfold tryCatch in E.
  destruct (m w) as [[a0|e] w1] eqn:Em.
  - inversion E; subst. exact (Hm _ _ _ Em).
  - exact (Hh e _ _ _ E).
Qed.

Lemma yields_handler {A} msg (a : A) (P : A -> Prop) e :
  P a -> yields (_ ← console_error msg e; mret a) P.
Proof.
  intros H. apply (yields_mbind _ _ (fun _ => True)); [apply yields_True|].
  intros _ _. by apply yields_mret.
Qed.

Lemma splitChar_nonempty sep s : forall cur, JS.splitChar sep cur s <> [].
Proof.
  induction s as [|c s IH]; intros cur; cbn [JS.splitChar]; [discriminate|].
  destruct (Ascii.eqb c sep); [discriminate | apply IH].
Qed.

Lemma map_split_nonempty {B} (f : string -> B) sep s : map f (JS.split sep s) <> [].
Proof.
  unfold JS.split. pose proof (splitChar_nonempty sep s "") as H.
  destruct (JS.splitChar sep "" s); [contradiction | discriminate].
Qed.

Lemma parseColumn_complete columnDef table enums :
  Forall complete (ctx_constraints table) ->
  yields (parseColumn columnDef table enums) (fun r => Forall complete (snd r)).
Proof.
  intros Hctx. unfold parseColumn.
  apply yields_tryCatch; [|intros e; by apply yields_handler].
  cbv zeta.
  match goal with
  | |- yields (match ?x with _ => _ end) _ => destruct x as [[name remainingDef]|]
  end; [|by apply yields_mret].
  destruct (Regex.split whitespaceRe remainingDef) as [|type0 ?];
    [by apply yields_mret|].
  apply (yields_mbind _ _ (fun _ => True)); [apply yields_True|].
  intros [type1 len] _.
  apply (yields_mbind _ _ (Forall complete)).
  - destruct (Regex.exec referencesRe columnDef) as [m|] eqn:Em;
      [|by apply yields_mret].
    destruct (CaptureFacts.exec_captures 1 2 _ _ _
                CaptureFacts.referencesRe_captures Em) as (r & Hr & ->).
    apply (yields_mbind _ _ (fun _ => True)); [apply yields_True|].
    intros cols _. apply yields_mret. apply Forall_app. split; [exact Hctx|].
    constructor; [|constructor].
    split; [discriminate|]. intros _. cbn. eauto.
  - intros cs Hcs. by apply yields_mret.
Qed.

Lemma parseConstraint_complete constraintDef :
  yields (parseConstraint constraintDef)
         (fun o => forall c, o = Some c -> complete c).
Proof.
  unfold parseConstraint.
  apply yields_tryCatch;
    [|intros e; apply yields_handler; intros ? [=]].
  cbv zeta.
  assert (yields
            (if JS.includes "FOREIGN KEY" (JS.toUpperCase constraintDef)
             then
               match Regex.exec foreignKeyRe constraintDef with
               | Some fkMatch =>
                   cols ← deref "split" (Regex.group 1 fkMatch);
                   refs ← deref "split" (Regex.group 3 fkMatch);
                   mret (Some (mkConstraint FOREIGN_KEY
                                 (map JS.trim (JS.split comma cols))
                                 (Regex.group 2 fkMatch)
                                 (Some (map JS.trim (JS.split comma refs)))))
               | None => mret None
               end
             else mret None)
            (fun o => forall c, o = Some c -> complete c)) as Hforeign.
  { destruct (JS.includes _ _); [|apply yields_mret; intros ? [=]].
    destruct (Regex.exec foreignKeyRe constraintDef) as [m|] eqn:Em;
      [|apply yields_mret; intros ? [=]].
    destruct (CaptureFacts.exec_captures1 2 _ _ _
                CaptureFacts.foreignKeyRe_captures Em) as (r & Hr & ->).
    apply (yields_mbind _ _ (fun _ => True)); [apply yields_True|].
    intros cols _.
    apply (yields_mbind _ _ (fun _ => True)); [apply yields_True|].
    intros refs _. apply yields_mret. intros c [= <-].
    split; [apply map_split_nonempty|]. intros _. cbn. eauto. }
  destruct (JS.includes "PRIMARY KEY" _); [|exact Hforeign].
  destruct (Regex.exec primaryKeyRe constraintDef); [|exact Hforeign].
  apply (yields_mbind _ _ (fun _ => True)); [apply yields_True|].
  intros cols _. apply yields_mret. intros c [= <-].
  split; [apply map_split_nonempty|]. intros [=].
Qed.

Lemma parseParts_complete tableName enums parts :
  forall columns constraints,
    Forall complete constraints ->
    yields (parseParts tableName enums parts columns constraints)
           (fun r => Forall complete (snd r)).
Proof.
  induction parts as [|part rest IH]; intros columns constraints Hcs;
    cbn [parseParts].
  - by apply yields_mret.
  - destruct (isConstraintDefinition (JS.trim part)).
    + eapply yields_mbind; [apply parseConstraint_complete|].
      intros o Ho. apply IH. destruct o as [c|]; [|exact Hcs].
      apply Forall_app. split; [exact Hcs|]. constructor; [by apply Ho | constructor].
    + eapply yields_mbind;
        [apply (parseColumn_complete _ (mkCtx tableName columns constraints));
         exact Hcs|].
      intros [column cs] Hr. by apply IH.
Qed.

Lemma parseCreateTable_complete statement enums :
  yields (parseCreateTable statement enums)
         (fun o => forall t, o = Some t -> tableComplete t).
Proof.
  unfold parseCreateTable.
  apply yields_tryCatch; [|intros e; apply yields_handler; intros ? [=]].
  destruct (Regex.exec tableNameRe statement); [|apply yields_mret; intros ? [=]].
  cbv zeta.
  destruct (Regex.exec contentRe statement); [|apply yields_mret; intros ? [=]].
  apply (yields_mbind _ _ (fun _ => True)); [apply yields_True|].
  intros content _.
  eapply yields_mbind; [apply parseParts_complete; constructor|].
  intros [columns constraints] Hr. apply yields_mret. intros t [= <-]. exact Hr.
Qed.

Lemma tablePass_complete enums statements :
  forall tables,
    Forall tableComplete tables ->
    yields (tablePass statements enums tables) (Forall tableComplete).
Proof.
  induction statements as [|statement rest IH]; intros tables Hts;
    cbn [tablePass].
  - by apply yields_mret.
  - destruct (JS.startsWith _ _); [|by apply IH].
    eapply yields_mbind; [apply parseCreateTable_complete|].
    intros o Ho. apply IH. destruct o as [t|]; [|exact Hts].
    apply Forall_app. split; [exact Hts|]. constructor; [by apply Ho | constructor].
Qed.

Lemma pushConstraint_complete name c tables :
  complete c -> Forall tableComplete tables ->
  Forall tableComplete (pushConstraint name c tables).
Proof.
  intros Hc. induction tables as [|t rest IH]; intros Hts; cbn [pushConstraint];
    [constructor|].
  inversion Hts as [|? ? Ht Hrest]; subst.
  destruct (String.eqb (tbl_name t) name).
  - constructor; [|exact Hrest]. unfold tableComplete. cbn [tbl_constraints].
    apply Forall_app. split; [exact Ht | constructor; [exact Hc | constructor]].
  - constructor; [exact Ht | by apply IH].
Qed.

Lemma parseAlterTableForeignKey_complete statement tables :
  Forall tableComplete tables ->
  yields (parseAlterTableForeignKey statement tables) (Forall tableComplete).
Proof.
  intros Hts. unfold parseAlterTableForeignKey.
  apply yields_tryCatch; [|intros e; by apply yields_handler].
  destruct (Regex.exec alterRe statement) as [m|] eqn:Em; [|by apply yields_mret].
  cbv zeta.
  destruct (CaptureFacts.alterNames_defined _ _ Em)
    as ((name & _ & ->) & _ & (r & Hr & ->) & _).
  apply yields_mret. apply pushConstraint_complete; [|exact Hts].
  split; [discriminate|]. intros _. cbn. eauto.
Qed.

Lemma alterPass_complete statements :
  forall tables,
    Forall tableComplete tables ->
    yields (alterPass statements tables) (Forall tableComplete).
Proof.
  induction statements as [|statement rest IH]; intros tables Hts;
    cbn [alterPass].
  - by apply yields_mret.
  - destruct (_ && _); [|by apply IH].
    eapply yields_mbind; [by apply parseAlterTableForeignKey_complete|].
    intros ts' Hts'. by apply IH.
Qed.

(** Every constraint that the parser gives is complete. *)
Lemma parseSQL_complete sql :
  yields (parseSQL sql) (fun r => Forall tableComplete (tables r)).
Proof.
  unfold parseSQL. cbv zeta.
  apply (yields_mbind _ _ (fun _ => True)); [apply yields_True|].
  intros es _.
  eapply yields_mbind; [apply tablePass_complete; constructor|].
  intros ts Hts.
  eapply yields_mbind; [by apply alterPass_complete|].
  intros ts' Hts'. by apply yields_mret.
Qed.

End ColumnFacts.

Module ReturnFacts.
Import PrismaGenerator GeneratorFacts.

Lemma head_complete c : complete c -> exists col, head (con_columns c) = Some col.
Proof. intros [H _]. destruct (con_columns c); [contradiction | by eexists]. Qed.

Lemma createRelationField_returns c t rn fnc :
  complete c -> exists o, createRelationField c t rn fnc = Ret o.
Proof.
  intros Hc. unfold createRelationField.
  destruct (con_referencedTable c); [|by eexists].
  destruct (con_referencedColumns c); [|by eexists].
  destruct (_ || _); [by eexists|].
  unfold generateUniqueFieldName. cbv zeta.
  destruct (head_complete c Hc) as [col ->].
  cbn [deref' mbind outcome_bind]. by eexists.
Qed.

Lemma addRelation_returns fnc t c st :
  complete c ->
  In (toPascalCase (tbl_name t)) (map model_name (gen_models st)) ->
  exists st', addRelation fnc t c st = Ret st'.
Proof.
  intros Hc Hin. unfold addRelation.
  destruct (con_referencedTable c) as [r|]; [|by eexists].
  destruct (_ && _); [|by eexists].
  destruct (head_complete c Hc) as [col ->].
  destruct (UnresolvedFacts.generateUniqueRelationName_Some
              (tbl_name t) r col (gen_relationCounter st)) as [rn ->].
  cbn [mbind outcome_bind].
  destruct (createRelationField_returns c t rn fnc Hc) as [o ->].
  cbn [mbind outcome_bind].
  destruct o as [field|].
  - destruct (pushField_is_Some _ field _ Hin) as [ms1 ->].
    cbn [deref' mbind outcome_bind]. by eexists.
  - cbn [mbind outcome_bind]. by eexists.
Qed.

Lemma addRelations_returns fnc t cs :
  Forall complete cs ->
  forall st,
    In (toPascalCase (tbl_name t)) (map model_name (gen_models st)) ->
    exists st', addRelations fnc t cs st = Ret st'.
Proof.
  induction 1 as [|c rest Hc Hrest IH]; intros st Hin; cbn [addRelations].
  - by eexists.
  - destruct (addRelation_returns fnc t c st Hc Hin) as [st1 E]. rewrite E.
    cbn [mbind outcome_bind]. apply IH.
    apply addRelation_shape, shape_names in E. by rewrite E.
Qed.

Lemma secondPass_returns fnc ts :
  Forall tableComplete ts ->
  forall st,
    Forall (fun t => In (toPascalCase (tbl_name t))
                        (map model_name (gen_models st))) ts ->
    exists st', secondPass fnc ts st = Ret st'.
Proof.
  induction 1 as [|t rest Ht Hrest IH]; intros st Hall; cbn [secondPass].
  - by eexists.
  - inversion Hall as [|? ? Hin Hall']; subst.
    destruct (addRelations_returns fnc t _ Ht st Hin) as [st1 E]. rewrite E.
    cbn [mbind outcome_bind]. apply IH.
    apply addRelations_shape, shape_names in E. by rewrite E.
Qed.

Lemma generatePrismaSchema_returns parseResult :
  Forall tableComplete (tables parseResult) ->
  exists text, generatePrismaSchema parseResult = Ret text.
Proof.
  intros H. unfold generatePrismaSchema, convertTablesToModels. cbv zeta.
  destruct (secondPass_returns ∅ (tables parseResult) H
              (mkGen (map (fun table =>
                             createBasicModel table
                               (convertEnumsToPrismaEnums (enums parseResult)))
                          (tables parseResult)) ∅)) as [st' E].
  - apply LookupFacts.firstPass_names.
  - rewrite E. cbn [mbind outcome_bind]. by eexists.
Qed.

End ReturnFacts.

(** The pipeline returns a text for every input. *)
Lemma convert_returns sql w : exists text w', convert sql w = (Ret text, w').
Proof.
  unfold convert.
  destruct (PassFacts.parseSQL_writes sql) as (r & l & Hw & _).
  pose proof (ColumnFacts.parseSQL_complete sql w r (w ++ l) (Hw w)) as Hcols.
  destruct (ReturnFacts.generatePrismaSchema_returns r Hcols) as [text E].
  exists text, (w ++ l).
  cbv [mbind M_bind bind]. rewrite Hw. unfold liftM. by rewrite E.
Qed.

Lemma convert_oblivious sql : oblivious (convert sql).
Proof.
  unfold convert. apply oblivious_mbind.
  - apply PassFacts.parseSQL_oblivious.
  - intros parseResult. apply oblivious_liftM.
Qed.

(** C9.  The outcome of [convert] does not depend on the console, the
    only state that outlives a call; and [convert] returns a text for
    every input.  So a first run and a second run on the same input,
    started on the console that the first run left, return the same
    text. *)
Theorem C9_convert_deterministic :
  forall (sql : string) (w0 : console),
    (forall w1 w2 : console, fst (convert sql w1) = fst (convert sql w2))
    /\ exists text,
        let first := convert sql w0 in
        let second := convert sql (snd first) in
        fst first = Ret text /\ fst second = Ret text.
Proof.
  intros sql w0. split.
  - intros w1 w2. apply oblivious_fst, convert_oblivious.
  - destruct (convert_returns sql w0) as (text & w' & E).
    exists text. cbv zeta. split; [by rewrite E|].
    rewrite (oblivious_fst _ _ w0 (convert_oblivious sql)). by rewrite E.
Qed.

(** * Further properties

    Properties of the functions above that the code itself shows.  *)

(** ** Strings *)

Module StringFacts.

Ltac ascii_cases c :=
  destruct c as [[] [] [] [] [] [] [] []]; vm_compute; reflexivity.

Lemma upperChar_idem c : JS.upperChar (JS.upperChar c) = JS.upperChar c.
Proof. ascii_cases c. Qed.

Lemma lowerChar_idem c : JS.lowerChar (JS.lowerChar c) = JS.lowerChar c.
Proof. ascii_cases c. Qed.

Lemma lowerChar_upperChar c : JS.lowerChar (JS.upperChar c) = JS.lowerChar c.
Proof. ascii_cases c. Qed.

Lemma upperChar_lowerChar c : JS.upperChar (JS.lowerChar c) = JS.upperChar c.
Proof. ascii_cases c. Qed.

Lemma upperChar_underscore c :
  Ascii.eqb (JS.upperChar c) "_" = Ascii.eqb c "_".
Proof. ascii_cases c. Qed.

Lemma lowerChar_underscore c :
  Ascii.eqb (JS.lowerChar c) "_" = Ascii.eqb c "_".
Proof. ascii_cases c. Qed.

Lemma app_String c a b : String c a +:+ b = String c (a +:+ b).
Proof. reflexivity. Qed.

Lemma app_empty b : EmptyString +:+ b = b.
Proof. reflexivity. Qed.

Lemma mapChars_app f a b :
  JS.mapChars f (a +:+ b) = JS.mapChars f a +:+ JS.mapChars f b.
Proof. induction a as [|c a IH]; rewrite ?app_String; simpl; [reflexivity | by rewrite IH]. Qed.

Lemma mapChars_mapChars f g s :
  JS.mapChars f (JS.mapChars g s) = JS.mapChars (fun c => f (g c)) s.
Proof. induction s as [|c s IH]; rewrite ?app_String; simpl; [reflexivity | by rewrite IH]. Qed.

Lemma mapChars_ext f g s :
  (forall c, f c = g c) -> JS.mapChars f s = JS.mapChars g s.
Proof. intros H. induction s as [|c s IH]; cbn; [reflexivity | by rewrite H, IH]. Qed.

Lemma toUpperCase_idem s : JS.toUpperCase (JS.toUpperCase s) = JS.toUpperCase s.
Proof.
  unfold JS.toUpperCase. rewrite mapChars_mapChars.
  apply mapChars_ext, upperChar_idem.
Qed.

Lemma toLowerCase_idem s : JS.toLowerCase (JS.toLowerCase s) = JS.toLowerCase s.
Proof.
  unfold JS.toLowerCase. rewrite mapChars_mapChars.
  apply mapChars_ext, lowerChar_idem.
Qed.

Lemma toLowerCase_toUpperCase s :
  JS.toLowerCase (JS.toUpperCase s) = JS.toLowerCase s.
Proof.
  unfold JS.toLowerCase, JS.toUpperCase. rewrite mapChars_mapChars.
  apply mapChars_ext, lowerChar_upperChar.
Qed.

Lemma toUpperCase_toLowerCase s :
  JS.toUpperCase (JS.toLowerCase s) = JS.toUpperCase s.
Proof.
  unfold JS.toLowerCase, JS.toUpperCase. rewrite mapChars_mapChars.
  apply mapChars_ext, upperChar_lowerChar.
Qed.

Lemma len_app a b : JS.len (a +:+ b) = JS.len a + JS.len b.
Proof. induction a as [|c a IH]; rewrite ?app_String; simpl; [reflexivity | by rewrite IH]. Qed.

Lemma len_mapChars f s : JS.len (JS.mapChars f s) = JS.len s.
Proof. induction s as [|c s IH]; rewrite ?app_String; simpl; [reflexivity | by rewrite IH]. Qed.

Lemma append_nil_r s : s +:+ "" = s.
Proof. induction s as [|c s IH]; rewrite ?app_String; simpl; [reflexivity | by rewrite IH]. Qed.

Lemma append_assoc a b c : (a +:+ b) +:+ c = a +:+ (b +:+ c).
Proof. induction a as [|x a IH]; rewrite ?app_String; simpl; [reflexivity | by rewrite IH]. Qed.

Lemma hasChar_app c a b : hasChar c (a +:+ b) = hasChar c a || hasChar c b.
Proof.
  induction a as [|x a IH]; rewrite ?app_String; cbn [hasChar]; [reflexivity|]. by rewrite IH, orb_assoc.
Qed.

Lemma includes_hasChar c s : JS.includes (String c "") s = hasChar c s.
Proof.
  unfold JS.includes, JS.indexOf. generalize 0 as pos.
  induction s as [|a s IH]; intros pos; cbn [JS.indexOfAt JS.startsWith hasChar].
  - reflexivity.
  - destruct (Ascii.eqb c a); [reflexivity|]. cbn [orb]. apply IH.
Qed.

Lemma hasChar_take c n s : hasChar c s = false -> hasChar c (JS.take n s) = false.
Proof.
  revert n. induction s as [|a s IH]; intros [|n] H; cbn in *; try reflexivity.
  apply orb_false_iff in H as [-> H]. cbn. by apply IH.
Qed.

Lemma hasChar_sliceFrom c n s :
  hasChar c s = false -> hasChar c (JS.sliceFrom n s) = false.
Proof.
  revert n. induction s as [|a s IH]; intros [|n] H; cbn in *; try done.
  apply orb_false_iff in H as [_ H]. by apply IH.
Qed.

Lemma concat_cons x xs : JS.concat (x :: xs) = x +:+ JS.concat xs.
Proof.
  unfold JS.concat. destruct xs as [|y xs]; cbn [JS.join].
  - by rewrite append_nil_r.
  - by rewrite app_empty.
Qed.

Lemma hasChar_concat c xs :
  Forall (fun x => hasChar c x = false) xs -> hasChar c (JS.concat xs) = false.
Proof.
  induction 1 as [|x xs Hx _ IH]; [reflexivity|].
  by rewrite concat_cons, hasChar_app, Hx, IH.
Qed.

Lemma hasChar_splitChar sep cur s :
  hasChar sep cur = false ->
  Forall (fun x => hasChar sep x = false) (JS.splitChar sep cur s).
Proof.
  revert cur. induction s as [|a s IH]; intros cur Hcur; cbn [JS.splitChar].
  - by constructor.
  - destruct (Ascii.eqb a sep) eqn:E.
    + constructor; [done | by apply IH].
    + apply IH. rewrite hasChar_app, Hcur. cbn [hasChar orb].
      by rewrite Ascii.eqb_sym, E.
Qed.

Lemma hasChar_mapChars c f s :
  (forall a, Ascii.eqb c (f a) = Ascii.eqb c a) ->
  hasChar c (JS.mapChars f s) = hasChar c s.
Proof.
  intros H. induction s as [|a s IH]; cbn [JS.mapChars hasChar]; [done|].
  by rewrite H, IH.
Qed.

Lemma take_mapChars f n s : JS.take n (JS.mapChars f s) = JS.mapChars f (JS.take n s).
Proof.
  revert n. induction s as [|a s IH]; intros [|n]; cbn [JS.take JS.mapChars]; try done.
  by rewrite IH.
Qed.

Lemma sliceFrom_mapChars f n s :
  JS.sliceFrom n (JS.mapChars f s) = JS.mapChars f (JS.sliceFrom n s).
Proof.
  revert n. induction s as [|a s IH]; intros [|n]; cbn [JS.sliceFrom JS.mapChars]; try done.
Qed.

Lemma splitChar_mapChars f sep cur s :
  (forall a, Ascii.eqb (f a) sep = Ascii.eqb a sep) ->
  JS.splitChar sep (JS.mapChars f cur) (JS.mapChars f s)
  = map (JS.mapChars f) (JS.splitChar sep cur s).
Proof.
  intros H. revert cur.
  induction s as [|a s IH]; intros cur; cbn [JS.splitChar JS.mapChars map]; [done|].
  rewrite H. destruct (Ascii.eqb a sep).
  - cbn [map]. f_equal. apply (IH EmptyString).
  - rewrite <- IH. by rewrite mapChars_app.
Qed.

End StringFacts.

Module CaseFacts.
Import PrismaGenerator StringFacts.

Lemma toPascalCase_capitalize str :
  toPascalCase str = JS.concat (map capitalize (JS.split "_" str)).
Proof. reflexivity. Qed.

Lemma capitalize_no_underscore word :
  hasChar "_" word = false -> hasChar "_" (capitalize word) = false.
Proof.
  intros H. unfold capitalize, JS.toUpperCase, JS.toLowerCase, JS.charAt0.
  rewrite hasChar_app, !hasChar_mapChars.
  - by rewrite hasChar_take, hasChar_sliceFrom.
  - intros a. by rewrite (Ascii.eqb_sym _ (JS.lowerChar a)), lowerChar_underscore, Ascii.eqb_sym.
  - intros a. by rewrite (Ascii.eqb_sym _ (JS.upperChar a)), upperChar_underscore, Ascii.eqb_sym.
Qed.

Lemma capitalize_toUpperCase word :
  capitalize (JS.toUpperCase word) = capitalize word.
Proof.
  unfold capitalize, JS.charAt0.
  replace (JS.take 1 (JS.toUpperCase word)) with (JS.toUpperCase (JS.take 1 word))
    by (symmetry; apply take_mapChars).
  replace (JS.sliceFrom 1 (JS.toUpperCase word))
    with (JS.toUpperCase (JS.sliceFrom 1 word))
    by (symmetry; apply sliceFrom_mapChars).
  by rewrite toUpperCase_idem, toLowerCase_toUpperCase.
Qed.

Lemma capitalize_toLowerCase word :
  capitalize (JS.toLowerCase word) = capitalize word.
Proof.
  unfold capitalize, JS.charAt0.
  replace (JS.take 1 (JS.toLowerCase word)) with (JS.toLowerCase (JS.take 1 word))
    by (symmetry; apply take_mapChars).
  replace (JS.sliceFrom 1 (JS.toLowerCase word))
    with (JS.toLowerCase (JS.sliceFrom 1 word))
    by (symmetry; apply sliceFrom_mapChars).
  by rewrite toLowerCase_idem, toUpperCase_toLowerCase.
Qed.

End CaseFacts.

(** X1.  [toPascalCase] splits its input on the underscores and joins the
    capitalized words with nothing between them: whatever the input, the
    result has no underscore. *)
Theorem toPascalCase_has_no_underscore (str : string) :
  JS.includes "_" (PrismaGenerator.toPascalCase str) = false.
Proof.
  rewrite StringFacts.includes_hasChar, CaseFacts.toPascalCase_capitalize.
  apply StringFacts.hasChar_concat, Forall_map.
  eapply Forall_impl; [apply StringFacts.hasChar_splitChar; reflexivity|].
  intros w. apply CaseFacts.capitalize_no_underscore.
Qed.

(** X2.  On a name within ASCII, [toPascalCase] and [toCamelCase] do
    not see the case of the letters, since every word is capitalized
    anew.  Two tables whose names are within ASCII and differ in case
    only get the same model name. *)
Theorem toPascalCase_ignores_case (str : string) :
  isASCII str = true ->
  PrismaGenerator.toPascalCase (JS.toUpperCase str) = PrismaGenerator.toPascalCase str
  /\ PrismaGenerator.toPascalCase (JS.toLowerCase str) = PrismaGenerator.toPascalCase str
  /\ PrismaGenerator.toCamelCase (JS.toUpperCase str) = PrismaGenerator.toCamelCase str
  /\ PrismaGenerator.toCamelCase (JS.toLowerCase str) = PrismaGenerator.toCamelCase str.
Proof.
  intros _.
  assert (U : PrismaGenerator.toPascalCase (JS.toUpperCase str)
              = PrismaGenerator.toPascalCase str).
  { rewrite !CaseFacts.toPascalCase_capitalize. unfold JS.split, JS.toUpperCase.
    change (JS.splitChar "_" EmptyString (JS.mapChars JS.upperChar str))
      with (JS.splitChar "_" (JS.mapChars JS.upperChar EmptyString)
              (JS.mapChars JS.upperChar str)).
    rewrite (StringFacts.splitChar_mapChars JS.upperChar "_" EmptyString str
               StringFacts.upperChar_underscore).
    rewrite map_map. f_equal. apply map_ext. intros w.
    apply CaseFacts.capitalize_toUpperCase. }
  assert (L : PrismaGenerator.toPascalCase (JS.toLowerCase str)
              = PrismaGenerator.toPascalCase str).
  { rewrite !CaseFacts.toPascalCase_capitalize. unfold JS.split, JS.toLowerCase.
    change (JS.splitChar "_" EmptyString (JS.mapChars JS.lowerChar str))
      with (JS.splitChar "_" (JS.mapChars JS.lowerChar EmptyString)
              (JS.mapChars JS.lowerChar str)).
    rewrite (StringFacts.splitChar_mapChars JS.lowerChar "_" EmptyString str
               StringFacts.lowerChar_underscore).
    rewrite map_map. f_equal. apply map_ext. intros w.
    apply CaseFacts.capitalize_toLowerCase. }
  unfold PrismaGenerator.toCamelCase. by rewrite U, L.
Qed.

(** The name [order_Items]. *)
Lemma toPascalCase_ignores_case_witness :
  PrismaGenerator.toPascalCase (JS.toUpperCase "order_Items")
  = PrismaGenerator.toPascalCase "order_Items"
  /\ PrismaGenerator.toPascalCase (JS.toLowerCase "order_Items")
     = PrismaGenerator.toPascalCase "order_Items"
  /\ PrismaGenerator.toCamelCase (JS.toUpperCase "order_Items")
     = PrismaGenerator.toCamelCase "order_Items"
  /\ PrismaGenerator.toCamelCase (JS.toLowerCase "order_Items")
     = PrismaGenerator.toCamelCase "order_Items".
Proof. apply (toPascalCase_ignores_case "order_Items"). reflexivity. Defined.

(** ** Plurals and types *)

Import StringFacts.

Module PluralFacts.
Import PrismaGenerator.

Lemma sliceFrom_app a n b :
  JS.sliceFrom (JS.len a + n) (a +:+ b) = JS.sliceFrom n b.
Proof.
  induction a as [|c a IH]; [reflexivity|].
  rewrite app_String. cbn [JS.len String.length Nat.add JS.sliceFrom]. apply IH.
Qed.

Lemma endsWith_app p a b :
  JS.endsWith p b = true -> JS.endsWith p (a +:+ b) = true.
Proof.
  unfold JS.endsWith. intros [Hlen Heq]%andb_true_iff.
  apply Nat.leb_le in Hlen. rewrite len_app.
  apply andb_true_iff. split; [apply Nat.leb_le; lia|].
  replace (JS.len a + JS.len b - JS.len p)
    with (JS.len a + (JS.len b - JS.len p)) by lia.
  by rewrite sliceFrom_app.
Qed.

Lemma pluralize_fixed word :
  JS.endsWith "s" (JS.toLowerCase word) = true -> pluralize word = word.
Proof. intros H. unfold pluralize. by rewrite H. Qed.

Lemma pluralize_ends_with_s word :
  JS.endsWith "s" (JS.toLowerCase (pluralize word)) = true.
Proof.
  unfold pluralize.
  destruct (JS.endsWith "s" (JS.toLowerCase word)) eqn:E; [exact E|].
  repeat match goal with
         | |- context [if ?b then _ else _] => destruct b
         end;
    unfold JS.toLowerCase; rewrite mapChars_app; by apply endsWith_app.
Qed.

End PluralFacts.

(** X3.  The word that [pluralize] gives ends, case apart, with an s,
    and [pluralize] leaves such a word as it is: pluralizing twice is
    pluralizing once. *)
Theorem pluralize_is_idempotent (word : string) :
  JS.endsWith "s" (JS.toLowerCase (PrismaGenerator.pluralize word)) = true
  /\ PrismaGenerator.pluralize (PrismaGenerator.pluralize word)
     = PrismaGenerator.pluralize word.
Proof.
  split; [apply PluralFacts.pluralize_ends_with_s|].
  apply PluralFacts.pluralize_fixed, PluralFacts.pluralize_ends_with_s.
Qed.

(** X4.  The type that [mapSQLTypeToPrismaType] gives is one of the six
    scalar types of the mapping, or the name of an enum of the list, which
    is then the PascalCase form of the SQL type.  Without enums the
    mapping does not see the case of the SQL type. *)
Theorem mapSQLTypeToPrismaType_range (sqlType : string) (enums : list PrismaEnum) :
  let type := PrismaGenerator.mapSQLTypeToPrismaType sqlType enums in
  (In type ["Int"; "String"; "Boolean"; "DateTime"; "Float"; "Json"]
   \/ exists enumDef, In enumDef enums /\ penum_name enumDef = type
        /\ type = PrismaGenerator.toPascalCase sqlType)
  /\ PrismaGenerator.mapSQLTypeToPrismaType (JS.toUpperCase sqlType) []
     = PrismaGenerator.mapSQLTypeToPrismaType sqlType []
  /\ PrismaGenerator.mapSQLTypeToPrismaType (JS.toLowerCase sqlType) []
     = PrismaGenerator.mapSQLTypeToPrismaType sqlType [].
Proof.
  cbv zeta. split; [|split].
  - unfold PrismaGenerator.mapSQLTypeToPrismaType.
    destruct (find _ enums) as [e|] eqn:E.
    + right. apply find_some in E as [Hin Heq]. apply String.eqb_eq in Heq.
      exists e. by rewrite <- Heq.
    + left. repeat match goal with
                   | |- context [if ?b then _ else _] => destruct b
                   end; cbn; tauto.
  - unfold PrismaGenerator.mapSQLTypeToPrismaType. cbn [find].
    by rewrite toUpperCase_idem.
  - unfold PrismaGenerator.mapSQLTypeToPrismaType. cbn [find].
    by rewrite toUpperCase_toLowerCase.
Qed.

(** ** The form of what the parser gives *)

Module ShapeFacts.
Import SQLParser ColumnFacts.

Lemma parseColumn_parsed columnDef table enums :
  Forall parsedConstraint (ctx_constraints table) ->
  yields (parseColumn columnDef table enums)
         (fun r => (forall c, fst r = Some c -> parsedColumn c)
                   /\ Forall parsedConstraint (snd r)).
Proof.
  intros Hctx. unfold parseColumn.
  apply yields_tryCatch;
    [|intros e; apply yields_handler; split; [intros ? [=] | exact Hctx]].
  cbv zeta.
  match goal with
  | |- yields (match ?x with _ => _ end) _ => destruct x as [[name remainingDef]|]
  end; [|apply yields_mret; split; [intros ? [=] | exact Hctx]].
  destruct (Regex.split whitespaceRe remainingDef) as [|type0 ?];
    [apply yields_mret; split; [intros ? [=] | exact Hctx]|].
  apply (yields_mbind _ _ (fun _ => True)); [apply yields_True|].
  intros [type1 len] _.
  apply (yields_mbind _ _ (Forall parsedConstraint)).
  - destruct (Regex.exec referencesRe columnDef) as [m|] eqn:Em;
      [|by apply yields_mret].
    destruct (CaptureFacts.exec_captures 1 2 _ _ _
                CaptureFacts.referencesRe_captures Em) as (r & Hr & ->).
    apply (yields_mbind _ _ (fun _ => True)); [apply yields_True|].
    intros cols _. apply yields_mret. apply Forall_app. split; [exact Hctx|].
    constructor; [|constructor].
    split; [discriminate|]. cbn. split; [eauto|].
    eexists. split; [reflexivity | apply map_split_nonempty].
  - intros cs Hcs. apply yields_mret. split; [|exact Hcs].
    intros c [= <-]. split; cbn.
    + intros ->. by rewrite orb_true_r, andb_false_r.
    + eexists. split; [reflexivity|]. intros ->.
      apply StringFacts.toUpperCase_idem.
Qed.

Lemma parseConstraint_parsed constraintDef :
  yields (parseConstraint constraintDef)
         (fun o => forall c, o = Some c -> parsedConstraint c).
Proof.
  unfold parseConstraint.
  apply yields_tryCatch;
    [|intros e; apply yields_handler; intros ? [=]].
  cbv zeta.
  assert (yields
            (if JS.includes "FOREIGN KEY" (JS.toUpperCase constraintDef)
             then
               match Regex.exec foreignKeyRe constraintDef with
               | Some fkMatch =>
                   cols ← deref "split" (Regex.group 1 fkMatch);
                   refs ← deref "split" (Regex.group 3 fkMatch);
                   mret (Some (mkConstraint FOREIGN_KEY
                                 (map JS.trim (JS.split comma cols))
                                 (Regex.group 2 fkMatch)
                                 (Some (map JS.trim (JS.split comma refs)))))
               | None => mret None
               end
             else mret None)
            (fun o => forall c, o = Some c -> parsedConstraint c)) as Hforeign.
  { destruct (JS.includes _ _); [|apply yields_mret; intros ? [=]].
    destruct (Regex.exec foreignKeyRe constraintDef) as [m|] eqn:Em;
      [|apply yields_mret; intros ? [=]].
    destruct (CaptureFacts.exec_captures1 2 _ _ _
                CaptureFacts.foreignKeyRe_captures Em) as (r & Hr & ->).
    apply (yields_mbind _ _ (fun _ => True)); [apply yields_True|].
    intros cols _.
    apply (yields_mbind _ _ (fun _ => True)); [apply yields_True|].
    intros refs _. apply yields_mret. intros c [= <-].
    split; [apply map_split_nonempty|]. cbn. split; [eauto|].
    eexists. split; [reflexivity | apply map_split_nonempty]. }
  destruct (JS.includes "PRIMARY KEY" _); [|exact Hforeign].
  destruct (Regex.exec primaryKeyRe constraintDef); [|exact Hforeign].
  apply (yields_mbind _ _ (fun _ => True)); [apply yields_True|].
  intros cols _. apply yields_mret. intros c [= <-].
  split; [apply map_split_nonempty|]. by cbn.
Qed.

Lemma parseParts_parsed tableName enums parts :
  forall columns constraints,
    Forall parsedColumn columns ->
    Forall parsedConstraint constraints ->
    yields (parseParts tableName enums parts columns constraints)
           (fun r => Forall parsedColumn (fst r)
                     /\ Forall parsedConstraint (snd r)).
Proof.
  induction parts as [|part rest IH]; intros columns constraints Hcols Hcs;
    cbn [parseParts].
  - by apply yields_mret.
  - destruct (isConstraintDefinition (JS.trim part)).
    + eapply yields_mbind; [apply parseConstraint_parsed|].
      intros o Ho. apply IH; [exact Hcols|]. destruct o as [c|]; [|exact Hcs].
      apply Forall_app. split; [exact Hcs|].
      constructor; [by apply Ho | constructor].
    + eapply yields_mbind;
        [apply (parseColumn_parsed _ (mkCtx tableName columns constraints));
         exact Hcs|].
      intros [column cs] [Hcol Hr]. apply IH; [|exact Hr].
      destruct column as [c|]; [|exact Hcols].
      apply Forall_app. split; [exact Hcols|].
      constructor; [by apply Hcol | constructor].
Qed.

Lemma parseCreateTable_parsed statement enums :
  yields (parseCreateTable statement enums)
         (fun o => forall t, o = Some t -> parsedTable t).
Proof.
  unfold parseCreateTable.
  apply yields_tryCatch; [|intros e; apply yields_handler; intros ? [=]].
  destruct (Regex.exec tableNameRe statement) as [m|] eqn:Em;
    [|apply yields_mret; intros ? [=]].
  cbv zeta.
  destruct (CaptureFacts.tableName_defined _ _ Em) as (v & Hv & ->).
  destruct (Regex.exec contentRe statement); [|apply yields_mret; intros ? [=]].
  apply (yields_mbind _ _ (fun _ => True)); [apply yields_True|].
  intros content _.
  eapply yields_mbind; [apply parseParts_parsed; constructor|].
  intros [columns constraints] [Hcols Hcs]. apply yields_mret.
  intros t [= <-]. by split.
Qed.

Lemma tablePass_parsed enums statements :
  forall tables,
    Forall parsedTable tables ->
    yields (tablePass statements enums tables) (Forall parsedTable).
Proof.
  induction statements as [|statement rest IH]; intros tables Hts;
    cbn [tablePass].
  - by apply yields_mret.
  - destruct (JS.startsWith _ _); [|by apply IH].
    eapply yields_mbind; [apply parseCreateTable_parsed|].
    intros o Ho. apply IH. destruct o as [t|]; [|exact Hts].
    apply Forall_app. split; [exact Hts|].
    constructor; [by apply Ho | constructor].
Qed.

Lemma pushConstraint_parsed name c tables :
  parsedConstraint c -> Forall parsedTable tables ->
  Forall parsedTable (pushConstraint name c tables).
Proof.
  intros Hc. induction tables as [|t rest IH]; intros Hts; cbn [pushConstraint];
    [constructor|].
  inversion Hts as [|? ? Ht Hrest]; subst.
  destruct (String.eqb (tbl_name t) name).
  - constructor; [|exact Hrest]. destruct Ht as (Hn & Hcols & Hcs).
    split; [exact Hn|]. split; [exact Hcols|]. cbn [tbl_constraints].
    apply Forall_app. split; [exact Hcs | constructor; [exact Hc | constructor]].
  - constructor; [exact Ht | by apply IH].
Qed.

Lemma parseAlterTableForeignKey_parsed statement tables :
  Forall parsedTable tables ->
  yields (parseAlterTableForeignKey statement tables) (Forall parsedTable).
Proof.
  intros Hts. unfold parseAlterTableForeignKey.
  apply yields_tryCatch; [|intros e; by apply yields_handler].
  destruct (Regex.exec alterRe statement) as [m|] eqn:Em; [|by apply yields_mret].
  cbv zeta.
  destruct (CaptureFacts.alterNames_defined _ _ Em)
    as ((name & _ & ->) & _ & (r & Hr & ->) & _).
  apply yields_mret. apply pushConstraint_parsed; [|exact Hts].
  split; [discriminate|]. cbn. split; [eauto|].
  eexists. split; [reflexivity | discriminate].
Qed.

Lemma alterPass_parsed statements :
  forall tables,
    Forall parsedTable tables ->
    yields (alterPass statements tables) (Forall parsedTable).
Proof.
  induction statements as [|statement rest IH]; intros tables Hts;
    cbn [alterPass].
  - by apply yields_mret.
  - destruct (_ && _); [|by apply IH].
    eapply yields_mbind; [by apply parseAlterTableForeignKey_parsed|].
    intros ts' Hts'. by apply IH.
Qed.

Lemma parseCreateEnum_parsed statement :
  yields (parseCreateEnum statement)
         (fun o => forall e, o = Some e -> parsedEnum e).
Proof.
  unfold parseCreateEnum.
  apply yields_tryCatch; [|intros e; apply yields_handler; intros ? [=]].
  destruct (Regex.exec enumRe statement) as [m|] eqn:Em;
    [|apply yields_mret; intros ? [=]].
  cbv zeta.
  destruct (CaptureFacts.enumName_defined _ _ Em) as (v & Hv & ->).
  apply (yields_mbind _ _ (fun _ => True)); [apply yields_True|].
  intros valuesString _. apply yields_mret. intros e [= <-].
  split; [exact Hv|]. cbn [enum_values].
  apply Forall_forall. intros value [Hlen _]%list_elem_of_filter.
  intros ->. cbn in Hlen. lia.
Qed.

Lemma enumPass_parsed statements :
  forall enums,
    Forall parsedEnum enums ->
    yields (enumPass statements enums) (Forall parsedEnum).
Proof.
  induction statements as [|statement rest IH]; intros enums Hes;
    cbn [enumPass].
  - by apply yields_mret.
  - destruct (_ && _); [|by apply IH].
    eapply yields_mbind; [apply parseCreateEnum_parsed|].
    intros o Ho. apply IH. destruct o as [e|]; [|exact Hes].
    apply Forall_app. split; [exact Hes|].
    constructor; [by apply Ho | constructor].
Qed.

Lemma parseSQL_parsed sql :
  yields (parseSQL sql)
         (fun r => Forall parsedTable (tables r) /\ Forall parsedEnum (enums r)).
Proof.
  unfold parseSQL. cbv zeta.
  eapply yields_mbind; [apply enumPass_parsed; constructor|].
  intros es Hes.
  eapply yields_mbind; [apply tablePass_parsed; constructor|].
  intros ts Hts.
  eapply yields_mbind; [by apply alterPass_parsed|].
  intros ts' Hts'. by apply yields_mret.
Qed.

End ShapeFacts.

(** X5.  Whatever the input, [parseSQL] returns, and every constraint of
    every table has one of two forms: a PRIMARY KEY with at least one
    column and no reference, or a FOREIGN KEY with at least one column, a
    referenced table that is not empty and at least one referenced
    column.  The parser gives no UNIQUE and no CHECK constraint. *)
Theorem parseSQL_constraints_have_two_forms (sql : string) (w : console) :
  exists r w',
    SQLParser.parseSQL sql w = (Ret r, w')
    /\ Forall (fun t => Forall parsedConstraint (tbl_constraints t)) (tables r).
Proof.
  destruct (PassFacts.parseSQL_writes sql) as (r & l & Hw & _).
  exists r, (w ++ l). split; [apply Hw|].
  destruct (ShapeFacts.parseSQL_parsed sql w r (w ++ l) (Hw w)) as [Hts _].
  eapply Forall_impl; [exact Hts|]. by intros t (_ & _ & H).
Qed.

(** X6.  Whatever the input, [parseSQL] returns, and in every column of
    every table a primary key is unique and not nullable, [isEnum] is
    set, and the type is in upper case unless it names an enum. *)
Theorem parseSQL_column_flags (sql : string) (w : console) :
  exists r w',
    SQLParser.parseSQL sql w = (Ret r, w')
    /\ Forall (fun t => Forall parsedColumn (tbl_columns t)) (tables r).
Proof.
  destruct (PassFacts.parseSQL_writes sql) as (r & l & Hw & _).
  exists r, (w ++ l). split; [apply Hw|].
  destruct (ShapeFacts.parseSQL_parsed sql w r (w ++ l) (Hw w)) as [Hts _].
  eapply Forall_impl; [exact Hts|]. by intros t (_ & H & _).
Qed.

(** X7.  Whatever the input, [parseSQL] returns; no table and no enum of
    the result has an empty name, and no enum has an empty value. *)
Theorem parseSQL_names_not_empty (sql : string) (w : console) :
  exists r w',
    SQLParser.parseSQL sql w = (Ret r, w')
    /\ Forall (fun t => tbl_name t <> "") (tables r)
    /\ Forall (fun e => enum_name e <> ""
                        /\ Forall (fun value => value <> "") (enum_values e))
              (enums r).
Proof.
  destruct (PassFacts.parseSQL_writes sql) as (r & l & Hw & _).
  exists r, (w ++ l). split; [apply Hw|].
  destruct (ShapeFacts.parseSQL_parsed sql w r (w ++ l) (Hw w)) as [Hts Hes].
  split; [|exact Hes].
  eapply Forall_impl; [exact Hts|]. by intros t (H & _).
Qed.

Module AlterFacts.
Import SQLParser.

Lemma pushConstraint_absent name c tables :
  Forall (fun t => tbl_name t <> name) tables ->
  pushConstraint name c tables = tables.
Proof.
  induction 1 as [|t rest Ht _ IH]; cbn [pushConstraint]; [reflexivity|].
  apply String.eqb_neq in Ht. by rewrite Ht, IH.
Qed.

Lemma pushConstraint_first name c tables :
  Forall (fun t => tbl_name t <> name) tables
  \/ exists before t after,
      tables = before ++ t :: after
      /\ tbl_name t = name
      /\ Forall (fun t0 => tbl_name t0 <> name) before
      /\ pushConstraint name c tables
         = before ++ mkTable (tbl_name t) (tbl_columns t)
                       (tbl_constraints t ++ [c]) :: after.
Proof.
  induction tables as [|t rest IH]; [left; constructor|].
  cbn [pushConstraint]. destruct (String.eqb (tbl_name t) name) eqn:E.
  - right. exists [], t, rest. apply String.eqb_eq in E. by repeat split.
  - apply String.eqb_neq in E. destruct IH as [IH | (before & t1 & after & IH)].
    + left. by constructor.
    + right. destruct IH as (-> & Hn & Hb & ->).
      exists (t :: before), t1, after. repeat split; try done. by constructor.
Qed.

End AlterFacts.

(** X8.  [parseAlterTableForeignKey] never throws and writes nothing on
    the console.  When the pattern matches nowhere in the statement the
    tables stay as they are.  When it matches, the name of the table,
    the column, the referenced table and the referenced column are the
    groups of the match, none of them empty; when no table has that name
    the tables stay as they are, and otherwise the FOREIGN KEY constraint
    on that column and that reference is pushed at the end of the
    constraints of the first table of that name, and nothing else
    changes. *)
Theorem parseAlterTableForeignKey_pushes_on_first_table
        (statement : string) (tables : list SQLTable) (w : console) :
  exists tables',
    SQLParser.parseAlterTableForeignKey statement tables w = (Ret tables', w)
    /\ match Regex.exec SQLParser.alterRe statement with
       | None => tables' = tables
       | Some fkMatch =>
           exists name column referencedTable referencedColumn,
             JS.orElse (Regex.group 1 fkMatch) (Regex.group 2 fkMatch)
             = Some name
             /\ JS.orElse (Regex.group 3 fkMatch) (Regex.group 4 fkMatch)
                = Some column
             /\ JS.orElse (Regex.group 5 fkMatch) (Regex.group 6 fkMatch)
                = Some referencedTable
             /\ JS.orElse (Regex.group 7 fkMatch) (Regex.group 8 fkMatch)
                = Some referencedColumn
             /\ name <> "" /\ column <> "" /\ referencedTable <> ""
             /\ referencedColumn <> ""
             /\ ((Forall (fun t => tbl_name t <> name) tables
                  /\ tables' = tables)
                 \/ exists before t after,
                     tables = before ++ t :: after
                     /\ tbl_name t = name
                     /\ Forall (fun t0 => tbl_name t0 <> name) before
                     /\ tables'
                        = before
                            ++ mkTable (tbl_name t) (tbl_columns t)
                                 (tbl_constraints t
                                    ++ [mkConstraint FOREIGN_KEY [column]
                                          (Some referencedTable)
                                          (Some [referencedColumn])])
                            :: after)
       end.
Proof.
  unfold SQLParser.parseAlterTableForeignKey, tryCatch.
  destruct (Regex.exec SQLParser.alterRe statement) as [m|] eqn:Em;
    [|by exists tables].
  cbv zeta.
  destruct (CaptureFacts.alterNames_defined _ _ Em)
    as ((name & Hname & En) & (col & Hcol & Ec) & (r & Hr & Er)
        & (rc & Hrc & Erc)).
  rewrite En, Ec, Er, Erc.
  unfold JS.defined. cbn [default from_option id]. eexists. split; [reflexivity|].
  exists name, col, r, rc. do 8 (split; [done|]).
  destruct (AlterFacts.pushConstraint_first name
              (mkConstraint FOREIGN_KEY [col] (Some r) (Some [rc])) tables)
    as [Habs | (before & t & after & -> & Hn & Hb & ->)].
  - left. split; [exact Habs|]. by apply AlterFacts.pushConstraint_absent.
  - right. exists before, t, after. by repeat split.
Qed.

(** ** The second pass appends relation fields *)

Module RelationFacts.
Import PrismaGenerator GeneratorFacts StringFacts.

Lemma startsWith_app p a x :
  JS.startsWith p a = true -> JS.startsWith p (a +:+ x) = true.
Proof.
  revert a. induction p as [|c p IH]; intros a H; [reflexivity|].
  destruct a as [|d a]; [discriminate|].
  rewrite app_String. cbn [JS.startsWith] in *.
  destruct (Ascii.eqb c d); [by apply IH | discriminate].
Qed.

Lemma includes_startsWith p s : JS.startsWith p s = true -> JS.includes p s = true.
Proof.
  intros H. unfold JS.includes, JS.indexOf.
  destruct s; cbn [JS.indexOfAt]; by rewrite H.
Qed.

Lemma relation_attribute rest :
  JS.includes "@relation" (JS.concat ("@relation(" :: rest)) = true.
Proof.
  rewrite concat_cons. by apply includes_startsWith, startsWith_app.
Qed.

Lemma hasChar_toPascalCase str : hasChar "_" (toPascalCase str) = false.
Proof.
  rewrite CaseFacts.toPascalCase_capitalize.
  apply hasChar_concat, Forall_map.
  eapply Forall_impl; [apply hasChar_splitChar; reflexivity|].
  intros w. apply CaseFacts.capitalize_no_underscore.
Qed.

Lemma hasChar_toCamelCase str : hasChar "_" (toCamelCase str) = false.
Proof.
  unfold toCamelCase. cbv zeta.
  pose proof (hasChar_toPascalCase str) as H.
  unfold JS.charAt0, JS.toLowerCase.
  rewrite hasChar_app, hasChar_mapChars.
  - by rewrite hasChar_take, hasChar_sliceFrom.
  - intros a. by rewrite (Ascii.eqb_sym _ (JS.lowerChar a)), lowerChar_underscore,
      Ascii.eqb_sym.
Qed.

Lemma hasChar_pluralize word :
  hasChar "_" word = false -> hasChar "_" (pluralize word) = false.
Proof.
  intros H. unfold pluralize. cbv zeta.
  repeat match goal with
         | |- context [if ?b then _ else _] => destruct b
         end;
    rewrite ?hasChar_app; unfold JS.dropLast; rewrite ?hasChar_take, ?H;
    reflexivity || assumption.
Qed.

Lemma createRelationField_pushedField c t rn fnc f :
  createRelationField c t rn fnc = Ret (Some f) -> pushedField f.
Proof.
  unfold createRelationField.
  destruct (con_referencedTable c) as [r|]; [|discriminate].
  destruct (con_referencedColumns c); [|discriminate].
  destruct (_ || _); [discriminate|].
  unfold generateUniqueFieldName. cbv zeta.
  destruct (head (con_columns c)) as [col|]; [|discriminate].
  cbn [deref' mbind outcome_bind mret outcome_ret]. intros [= <-].
  split.
  - unfold isRelationField. cbn [field_attributes existsb].
    by rewrite relation_attribute.
  - cbn [field_name]. unfold extractRelationFieldName.
    repeat match goal with
           | |- context [if ?b then _ else _] => destruct b
           end; apply hasChar_toCamelCase.
Qed.

Lemma createBackRelationField_pushedField c t rn fnc b :
  createBackRelationField c t rn fnc = Some b -> pushedField b.
Proof.
  unfold createBackRelationField.
  destruct (con_columns c); [discriminate|].
  destruct (negb _); [discriminate|].
  cbv zeta. intros [= <-].
  split.
  - unfold isRelationField. cbn [field_attributes existsb].
    by rewrite relation_attribute.
  - cbn [field_name].
    destruct (1 <? _).
    + by rewrite hasChar_app, hasChar_pluralize, hasChar_toPascalCase
        by apply hasChar_toCamelCase.
    + apply hasChar_pluralize, hasChar_toCamelCase.
Qed.

Lemma appended_refl m : appended m m.
Proof.
  split; [reflexivity|]. split; [reflexivity|].
  exists []. by rewrite List.app_nil_r.
Qed.

Lemma appended_trans m1 m2 m3 : appended m1 m2 -> appended m2 m3 -> appended m1 m3.
Proof.
  intros (Hn & Ha & x & Hx & Hfx) (Hn' & Ha' & y & Hy & Hfy).
  split; [congruence|]. split; [congruence|].
  exists (x ++ y). split; [by rewrite Hy, Hx, List.app_assoc|].
  apply Forall_app. by split.
Qed.

Lemma Forall2_appended_refl ms : Forall2 appended ms ms.
Proof. induction ms; constructor; [apply appended_refl | assumption]. Qed.

Lemma Forall2_appended_trans ms1 ms2 ms3 :
  Forall2 appended ms1 ms2 -> Forall2 appended ms2 ms3 ->
  Forall2 appended ms1 ms3.
Proof.
  intros H. revert ms3. induction H as [|m1 m2 r1 r2 Hm _ IH]; intros ms3 H3.
  - inversion H3; subst. constructor.
  - inversion H3; subst. constructor; [by eapply appended_trans | by apply IH].
Qed.

Lemma pushField_appended name f ms ms' :
  pushedField f ->
  pushField name f ms = Some ms' -> Forall2 appended ms ms'.
Proof.
  intros Hf H.
  destruct (pushField_inv _ _ _ _ H) as (before & m & after & -> & -> & _ & _).
  apply Forall2_app; [apply Forall2_appended_refl|].
  constructor; [|apply Forall2_appended_refl].
  split; [reflexivity|]. split; [reflexivity|].
  exists [f]. split; [reflexivity|]. by constructor.
Qed.

Lemma addRelation_appended fnc t c st st' :
  addRelation fnc t c st = Ret st' ->
  Forall2 appended (gen_models st) (gen_models st').
Proof.
  unfold addRelation. intros H.
  destruct (con_referencedTable c) as [r|];
    [|outcome_inv; apply Forall2_appended_refl].
  destruct (_ && _); [|outcome_inv; apply Forall2_appended_refl].
  destruct (generateUniqueRelationName _ _ _ _) as [[rn rc]|e];
    [|discriminate H].
  cbn [mbind outcome_bind] in H.
  destruct (createRelationField c t rn fnc) as [rf|e] eqn:Ef; [|discriminate H].
  cbn [mbind outcome_bind] in H.
  assert (exists ms1,
             Forall2 appended (gen_models st) ms1
             /\ match rf with
                | Some field =>
                    deref' "fields"
                      (pushField (toPascalCase (tbl_name t)) field (gen_models st))
                | None => mret (gen_models st)
                end = Ret ms1) as (ms1 & Hms1 & E).
  { destruct rf as [field|].
    - destruct (pushField _ field _) as [ms1|] eqn:E; [|discriminate H].
      exists ms1. split; [|reflexivity].
      eapply pushField_appended; [|exact E].
      by eapply createRelationField_pushedField.
    - exists (gen_models st). split; [apply Forall2_appended_refl | reflexivity]. }
  rewrite E in H. cbn [mbind outcome_bind] in H.
  inversion H; subst; clear H. cbn [gen_models].
  eapply Forall2_appended_trans; [exact Hms1|].
  destruct (createBackRelationField c t rn fnc) as [b|] eqn:Eb;
    [|apply Forall2_appended_refl].
  destruct (pushField (toPascalCase r) b ms1) as [ms2|] eqn:E2; cbn [default from_option id].
  - eapply pushField_appended; [|exact E2].
    by eapply createBackRelationField_pushedField.
  - apply Forall2_appended_refl.
Qed.

Lemma addRelations_appended fnc t cs :
  forall st st',
    addRelations fnc t cs st = Ret st' ->
    Forall2 appended (gen_models st) (gen_models st').
Proof.
  induction cs as [|c rest IH]; intros st st' H; cbn [addRelations] in H.
  - outcome_inv. apply Forall2_appended_refl.
  - destruct (addRelation fnc t c st) as [st1|e] eqn:E; [|discriminate H].
    cbn [mbind outcome_bind] in H.
    eapply Forall2_appended_trans; [by eapply addRelation_appended | by apply IH].
Qed.

Lemma secondPass_appended fnc ts :
  forall st st',
    secondPass fnc ts st = Ret st' ->
    Forall2 appended (gen_models st) (gen_models st').
Proof.
  induction ts as [|t rest IH]; intros st st' H; cbn [secondPass] in H.
  - outcome_inv. apply Forall2_appended_refl.
  - destruct (addRelations fnc t (tbl_constraints t) st) as [st1|e] eqn:E;
      [|discriminate H].
    cbn [mbind outcome_bind] in H.
    eapply Forall2_appended_trans; [by eapply addRelations_appended | by apply IH].
Qed.

Lemma convertTablesToModels_appended tables enums ms :
  convertTablesToModels tables enums = Ret ms ->
  Forall2 (fun t m => appended (createBasicModel t enums) m) tables ms.
Proof.
  unfold convertTablesToModels. cbv zeta. intros H.
  destruct (secondPass _ _ _) as [st|e] eqn:E; [|discriminate H].
  cbn [mbind outcome_bind] in H. outcome_inv.
  apply secondPass_appended in E. cbn [gen_models] in E.
  by apply (Forall2_fmap_l (fun table => createBasicModel table enums)) in E.
Qed.

Lemma convertTablesToModels_returns tables enums :
  Forall tableComplete tables ->
  exists ms, convertTablesToModels tables enums = Ret ms.
Proof.
  intros H. unfold convertTablesToModels. cbv zeta.
  destruct (ReturnFacts.secondPass_returns ∅ tables H
              (mkGen (map (fun table => createBasicModel table enums) tables) ∅))
    as [st' E].
  - apply LookupFacts.firstPass_names.
  - rewrite E. cbn [mbind outcome_bind]. by eexists.
Qed.

End RelationFacts.

(** X9.  Whatever the input, the parser and the generator return, with
    one model per table, in order; the fields of a model are the fields
    of the columns of its table, in the order of the columns, and after
    them the fields that the second pass pushed, each of which
    [isRelationField] recognizes. *)
Theorem columns_first_then_relation_fields (sql : string) (w : console) :
  exists parseResult w' models,
    SQLParser.parseSQL sql w = (Ret parseResult, w')
    /\ modelsOf parseResult = Ret models
    /\ Forall2
         (fun table model =>
            exists relations,
              model_fields model
              = map (fun column =>
                       PrismaGenerator.convertColumnToField column table
                         (PrismaGenerator.convertEnumsToPrismaEnums
                            (enums parseResult)))
                    (tbl_columns table)
                ++ relations
              /\ Forall (fun f => PrismaGenerator.isRelationField f = true)
                        relations)
         (tables parseResult) models.
Proof.
  destruct (PassFacts.parseSQL_writes sql) as (r & l & Hw & _).
  pose proof (ColumnFacts.parseSQL_complete sql w r (w ++ l) (Hw w)) as Hc.
  destruct (RelationFacts.convertTablesToModels_returns (tables r)
              (PrismaGenerator.convertEnumsToPrismaEnums (enums r)) Hc)
    as [ms Hms].
  exists r, (w ++ l), ms. split; [apply Hw|]. split; [exact Hms|].
  apply RelationFacts.convertTablesToModels_appended in Hms.
  eapply Forall2_impl; [exact Hms|].
  intros t m (_ & _ & relations & H & Hall).
  exists relations. split; [exact H|].
  eapply Forall_impl; [exact Hall|]. by intros f [Hf _].
Qed.

(** X19.  Whatever the input, no model name and no field name of the
    generated models has an underscore: the names of the scalar fields,
    of the forward fields and of the back-relation fields all come from
    [toCamelCase], [toPascalCase] and [pluralize]. *)
Theorem generated_names_have_no_underscore (sql : string) (w : console) :
  exists parseResult w' models,
    SQLParser.parseSQL sql w = (Ret parseResult, w')
    /\ modelsOf parseResult = Ret models
    /\ Forall (fun model =>
                 JS.includes "_" (model_name model) = false
                 /\ Forall (fun field =>
                              JS.includes "_" (field_name field) = false)
                           (model_fields model))
              models.
Proof.
  destruct (PassFacts.parseSQL_writes sql) as (r & l & Hw & _).
  pose proof (ColumnFacts.parseSQL_complete sql w r (w ++ l) (Hw w)) as Hc.
  destruct (RelationFacts.convertTablesToModels_returns (tables r)
              (PrismaGenerator.convertEnumsToPrismaEnums (enums r)) Hc)
    as [ms Hms].
  exists r, (w ++ l), ms. split; [apply Hw|]. split; [exact Hms|].
  apply RelationFacts.convertTablesToModels_appended in Hms.
  eapply Forall2_Forall_r; [exact Hms|].
  apply Forall_forall. intros t _ m (Hn & _ & relations & Hf & Hall).
  split.
  - rewrite Hn, StringFacts.includes_hasChar.
    apply RelationFacts.hasChar_toPascalCase.
  - rewrite Hf. apply Forall_app. split.
    + cbn [PrismaGenerator.createBasicModel model_fields]. apply Forall_map.
      apply Forall_forall. intros column _.
      rewrite StringFacts.includes_hasChar.
      apply RelationFacts.hasChar_toCamelCase.
    + eapply Forall_impl; [exact Hall|]. intros f [_ Hf'].
      by rewrite StringFacts.includes_hasChar.
Qed.

(** ** One constraint in the second pass *)

(** X10.  A FOREIGN KEY constraint with a referenced table and no column
    adds no field to any model.  When the pair of the source and the
    target has not been seen, the loop body only counts it; when it has,
    the first column, which is [undefined], is dereferenced and the body
    throws. *)
Theorem foreign_key_without_columns
        (fnc : PrismaGenerator.fieldCounters) (t : SQLTable) (c : SQLConstraint)
        (st : PrismaGenerator.genState) (r : string) :
  con_type c = FOREIGN_KEY ->
  con_referencedTable c = Some r -> r <> "" ->
  con_columns c = [] ->
  let baseName :=
    JS.concat [PrismaGenerator.toPascalCase (tbl_name t); "To";
               PrismaGenerator.toPascalCase r] in
  let count := default 0 (PrismaGenerator.gen_relationCounter st !! baseName) in
  PrismaGenerator.addRelation fnc t c st
  = if 0 <? count then Throw (TypeError "replace")
    else Ret (PrismaGenerator.mkGen (PrismaGenerator.gen_models st)
                (<[baseName := count + 1]>
                   (PrismaGenerator.gen_relationCounter st))).
Proof.
  intros Htype Hr Hne Hc. cbv zeta.
  unfold PrismaGenerator.addRelation.
  rewrite Hr, Htype, (UnresolvedFacts.truthy_nonempty _ Hne).
  rewrite bool_decide_eq_true_2 by reflexivity. cbn [andb].
  rewrite Hc. cbn [head].
  unfold PrismaGenerator.generateUniqueRelationName. cbv zeta.
  destruct (0 <? _); [reflexivity|].
  cbn [mbind outcome_bind mret outcome_ret].
  unfold PrismaGenerator.createRelationField, PrismaGenerator.createBackRelationField.
  rewrite Hr, Hc. cbn [length Nat.eqb].
  rewrite orb_true_r.
  by destruct (con_referencedColumns c).
Qed.

(** The constraint of a table [posts] on [users], without columns. *)
Lemma foreign_key_without_columns_witness :
  let c := mkConstraint FOREIGN_KEY [] (Some "users") (Some ["id"]) in
  let posts := mkTable "posts" [] [c; c] in
  let st :=
    PrismaGenerator.mkGen
      (map (fun table => PrismaGenerator.createBasicModel table []) [posts]) ∅ in
  PrismaGenerator.addRelation ∅ posts c st
  = if 0 <? default 0 ((∅ : gmap string nat) !! "PostsToUsers")
    then Throw (TypeError "replace")
    else Ret (PrismaGenerator.mkGen (PrismaGenerator.gen_models st)
                (<["PostsToUsers" := default 0 ((∅ : gmap string nat) !! "PostsToUsers") + 1]> ∅)).
Proof.
  intros c posts st.
  apply (foreign_key_without_columns ∅ posts c st "users").
  - reflexivity.
  - reflexivity.
  - discriminate.
  - reflexivity.
Defined.

(** X11.  Take a FOREIGN KEY constraint with a column, referenced
    columns and a referenced table, on a table that has its model, the
    referenced table having a model too.  The loop body throws nothing;
    it pushes the forward field on the source model and then, on the
    target model, a back-relation field that is a list of the source
    model, not optional, whose one attribute carries the relation name of
    the forward field. *)
Theorem resolved_target_gets_both_fields
        (fnc : PrismaGenerator.fieldCounters) (t : SQLTable) (c : SQLConstraint)
        (st : PrismaGenerator.genState) (r col : string)
        (cols refs : list string) :
  con_type c = FOREIGN_KEY ->
  con_referencedTable c = Some r -> r <> "" ->
  con_columns c = col :: cols ->
  con_referencedColumns c = Some refs ->
  is_Some (PrismaGenerator.findModel (PrismaGenerator.toPascalCase (tbl_name t))
             (PrismaGenerator.gen_models st)) ->
  is_Some (PrismaGenerator.findModel (PrismaGenerator.toPascalCase r)
             (PrismaGenerator.gen_models st)) ->
  exists rn rc' back models1 models2,
    PrismaGenerator.generateUniqueRelationName (tbl_name t) r (Some col)
      (PrismaGenerator.gen_relationCounter st) = Ret (rn, rc')
    /\ PrismaGenerator.createBackRelationField c t rn fnc = Some back
    /\ field_type back = PrismaGenerator.toPascalCase (tbl_name t)
    /\ field_attributes back = [JS.concat ["@relation("; JS.dq; rn; JS.dq; ")"]]
    /\ field_isArray back = true
    /\ field_isOptional back = false
    /\ PrismaGenerator.pushField (PrismaGenerator.toPascalCase (tbl_name t))
         (forwardField c t rn r col refs) (PrismaGenerator.gen_models st)
       = Some models1
    /\ PrismaGenerator.pushField (PrismaGenerator.toPascalCase r) back models1
       = Some models2
    /\ PrismaGenerator.addRelation fnc t c st
       = Ret (PrismaGenerator.mkGen models2 rc').
Proof.
  intros Htype Hr Hne Hc Hrefs Hsrc Htgt.
  destruct (UnresolvedFacts.generateUniqueRelationName_Some
              (tbl_name t) r col (PrismaGenerator.gen_relationCounter st))
    as (rn & Hrn).
  apply GeneratorFacts.findModel_is_Some in Hsrc.
  destruct (GeneratorFacts.pushField_is_Some _
              (forwardField c t rn r col refs) _ Hsrc) as [ms1 Hpush].
  assert (exists back,
             PrismaGenerator.createBackRelationField c t rn fnc = Some back
             /\ field_type back = PrismaGenerator.toPascalCase (tbl_name t)
             /\ field_attributes back
                = [JS.concat ["@relation("; JS.dq; rn; JS.dq; ")"]]
             /\ field_isArray back = true
             /\ field_isOptional back = false) as (b & Hb & Hb1 & Hb2 & Hb3 & Hb4).
  { unfold PrismaGenerator.createBackRelationField.
    rewrite Hc, Hr. cbn [PrismaGenerator.truthyOpt].
    rewrite (UnresolvedFacts.truthy_nonempty _ Hne). cbn [negb].
    eexists. split; [reflexivity|]. by repeat split. }
  assert (is_Some (PrismaGenerator.pushField (PrismaGenerator.toPascalCase r) b ms1))
    as [ms2 Hpush2].
  { apply GeneratorFacts.pushField_is_Some.
    apply GeneratorFacts.findModel_is_Some in Htgt.
    apply GeneratorFacts.pushField_shape, GeneratorFacts.shape_names in Hpush.
    by rewrite Hpush. }
  exists rn. eexists. exists b, ms1, ms2.
  split; [exact Hrn|]. split; [exact Hb|].
  split; [exact Hb1|]. split; [exact Hb2|]. split; [exact Hb3|].
  split; [exact Hb4|]. split; [exact Hpush|]. split; [exact Hpush2|].
  unfold PrismaGenerator.addRelation.
  rewrite Hr, Htype, (UnresolvedFacts.truthy_nonempty _ Hne).
  rewrite bool_decide_eq_true_2 by reflexivity. cbn [andb].
  rewrite Hc. cbn [head]. rewrite Hrn. cbn [mbind outcome_bind].
  rewrite (UnresolvedFacts.createRelationField_forward c t rn fnc r col cols refs
             Hr Hne Hc Hrefs).
  cbn [mbind outcome_bind]. rewrite Hpush. cbn [deref' mbind outcome_bind].
  rewrite Hb, Hpush2. reflexivity.
Qed.

(** The foreign key of [posts] on [users], both tables having a model. *)
Lemma resolved_target_witness :
  let author_id :=
    mkColumn "author_id" "INTEGER" true None false false None (Some false) in
  let c := mkConstraint FOREIGN_KEY ["author_id"] (Some "users") (Some ["id"]) in
  let posts := mkTable "posts" [author_id] [c] in
  let users := mkTable "users" [] [] in
  let st :=
    PrismaGenerator.mkGen
      (map (fun table => PrismaGenerator.createBasicModel table []) [users; posts])
      ∅ in
  exists rn rc' back models1 models2,
    PrismaGenerator.generateUniqueRelationName "posts" "users" (Some "author_id")
      ∅ = Ret (rn, rc')
    /\ PrismaGenerator.createBackRelationField c posts rn ∅ = Some back
    /\ field_type back = "Posts"
    /\ field_attributes back = [JS.concat ["@relation("; JS.dq; rn; JS.dq; ")"]]
    /\ field_isArray back = true
    /\ field_isOptional back = false
    /\ PrismaGenerator.pushField "Posts"
         (forwardField c posts rn "users" "author_id" ["id"])
         (PrismaGenerator.gen_models st)
       = Some models1
    /\ PrismaGenerator.pushField "Users" back models1 = Some models2
    /\ PrismaGenerator.addRelation ∅ posts c st
       = Ret (PrismaGenerator.mkGen models2 rc').
Proof.
  intros author_id c posts users st.
  apply (resolved_target_gets_both_fields ∅ posts c st "users" "author_id"
           [] ["id"]).
  - reflexivity.
  - reflexivity.
  - discriminate.
  - reflexivity.
  - reflexivity.
  - vm_compute. by eexists.
  - vm_compute. by eexists.
Defined.

(** ** The layout of a model *)

Module FormatFacts.
Import StringFacts.




Lemma startsWith_refl s : JS.startsWith s s = true.
Proof.
  induction s as [|c s IH]; cbn [JS.startsWith]; [done|].
  by rewrite Ascii.eqb_refl.
Qed.








End FormatFacts.



(** ** Clauses that start with a word *)

Module StarFacts.
Import Regex StringFacts.

(** A greedy star over a class takes the longest run of the class when
    the continuation accepts there. *)
Lemma run_Star_class p k w :
  forall tail pos caps x,
    allChars p w = true ->
    match tail with String c _ => p c = false | EmptyString => True end ->
    k (MState (pos + JS.len w) tail caps) = Some x ->
    run (Star (Cls p)) k (MState pos (w +:+ tail) caps) = Some x.
Proof.
  intros tail pos caps x Hw Htail Hk. cbn [run m_rest].
  assert (JS.len w <= String.length (w +:+ tail)) as Hfuel.
  { change (String.length (w +:+ tail)) with (JS.len (w +:+ tail)).
    rewrite len_app. lia. }
  revert Hfuel. generalize (String.length (w +:+ tail)) as fuel.
  revert pos Hk Hw. induction w as [|c w IH]; intros pos Hk _Hw fuel Hfuel.
  - rewrite app_empty. rewrite Nat.add_0_r in Hk.
    destruct fuel as [|fuel]; [exact Hk|].
    cbn [run m_rest]. destruct tail as [|c tail]; [by rewrite Hk|].
    by rewrite Htail, Hk.
  - cbn [allChars] in _Hw. apply andb_true_iff in _Hw as [Hc Hw].
    destruct fuel as [|fuel]; [cbn in Hfuel; lia|].
    rewrite app_String. cbn [run m_rest m_pos m_caps]. rewrite Hc.
    replace (pos <? S pos) with true by (symmetry; apply Nat.ltb_lt; lia).
    rewrite (IH (S pos)); [reflexivity| |exact Hw|cbn in Hfuel; lia].
    rewrite <- Hk. f_equal. f_equal. cbn [JS.len String.length]. lia.
Qed.

Lemma run_Star_total r k :
  (forall st, is_Some (k st)) -> forall st, is_Some (run (Star r) k st).
Proof.
  intros Hk st. cbn [run]. generalize (String.length (m_rest st)) as fuel.
  intros [|fuel]; [apply Hk|].
  match goal with
  | |- is_Some (match ?a with _ => _ end) => destruct a
  end; [by eexists | apply Hk].
Qed.

Lemma run_Cls p k pos c s caps :
  run (Cls p) k (MState pos (String c s) caps)
  = if p c then k (MState (S pos) s caps) else None.
Proof. reflexivity. Qed.

End StarFacts.

Module ClauseFacts.
Import Regex SQLParser StringFacts.

Lemma isWord_not_dquote c : JS.isWord c = true -> Ascii.eqb JS.dquote c = false.
Proof. destruct c as [[] [] [] [] [] [] [] []]; vm_compute; congruence. Qed.

Lemma isSpace_not_word c : JS.isSpace c = true -> JS.isWord c = false.
Proof. destruct c as [[] [] [] [] [] [] [] []]; vm_compute; congruence. Qed.

Lemma columnIdentifierRe_matches c w sp rest :
  JS.isWord c = true -> allChars JS.isWord w = true -> JS.isSpace sp = true ->
  test columnIdentifierRe (String c w +:+ String sp rest) = true.
Proof.
  intros Hc Hw Hsp. unfold test, exec.
  assert (is_Some (matchAt columnIdentifierRe 0 (String c w +:+ String sp rest)))
    as [st Hst]; [|rewrite app_String in *; cbn [searchFrom]; by rewrite Hst].
  unfold matchAt, columnIdentifierRe. cbn [seq].
  rewrite !CaptureFacts.run_Cat. cbn [run m_pos Nat.eqb].
  rewrite app_String. unfold chr at 1. cbn [run m_rest].
  rewrite (isWord_not_dquote c Hc).
  unfold plus at 1. rewrite CaptureFacts.run_Cat. unfold word at 1.
  rewrite StarFacts.run_Cls, Hc.
  set (k := fun st' : mstate => _).
  assert (is_Some (k (MState (1 + JS.len w) (String sp rest) []))) as [x Hx].
  { subst k. cbn beta. cbn [m_pos m_rest m_caps].
    unfold ws1, plus, space. rewrite CaptureFacts.run_Cat.
    rewrite StarFacts.run_Cls, Hsp.
    apply StarFacts.run_Star_total. intros st0. by eexists. }
  unfold word.
  rewrite (StarFacts.run_Star_class JS.isWord k w (String sp rest) 1 [] x Hw
             (isSpace_not_word sp Hsp) Hx).
  by eexists.
Qed.

End ClauseFacts.

(** X13.  A clause that starts with a word and white space is never a
    constraint clause for [isConstraintDefinition], whatever follows: the
    guard on column identifiers holds for every such clause, the
    table-level clauses PRIMARY KEY (...), FOREIGN KEY (...), UNIQUE (...)
    and CONSTRAINT name ... among them. *)
Theorem isConstraintDefinition_word_then_space
        (c sp : ascii) (w rest : string) :
  JS.isWord c = true -> allChars JS.isWord w = true -> JS.isSpace sp = true ->
  SQLParser.isConstraintDefinition (String c w +:+ String sp rest) = false.
Proof.
  intros Hc Hw Hsp. unfold SQLParser.isConstraintDefinition. cbv zeta.
  rewrite (ClauseFacts.columnIdentifierRe_matches c w sp rest Hc Hw Hsp).
  apply andb_false_r.
Qed.

(** A table-level primary key on two columns. *)
Lemma isConstraintDefinition_witness :
  SQLParser.isConstraintDefinition
    (String "P" "RIMARY" +:+ String " " "KEY (tenant_id, id)") = false.
Proof.
  apply (isConstraintDefinition_word_then_space "P" " " "RIMARY"
           "KEY (tenant_id, id)"); reflexivity.
Defined.

(** ** Splitting a table body, and quoted identifiers *)

Module SplitFacts.
Import SQLParser StringFacts.

Lemma withoutEmptyLast_cons x xs :
  xs <> [] -> withoutEmptyLast (x :: xs) = x :: withoutEmptyLast xs.
Proof. destruct xs; [contradiction | reflexivity]. Qed.

Lemma splitByCommasGo_flat s :
  forall current parts,
    hasChar lparen s = false -> hasChar rparen s = false ->
    splitByCommasGo s current 0 parts
    = parts ++ withoutEmptyLast (map JS.trim (JS.splitChar comma current s)).
Proof.
  induction s as [|c s IH]; intros current parts Hl Hr;
    cbn [splitByCommasGo JS.splitChar map withoutEmptyLast].
  - destruct (JS.truthy (JS.trim current)); [reflexivity | by rewrite List.app_nil_r].
  - cbn [hasChar] in Hl, Hr.
    apply orb_false_iff in Hl as [Hl Hl'], Hr as [Hr Hr'].
    rewrite Ascii.eqb_sym in Hl. rewrite Ascii.eqb_sym in Hr.
    rewrite Hl, Hr. cbn [Z.eqb andb]. rewrite andb_true_r.
    destruct (Ascii.eqb c comma).
    + rewrite IH by assumption. cbn [map].
      rewrite withoutEmptyLast_cons
        by (apply ColumnFacts.map_split_nonempty).
      by rewrite <- List.app_assoc.
    + by apply IH.
Qed.

End SplitFacts.

(** X14.  On a body without parentheses [splitByCommas] gives the pieces
    between the commas, trimmed, in order; an empty piece is kept, except
    the last one. *)
Theorem splitByCommas_without_parentheses (content : string) :
  JS.includes "(" content = false -> JS.includes ")" content = false ->
  SQLParser.splitByCommas content
  = withoutEmptyLast (map JS.trim (JS.split SQLParser.comma content)).
Proof.
  rewrite !StringFacts.includes_hasChar. intros Hl Hr.
  unfold SQLParser.splitByCommas.
  by rewrite SplitFacts.splitByCommasGo_flat.
Qed.

(** Two columns, an empty piece between them and a blank one at the end. *)
Lemma splitByCommas_without_parentheses_witness :
  SQLParser.splitByCommas "id SERIAL,, name TEXT , "
  = withoutEmptyLast (map JS.trim (JS.split SQLParser.comma "id SERIAL,, name TEXT , ")).
Proof.
  apply (splitByCommas_without_parentheses "id SERIAL,, name TEXT , ");
    reflexivity.
Defined.

Module IdentifierFacts.
Import SQLParser StringFacts.

Lemma take_app a b : JS.take (JS.len a) (a +:+ b) = a.
Proof.
  induction a as [|c a IH]; [by destruct b|].
  rewrite app_String. cbn [JS.len String.length JS.take]. f_equal. exact IH.
Qed.

End IdentifierFacts.

(** X15.  [parseIdentifier] gives back the name that was put between
    double quotes, whatever the name. *)
Theorem parseIdentifier_unquotes (name : string) :
  SQLParser.parseIdentifier (JS.dq +:+ name +:+ JS.dq) = name.
Proof.
  unfold SQLParser.parseIdentifier.
  replace (JS.startsWith JS.dq (JS.dq +:+ name +:+ JS.dq)) with true
    by reflexivity.
  rewrite (PluralFacts.endsWith_app JS.dq (JS.dq +:+ name) JS.dq eq_refl
           : JS.endsWith JS.dq (JS.dq +:+ name +:+ JS.dq) = true).
  cbn [andb]. unfold JS.stripEnds, JS.slice.
  change (JS.dq +:+ name +:+ JS.dq) with (String JS.dquote (name +:+ JS.dq)).
  cbn [JS.len String.length JS.sliceFrom].
  change (String.length (name +:+ JS.dq)) with (JS.len (name +:+ JS.dq)).
  rewrite StringFacts.len_app.
  replace (S (JS.len name + JS.len JS.dq) - 1 - 1) with (JS.len name)
    by (cbn [JS.len String.length JS.dq]; lia).
  apply IdentifierFacts.take_app.
Qed.

(** ** White space in the statements *)

Module BlankFacts.
Import Regex SQLParser StringFacts.

Lemma span s :
  exists w tail, s = w +:+ tail /\ allChars JS.isSpace w = true /\ solidHead tail.
Proof.
  induction s as [|c s (w & tail & -> & Hw & Ht)].
  - by exists EmptyString, EmptyString.
  - destruct (JS.isSpace c) eqn:Ec.
    + exists (String c w), tail. repeat split; [|exact Ht].
      cbn [allChars]. by rewrite Ec, Hw.
    + by exists EmptyString, (String c (w +:+ tail)).
Qed.

Lemma matchAt_blank pos c w tail :
  JS.isSpace c = true -> allChars JS.isSpace w = true -> solidHead tail ->
  matchAt whitespaceRe pos (String c (w +:+ tail))
  = Some (MState (S pos + JS.len w) tail []).
Proof.
  intros Hc Hw Ht. unfold matchAt, whitespaceRe, ws1, plus, space.
  rewrite CaptureFacts.run_Cat, StarFacts.run_Cls, Hc.
  apply StarFacts.run_Star_class; [exact Hw| |reflexivity].
  destruct tail; [exact I | exact Ht].
Qed.

Lemma matchAt_solid pos s : solidHead s -> matchAt whitespaceRe pos s = None.
Proof.
  intros H. unfold matchAt, whitespaceRe, ws1, plus, space.
  rewrite CaptureFacts.run_Cat. destruct s as [|c s]; [reflexivity|].
  rewrite StarFacts.run_Cls. cbn [solidHead] in H. by rewrite H.
Qed.

Lemma replaceGo_skip r rep w :
  forall pos tail,
    replaceGo r rep (JS.len w) pos (w +:+ tail)
    = replaceGo r rep 0 (pos + JS.len w) tail.
Proof.
  induction w as [|c w IH]; intros pos tail.
  - rewrite app_empty. cbn [JS.len String.length]. by rewrite Nat.add_0_r.
  - rewrite app_String. cbn [JS.len String.length replaceGo].
    change (String.length w) with (JS.len w). rewrite IH. f_equal. lia.
Qed.

Lemma replaceGo_blanks n :
  forall s pos,
    JS.len s <= n ->
    singleBlanks (replaceGo whitespaceRe " " 0 pos s) = true
    /\ (solidHead s -> solidHead (replaceGo whitespaceRe " " 0 pos s)).
Proof.
  induction n as [|n IH]; intros s pos Hlen.
  - destruct s; [|cbn in Hlen; lia]. by split.
  - destruct s as [|c s]; [by split|].
    destruct (JS.isSpace c) eqn:Ec.
    + destruct (span s) as (w & tail & -> & Hw & Ht).
      cbn [replaceGo]. rewrite (matchAt_blank pos c w tail Ec Hw Ht).
      cbn [m_pos]. replace (S pos + JS.len w - pos) with (S (JS.len w)) by lia.
      rewrite replaceGo_skip.
      destruct (IH tail (S pos + JS.len w)) as [Hs Hh].
      { cbn [JS.len String.length] in Hlen.
        change (String.length (w +:+ tail)) with (JS.len (w +:+ tail)) in Hlen.
        rewrite len_app in Hlen. lia. }
      split; [|intros H; cbn [solidHead] in H; congruence].
      change (" " +:+ ?x) with (String " " x). cbn [singleBlanks].
      rewrite Hs. specialize (Hh Ht).
      destruct (replaceGo whitespaceRe " " 0 (S pos + JS.len w) tail);
        [reflexivity|]. cbn [solidHead] in Hh. by rewrite Hh.
    + cbn [replaceGo]. rewrite (matchAt_solid pos (String c s) Ec).
      destruct (IH s (S pos)) as [Hs _]; [cbn in Hlen; lia|].
      split; [|intros _; exact Ec].
      cbn [singleBlanks]. by rewrite Ec, Hs.
Qed.

Lemma singleBlanks_app a b :
  singleBlanks (a +:+ b) = true -> singleBlanks a = true /\ singleBlanks b = true.
Proof.
  induction a as [|c a IH]; [by split|].
  rewrite app_String. cbn [singleBlanks].
  intros [Hc H]%andb_true_iff. destruct (IH H) as [Ha Hb].
  split; [|exact Hb]. rewrite Ha, andb_true_r.
  destruct (JS.isSpace c); [|reflexivity].
  apply andb_true_iff in Hc as [-> Hc]. cbn [andb].
  destruct a; [reflexivity | exact Hc].
Qed.

Lemma trimStart_suffix s : exists a, s = a +:+ JS.trimStart s.
Proof.
  induction s as [|c s [a IH]]; [by exists EmptyString|].
  cbn [JS.trimStart]. destruct (JS.isSpace c).
  - exists (String c a). rewrite app_String. by f_equal.
  - by exists EmptyString.
Qed.

Lemma trimEnd_prefix s : exists b, s = JS.trimEnd s +:+ b.
Proof.
  induction s as [|c s [b IH]]; [by exists EmptyString|].
  cbn [JS.trimEnd]. destruct (JS.trimEnd s) as [|d t] eqn:E.
  - destruct (JS.isSpace c).
    + by exists (String c s).
    + exists s. reflexivity.
  - exists b. rewrite app_String. by f_equal.
Qed.

Lemma singleBlanks_trim s : singleBlanks s = true -> singleBlanks (JS.trim s) = true.
Proof.
  intros H. unfold JS.trim.
  destruct (trimStart_suffix s) as [a Ha]. rewrite Ha in H.
  apply singleBlanks_app in H as [_ H].
  destruct (trimEnd_prefix (JS.trimStart s)) as [b Hb]. rewrite Hb in H.
  by apply singleBlanks_app in H as [H _].
Qed.

Lemma cleanSQL_blanks sql : singleBlanks (cleanSQL sql) = true.
Proof.
  unfold cleanSQL. apply singleBlanks_trim. unfold replaceAll.
  by apply (replaceGo_blanks _ _ 0 (Nat.le_refl _)).
Qed.

Lemma splitChar_blanks sep s :
  forall cur,
    singleBlanks (cur +:+ s) = true ->
    Forall (fun piece => singleBlanks piece = true) (JS.splitChar sep cur s).
Proof.
  induction s as [|c s IH]; intros cur H; cbn [JS.splitChar].
  - rewrite append_nil_r in H. by constructor.
  - destruct (Ascii.eqb c sep).
    + apply singleBlanks_app in H as [Hcur H]. constructor; [exact Hcur|].
      apply IH. rewrite app_empty.
      change (String c s) with (String c EmptyString +:+ s) in H.
      by apply singleBlanks_app in H as [_ H].
    + apply IH. rewrite append_assoc. exact H.
Qed.

End BlankFacts.

(** X16.  Whatever the input, no statement that [parseSQL] hands to its
    three loops is blank or has a semicolon, and its white space is
    single blanks: no line terminator, no tab and no two blanks in a row
    are left, also inside quoted names and string literals. *)
Theorem statements_are_normalised (sql : string) :
  Forall (fun statement =>
            singleBlanks statement = true
            /\ JS.includes ";" statement = false
            /\ JS.trim statement <> "")
         (SQLParser.splitStatements sql).
Proof.
  unfold SQLParser.splitStatements.
  apply Forall_forall. intros statement [Htrim Hin]%list_elem_of_filter.
  unfold JS.split in Hin. split; [|split].
  - pose proof (BlankFacts.splitChar_blanks ";" (SQLParser.cleanSQL sql) EmptyString
                  (BlankFacts.cleanSQL_blanks sql)) as H.
    rewrite Forall_forall in H. by apply H.
  - rewrite StringFacts.includes_hasChar.
    pose proof (StringFacts.hasChar_splitChar ";" EmptyString
                  (SQLParser.cleanSQL sql) eq_refl) as H.
    rewrite Forall_forall in H. by apply H.
  - intros E. rewrite E in Htrim. discriminate Htrim.
Qed.

(** ** The converter page *)

Module PageFacts.
Import Converter StringFacts.

Lemma take_sliceFrom n s : JS.take n s +:+ JS.sliceFrom n s = s.
Proof.
  revert n. induction s as [|c s IH]; intros [|n]; try reflexivity.
  cbn [JS.take JS.sliceFrom]. rewrite app_String. f_equal. apply IH.
Qed.

Lemma len_take n s : n <= JS.len s -> JS.len (JS.take n s) = n.
Proof.
  revert n. induction s as [|c s IH]; intros [|n] H; cbn in *; try lia.
  f_equal. apply IH. lia.
Qed.

Lemma startsWith_take n s : JS.startsWith (JS.take n s) s = true.
Proof.
  revert n. induction s as [|c s IH]; intros [|n]; try reflexivity.
  cbn [JS.take JS.startsWith]. by rewrite Ascii.eqb_refl.
Qed.

Lemma endsWith_len p s : JS.endsWith p s = true -> JS.len p <= JS.len s.
Proof. unfold JS.endsWith. intros [H _]%andb_true_iff. by apply Nat.leb_le. Qed.

Lemma endsWith_split p s :
  JS.endsWith p s = true -> s = JS.take (JS.len s - JS.len p) s +:+ p.
Proof.
  unfold JS.endsWith. intros [_ H]%andb_true_iff. apply String.eqb_eq in H.
  pose proof (take_sliceFrom (JS.len s - JS.len p) s) as E.
  rewrite H in E. by symmetry.
Qed.

Lemma endsWith_app_eq p a b :
  JS.len p <= JS.len b -> JS.endsWith p (a +:+ b) = JS.endsWith p b.
Proof.
  intros H. unfold JS.endsWith. rewrite len_app.
  replace (JS.len a + JS.len b - JS.len p)
    with (JS.len a + (JS.len b - JS.len p)) by lia.
  rewrite PluralFacts.sliceFrom_app.
  replace (JS.len p <=? JS.len a + JS.len b) with true
    by (symmetry; apply Nat.leb_le; lia).
  replace (JS.len p <=? JS.len b) with true
    by (symmetry; apply Nat.leb_le; lia).
  reflexivity.
Qed.

Lemma take_shorter n s : n < JS.len s -> JS.take n s <> s.
Proof.
  intros H E. apply (f_equal JS.len) in E. rewrite len_take in E; lia.
Qed.

Lemma sqlToPrismaName_result sqlName :
  sqlToPrismaName sqlName
  = let cleanName := Regex.replaceAll quoteRe "" sqlName in
    let result := PrismaGenerator.toPascalCase cleanName in
    if negb (isLikelyEnum cleanName) then
      if JS.endsWith "ies" result
      then JS.take (JS.len result - 3) result +:+ "y"
      else if JS.endsWith "es" result && negb (JS.endsWith "ses" result)
      then JS.take (JS.len result - 2) result
      else if JS.endsWith "s" result && negb (JS.endsWith "ss" result)
      then JS.take (JS.len result - 1) result
      else result
    else result.
Proof. reflexivity. Qed.

End PageFacts.

(** X17.  The name under which the page looks a table up, against the
    name the generator gives its model, for the same name without quote
    characters.  The two are equal exactly when the name is taken for an
    enum, or the model name does not end with an s, or it ends with ss.
    Otherwise the looked-up name is a strict prefix of the model name, or
    the model name ends with ies and the looked-up name has a y there. *)
Theorem sqlToPrismaName_and_the_model_name (sqlName : string) :
  let cleanName := Regex.replaceAll Converter.quoteRe "" sqlName in
  let modelName := PrismaGenerator.toPascalCase cleanName in
  (Converter.sqlToPrismaName sqlName = modelName
   <-> Converter.isLikelyEnum cleanName = true
       \/ JS.endsWith "s" modelName = false
       \/ JS.endsWith "ss" modelName = true)
  /\ (JS.startsWith (Converter.sqlToPrismaName sqlName) modelName = true
      \/ exists base,
          modelName = base +:+ "ies"
          /\ Converter.sqlToPrismaName sqlName = base +:+ "y").
Proof.
  intros cleanName modelName.
  rewrite PageFacts.sqlToPrismaName_result. cbv zeta.
  fold cleanName. fold modelName.
  destruct (Converter.isLikelyEnum cleanName); cbn [negb].
  { split; [split; auto|]. left. apply FormatFacts.startsWith_refl. }
  destruct (JS.endsWith "ies" modelName) eqn:Eies.
  { pose proof (PageFacts.endsWith_split _ _ Eies) as Hsplit.
    set (base := JS.take (JS.len modelName - JS.len "ies") modelName) in *.
    change (JS.take (JS.len modelName - 3) modelName) with base.
    assert (JS.endsWith "s" modelName = true) as Es.
    { rewrite Hsplit. by apply PluralFacts.endsWith_app. }
    assert (JS.endsWith "ss" modelName = false) as Ess.
    { rewrite Hsplit. rewrite PageFacts.endsWith_app_eq by (cbn; lia).
      reflexivity. }
    split; [|right; by exists base].
    split.
    - intros E. clearbody base. rewrite Hsplit in E.
      apply (inj (String.app base)) in E. discriminate E.
    - intros [H|[H|H]]; congruence. }
  destruct (JS.endsWith "es" modelName) eqn:Ees.
  - pose proof (PageFacts.endsWith_split _ _ Ees) as Hsplit.
    pose proof (PageFacts.endsWith_len _ _ Ees) as Hlen. cbn in Hlen.
    assert (JS.endsWith "s" modelName = true) as Es.
    { rewrite Hsplit. by apply PluralFacts.endsWith_app. }
    assert (JS.endsWith "ss" modelName = false) as Ess.
    { rewrite Hsplit. rewrite PageFacts.endsWith_app_eq by (cbn; lia).
      reflexivity. }
    rewrite Es, Ess. cbn [andb negb].
    destruct (JS.endsWith "ses" modelName); cbn [negb andb].
    + split; [|left; apply PageFacts.startsWith_take].
      split.
      * intros E. exfalso. revert E. apply PageFacts.take_shorter. lia.
      * intros [H|[H|H]]; congruence.
    + split; [|left; apply PageFacts.startsWith_take].
      split.
      * intros E. exfalso. revert E. apply PageFacts.take_shorter. lia.
      * intros [H|[H|H]]; congruence.
  - cbn [andb].
    destruct (JS.endsWith "s" modelName) eqn:Es; cbn [andb].
    + pose proof (PageFacts.endsWith_len _ _ Es) as Hlen. cbn in Hlen.
      destruct (JS.endsWith "ss" modelName) eqn:Ess; cbn [negb].
      * split; [split; auto|]. left. apply FormatFacts.startsWith_refl.
      * split; [|left; apply PageFacts.startsWith_take].
        split.
        -- intros E. exfalso. revert E. apply PageFacts.take_shorter. lia.
        -- intros [H|[H|H]]; congruence.
    + split; [split; auto|]. left. apply FormatFacts.startsWith_refl.
Qed.

(** X18.  [convertSQLToPrisma] never reaches the handler of its [try]
    block.  On a blank input it clears the output and the count.
    Otherwise [parseSQL] returns; with no table and no enum the status is
    [error], the toast about missing definitions is shown and the output
    and the count stay as they were; with a table or an enum the
    generator returns, the output is its text, the status is [ready] and
    no toast is shown.  The console gets the lines of the parser only. *)
Theorem convertSQLToPrisma_never_fails
        (sql : string) (p : Converter.page) (w : console) :
  (JS.trim sql = ""
   /\ Converter.convertSQLToPrisma sql p w
      = (Converter.mkPage "" Converter.ready 0 (Converter.toasts p), w))
  \/ (JS.trim sql <> ""
      /\ exists parseResult w',
          SQLParser.parseSQL sql w = (Ret parseResult, w')
          /\ ((tables parseResult = [] /\ enums parseResult = []
               /\ Converter.convertSQLToPrisma sql p w
                  = (Converter.mkPage (Converter.prismaOutput p) Converter.error
                       (Converter.tablesConverted p)
                       (Converter.toasts p ++ [Converter.noDefinitions]),
                     w'))
              \/ (exists prismaSchema,
                     (tables parseResult <> [] \/ enums parseResult <> [])
                     /\ PrismaGenerator.generatePrismaSchema parseResult
                        = Ret prismaSchema
                     /\ Converter.convertSQLToPrisma sql p w
                        = (Converter.mkPage prismaSchema Converter.ready
                             (Converter.countLines Converter.modelLineRe
                                prismaSchema
                              + Converter.countLines Converter.enumLineRe
                                  prismaSchema)
                             (Converter.toasts p),
                           w')))).
Proof.
  unfold Converter.convertSQLToPrisma.
  destruct (JS.trim sql) as [|c rest] eqn:Etrim; cbn [JS.truthy negb].
  { left. by split. }
  right. split; [discriminate|].
  destruct (PassFacts.parseSQL_writes sql) as (r & l & Hw & _).
  exists r, (w ++ l). split; [apply Hw|]. rewrite (Hw w).
  pose proof (ColumnFacts.parseSQL_complete sql w r (w ++ l) (Hw w)) as Hc.
  destruct (ReturnFacts.generatePrismaSchema_returns r Hc) as [text Htext].
  destruct (tables r) as [|t ts] eqn:Et; cbn [length Nat.eqb andb].
  - destruct (enums r) as [|e es] eqn:Ee; cbn [length Nat.eqb].
    + left. by repeat split.
    + right. exists text. rewrite Htext. cbv zeta.
      split; [right; discriminate|]. by split.
  - right. exists text. rewrite Htext. cbv zeta.
    split; [left; discriminate|]. by split.
Qed.

(** ** Columns of an enum type *)

Module EnumFacts.
Import PrismaGenerator StringFacts.

Lemma toPascalCase_same_letters a b :
  isASCII a = true -> isASCII b = true ->
  JS.toLowerCase a = JS.toLowerCase b -> toPascalCase a = toPascalCase b.
Proof.
  intros _ _ H.
  assert (forall str, toPascalCase (JS.toLowerCase str) = toPascalCase str) as L.
  { intros str. rewrite !CaseFacts.toPascalCase_capitalize.
    unfold JS.split, JS.toLowerCase.
    change (JS.splitChar "_" EmptyString (JS.mapChars JS.lowerChar str))
      with (JS.splitChar "_" (JS.mapChars JS.lowerChar EmptyString)
              (JS.mapChars JS.lowerChar str)).
    rewrite (splitChar_mapChars JS.lowerChar "_" EmptyString str
               lowerChar_underscore).
    rewrite map_map. f_equal. apply map_ext. intros w.
    apply CaseFacts.capitalize_toLowerCase. }
  by rewrite <- (L a), H, L.
Qed.

Lemma find_enum name enums e :
  In e enums -> toPascalCase (enum_name e) = name ->
  exists found,
    find (fun enumDef => String.eqb (penum_name enumDef) name)
         (convertEnumsToPrismaEnums enums) = Some found
    /\ penum_name found = name.
Proof.
  intros Hin Hname.
  destruct (find _ (convertEnumsToPrismaEnums enums)) as [found|] eqn:E.
  - exists found. split; [reflexivity|].
    apply find_some in E as [_ E]. by apply String.eqb_eq.
  - assert (In (mkPrismaEnum (toPascalCase (enum_name e)) (enum_values e))
              (convertEnumsToPrismaEnums enums)) as Hin'.
    { unfold convertEnumsToPrismaEnums.
      apply (in_map (fun enumDef =>
                       mkPrismaEnum (toPascalCase (enum_name enumDef))
                         (enum_values enumDef))), Hin. }
    pose proof (find_none _ _ E _ Hin') as Hf. cbn [penum_name] in Hf.
    apply String.eqb_neq in Hf. contradiction.
Qed.

End EnumFacts.

(** X20.  A column marked as an enum whose type is within ASCII and is,
    case apart, the name of an enum of the parse result, itself within
    ASCII, gets the Prisma name of that enum as the type of its field,
    and this name is the name of a generated enum. *)
Theorem enum_column_gets_the_enum_type
        (column : SQLColumn) (table : SQLTable) (enums : list SQLEnum)
        (enumDef : SQLEnum) :
  col_isEnum column = Some true ->
  In enumDef enums ->
  isASCII (enum_name enumDef) = true ->
  isASCII (col_type column) = true ->
  JS.toLowerCase (enum_name enumDef) = JS.toLowerCase (col_type column) ->
  let prismaEnums := PrismaGenerator.convertEnumsToPrismaEnums enums in
  field_type (PrismaGenerator.convertColumnToField column table prismaEnums)
  = PrismaGenerator.toPascalCase (enum_name enumDef)
  /\ In (PrismaGenerator.toPascalCase (enum_name enumDef))
        (map penum_name prismaEnums).
Proof.
  intros HisEnum Hin Hname7 Htype7 Hlower prismaEnums.
  pose proof (EnumFacts.toPascalCase_same_letters _ _ Hname7 Htype7 Hlower)
    as Hname.
  subst prismaEnums. split.
  - unfold PrismaGenerator.convertColumnToField. cbv zeta. cbn [field_type].
    rewrite HisEnum. cbn [default from_option id].
    unfold PrismaGenerator.mapSQLTypeToPrismaType. cbv zeta.
    destruct (EnumFacts.find_enum _ enums enumDef Hin Hname) as (found & -> & Hf).
    by rewrite Hf, Hname.
  - unfold PrismaGenerator.convertEnumsToPrismaEnums.
    rewrite map_map. cbn [penum_name].
    apply (in_map (fun e => PrismaGenerator.toPascalCase (enum_name e))), Hin.
Qed.

(** A column of type [Order_Status] with the enum [order_status]. *)
Lemma enum_column_witness :
  let column := mkColumn "state" "Order_Status" true None false false None (Some true) in
  let table := mkTable "orders" [column] [] in
  let enumDef := mkEnum "order_status" ["open"; "closed"] in
  field_type (PrismaGenerator.convertColumnToField column table
                (PrismaGenerator.convertEnumsToPrismaEnums [enumDef]))
  = PrismaGenerator.toPascalCase "order_status"
  /\ In (PrismaGenerator.toPascalCase "order_status")
        (map penum_name (PrismaGenerator.convertEnumsToPrismaEnums [enumDef])).
Proof.
  intros column table enumDef.
  apply (enum_column_gets_the_enum_type column table [enumDef] enumDef).
  - reflexivity.
  - by left.
  - reflexivity.
  - reflexivity.
  - reflexivity.
Defined.
